(** * Graph metrics plugin: graph construction, path search and cache upkeep

    A shallow embedding of [EnhancedGraphService] (graph builder, path finder,
    cache manager), of the metrics of [HubDetectionService] (PageRank, degree
    centrality, eigenvector centrality, bridging coefficient) and of the
    modal's [calculateClusteringCoefficient], with the properties stated
    about them.

    Modelling conventions.
    - Node identifiers are document paths.  A path is never a canonical array
      index and never the name of a property inherited from
      [Object.prototype], so a plain object used as a record of such keys
      iterates in insertion order, as a JavaScript [Map] does, and a lookup
      finds own entries only.  Both are association lists kept in insertion
      order: [oset] overwrites in place or appends, as [Map.set] and property
      assignment do.
    - Integer-valued numbers (distances, lengths, counters, the numeric
      settings) are [Z]; [Infinity] is [None] in an [option].  Real-valued
      numbers are IEEE binary64 floats ([PrimFloat]), which is what a
      JavaScript number is.
    - A statement that can throw returns a [result]; loops that the source
      writes with [while] or by recursion take fuel, and the fuel is shown to
      suffice. *)

From Stdlib Require Import String Ascii List ZArith Lia Bool PeanoNat Sorted Permutation.
From Stdlib Require Import DecimalString PrimFloat SpecFloat FloatOps FloatAxioms.
From Stdlib Require Uint63.
Import ListNotations.
Local Open Scope string_scope.
Local Open Scope list_scope.
Local Open Scope Z_scope.
Set Warnings "-inexact-float".

(** ** Outcomes of a JavaScript computation *)

Inductive result (A : Type) : Type :=
| Ok (a : A)
| TypeError
| OutOfFuel.
Arguments Ok {A} a.
Arguments TypeError {A}.
Arguments OutOfFuel {A}.

Definition rbind {A B : Type} (r : result A) (k : A -> result B) : result B :=
  match r with
  | Ok a => k a
  | TypeError => TypeError
  | OutOfFuel => OutOfFuel
  end.

Notation "x <- c ;; k" := (rbind c (fun x => k))
  (at level 61, c at next level, right associativity).

(** ** Insertion-ordered maps with string keys *)

Section OrderedMap.
Context {V : Type}.

Definition omap := list (string * V).

Fixpoint oget (m : omap) (k : string) : option V :=
  match m with
  | [] => None
  | (k', v) :: rest => if String.eqb k' k then Some v else oget rest k
  end.

Definition ohas (m : omap) (k : string) : bool :=
  match oget m k with Some _ => true | None => false end.

(** [Map.set] / property assignment: an existing key keeps its place. *)
Fixpoint oset (m : omap) (k : string) (v : V) : omap :=
  match m with
  | [] => [(k, v)]
  | (k', v') :: rest =>
      if String.eqb k' k then (k', v) :: rest else (k', v') :: oset rest k v
  end.

(** [Map.delete] / the [delete] operator. *)
Definition odelete (m : omap) (k : string) : omap :=
  filter (fun kv => negb (String.eqb (fst kv) k)) m.

Definition okeys (m : omap) : list string := map fst m.
Definition ovalues (m : omap) : list V := map snd m.
End OrderedMap.
Arguments omap V : clear implicits.

(** A JavaScript [Set] of strings, used only through [has], [add], [delete]. *)
Definition sset := list string.
Definition shas (s : sset) (x : string) : bool := existsb (String.eqb x) s.
Definition sadd (s : sset) (x : string) : sset := if shas s x then s else s ++ [x].
Definition sdelete (s : sset) (x : string) : sset :=
  filter (fun y => negb (String.eqb y x)) s.

(** ** Data model *)

Inductive ConnectionType : Type := DIRECT | BACKLINK | TAG | EMBEDDED.

Record Metadata : Type := mkMetadata {
  title : string;
  tags : list string
}.

Record ConnectionInfo : Type := mkConnectionInfo {
  type : ConnectionType;
  commonTags : option (list string);
  metadata : option Metadata
}.

Definition EnhancedGraph := omap (omap ConnectionInfo).

Record PathResult : Type := mkPathResult {
  distance : Z;
  path : list string;
  connectionTypes : list ConnectionInfo
}.

(** ** The document source

    A document as the vault presents it: its path and basename, whether
    [vault.read] succeeds, the first capture group of every match of the
    wiki-link expression and of the embedded-link expression in its text, in
    order, and the tag strings of the metadata cache (with their leading
    hash sign).  Matching the two regular expressions against the text is
    the document source's part; what [processFile] does with the captures is
    modelled.  (In a real text every embedded link is also matched by the
    wiki-link expression; the model does not rely on it.) *)

Record TFile : Type := mkTFile {
  fpath : string;
  basename : string;
  readable : bool;
  wikiLinkMatches : list string;
  embeddedLinkMatches : list string;
  cacheTags : list string
}.

Inductive AlgorithmPreference : Type :=
  PrefAuto | PrefOriginal | PrefOptimized | PrefBidirectional.

Record Settings : Type := mkSettings {
  cacheGraphStructure : bool;
  parallelProcessing : bool;
  includeBacklinks : bool;
  includeEmbeddedLinks : bool;
  includeTagsInAnalysis : bool;
  maxPathLength : Z;
  algorithmPreference : AlgorithmPreference
}.

(** ** String helpers of the name resolver

    Strings are sequences of bytes: [toLowerCase] lowers the ASCII letters
    and [trim] removes the ASCII white space. *)

Definition lowerAscii (c : ascii) : ascii :=
  let n := nat_of_ascii c in
  if andb (Nat.leb 65 n) (Nat.leb n 90) then ascii_of_nat (n + 32) else c.

Fixpoint toLowerCase (s : string) : string :=
  match s with
  | EmptyString => EmptyString
  | String c rest => String (lowerAscii c) (toLowerCase rest)
  end.

Fixpoint includes (s sub : string) : bool :=
  if String.prefix sub s then true
  else match s with
       | EmptyString => false
       | String _ rest => includes rest sub
       end.

(** [s.split(sep)[0]] for a one-character separator. *)
Fixpoint beforeChar (sep : ascii) (s : string) : string :=
  match s with
  | EmptyString => EmptyString
  | String c rest =>
      if Ascii.eqb c sep then EmptyString else String c (beforeChar sep rest)
  end.

Definition isSpace (c : ascii) : bool :=
  let n := nat_of_ascii c in
  orb (Nat.eqb n 32) (andb (Nat.leb 9 n) (Nat.leb n 13)).

Fixpoint trimStart (s : string) : string :=
  match s with
  | EmptyString => EmptyString
  | String c rest => if isSpace c then trimStart rest else s
  end.

Fixpoint revString (s acc : string) : string :=
  match s with
  | EmptyString => acc
  | String c rest => revString rest (String c acc)
  end.

Definition trim (s : string) : string :=
  revString (trimStart (revString (trimStart s) EmptyString)) EmptyString.

(** [match[1].split('#')[0].split('|')[0].trim()] *)
Definition linkTextOf (capture : string) : string :=
  trim (beforeChar "|" (beforeChar "#" capture)).

Definition substring1 (s : string) : string :=
  match s with
  | EmptyString => EmptyString
  | String _ rest => rest
  end.

Definition tagsOf (f : TFile) : list string := map substring1 (cacheTags f).

Section Service.
(** The vault's markdown files, in enumeration order, and the settings. *)
Variable files : list TFile.
Variable settings : Settings.

Definition findNoteByName (name : string) : option TFile :=
  match find (fun f => String.eqb (basename f) name) files with
  | Some f => Some f
  | None =>
      match find (fun f => String.eqb (toLowerCase (basename f))
                                      (toLowerCase name)) files with
      | Some f => Some f
      | None =>
          find (fun f => includes (toLowerCase (basename f))
                                  (toLowerCase name)) files
      end
  end.

(** [vault.getAbstractFileByPath(p) instanceof TFile], for markdown files. *)
Definition getAbstractFileByPath (p : string) : option TFile :=
  find (fun f => String.eqb (fpath f) p) files.

Definition getFileMetadata (f : TFile) : Metadata :=
  {| title := basename f; tags := tagsOf f |}.

(** ** Graph builder *)

Definition isEmptyString (s : string) : bool := String.eqb s "".

(** [graph[node] || new Map()] *)
Definition neighborsOf (g : EnhancedGraph) (node : string) : omap ConnectionInfo :=
  match oget g node with
  | Some m => m
  | None => []
  end.

(** [graph[src].set(tgt, info)]: a [TypeError] when [graph[src]] is undefined. *)
Definition setEdge (g : EnhancedGraph) (src tgt : string) (info : ConnectionInfo)
  : result EnhancedGraph :=
  match oget g src with
  | Some m => Ok (oset g src (oset m tgt info))
  | None => TypeError
  end.

Definition linkInfo (ty : ConnectionType) (linked : TFile) : ConnectionInfo :=
  {| type := ty; commonTags := None;
     metadata := Some (getFileMetadata linked) |}.

(** One [while ((match = regex.exec(content)) !== null)] loop of
    [processFile].  The graph is mutated in place inside a [try] block, so the
    loop returns the graph as it stands together with a flag telling whether
    an exception escaped. *)
Fixpoint addLinks (ty : ConnectionType) (src : string) (captures : list string)
  (g : EnhancedGraph) : EnhancedGraph * bool :=
  match captures with
  | [] => (g, false)
  | capture :: rest =>
      let linkText := linkTextOf capture in
      if isEmptyString linkText then addLinks ty src rest g
      else match findNoteByName linkText with
           | None => addLinks ty src rest g
           | Some linkedFile =>
               match setEdge g src (fpath linkedFile) (linkInfo ty linkedFile) with
               | Ok g' => addLinks ty src rest g'
               | _ => (g, true)
               end
           end
  end.

(** [fileTags.filter(tag => otherTags.includes(tag))] *)
Definition commonTagsWith (fileTags otherTags : list string) : list string :=
  filter (fun t => existsb (String.eqb t) otherTags) fileTags.

(** The [tagMatchCounts] record, keyed by the other document's path. *)
Fixpoint tagMatchCounts (file : TFile) (fileTags : list string)
  (allFiles : list TFile) (acc : omap (TFile * list string))
  : omap (TFile * list string) :=
  match allFiles with
  | [] => acc
  | otherFile :: rest =>
      if String.eqb (fpath otherFile) (fpath file)
      then tagMatchCounts file fileTags rest acc
      else
        let otherTags := tagsOf otherFile in
        match otherTags with
        | [] => tagMatchCounts file fileTags rest acc
        | _ :: _ =>
            match commonTagsWith fileTags otherTags with
            | [] => tagMatchCounts file fileTags rest acc
            | (_ :: _) as common =>
                tagMatchCounts file fileTags rest
                  (oset acc (fpath otherFile) (otherFile, common))
            end
        end
  end.

(** [Array.prototype.sort] is stable: insertion keeps equal elements in
    their original order.  [before a b] says that [a] may stand before [b]. *)
Fixpoint insertSorted {A : Type} (before : A -> A -> bool) (x : A) (l : list A)
  : list A :=
  match l with
  | [] => [x]
  | y :: rest =>
      if before x y then x :: l else y :: insertSorted before x rest
  end.

Definition stableSort {A : Type} (before : A -> A -> bool) (l : list A) : list A :=
  fold_right (insertSorted before) [] l.

Definition MAX_TAG_MATCHES : nat := 50.

Definition tagInfo (otherFile : TFile) (common : list string) : ConnectionInfo :=
  {| type := TAG; commonTags := Some common;
     metadata := Some (getFileMetadata otherFile) |}.

Fixpoint addTagEdges (src : string) (matches : list (string * (TFile * list string)))
  (g : EnhancedGraph) : EnhancedGraph * bool :=
  match matches with
  | [] => (g, false)
  | (_, (otherFile, common)) :: rest =>
      match setEdge g src (fpath otherFile) (tagInfo otherFile common) with
      | Ok g' => addTagEdges src rest g'
      | _ => (g, true)
      end
  end.

Definition sortedTagMatches (file : TFile) (allFiles : list TFile)
  : list (string * (TFile * list string)) :=
  stableSort
    (fun a b => Nat.leb (length (snd (snd b))) (length (snd (snd a))))
    (tagMatchCounts file (tagsOf file) allFiles []).

(** [processFile]: every exception of the body is caught and logged, so the
    procedure always completes and leaves the graph as mutated so far. *)
Definition processFile (allFiles : list TFile) (g : EnhancedGraph) (file : TFile)
  : EnhancedGraph :=
  if negb (readable file) then g
  else
    let fileTags := tagsOf file in
    let '(g1, threw1) := addLinks DIRECT (fpath file) (wikiLinkMatches file) g in
    if threw1 then g1
    else
      let '(g2, threw2) :=
        if includeEmbeddedLinks settings
        then addLinks EMBEDDED (fpath file) (embeddedLinkMatches file) g1
        else (g1, false) in
      if threw2 then g2
      else
        if andb (includeTagsInAnalysis settings)
                (negb (Nat.eqb (length fileTags) 0))
        then fst (addTagEdges (fpath file)
                    (firstn MAX_TAG_MATCHES (sortedTagMatches file allFiles)) g2)
        else g2.

Definition backlinkInfo (sourceFile : TFile) : ConnectionInfo :=
  {| type := BACKLINK; commonTags := None;
     metadata := Some (getFileMetadata sourceFile) |}.

(** The inner loop of [processBacklinks] for one source.  [graph[target]] is
    dereferenced without a guard: a target without an entry throws. *)
Fixpoint backlinkTargets (source : string) (targets : list (string * ConnectionInfo))
  (g : EnhancedGraph) : result EnhancedGraph :=
  match targets with
  | [] => Ok g
  | (target, _) :: rest =>
      match oget g target with
      | None => TypeError
      | Some tm =>
          if ohas tm source then backlinkTargets source rest g
          else
            match getAbstractFileByPath source with
            | Some sourceFile =>
                backlinkTargets source rest
                  (oset g target (oset tm source (backlinkInfo sourceFile)))
            | None => backlinkTargets source rest g
            end
      end
  end.

(** The outer loop runs over the entries of the graph object as they were
    when the loop started; each entry holds the live [Map] of its source,
    which is the one stored under that key when the source is reached.  The
    inner loop never writes to the map it iterates (see
    [backlinkTargets_own_map]). *)
Fixpoint backlinkSources (sources : list string) (g : EnhancedGraph)
  : result EnhancedGraph :=
  match sources with
  | [] => Ok g
  | source :: rest =>
      g' <- backlinkTargets source (neighborsOf g source) g ;;
      backlinkSources rest g'
  end.

Definition processBacklinks (g : EnhancedGraph) : result EnhancedGraph :=
  backlinkSources (okeys g) g.

Definition initGraph (fs : list TFile) : EnhancedGraph :=
  fold_left (fun g f => oset g (fpath f) []) fs [].

Definition BATCH_SIZE : nat := if parallelProcessing settings then 10%nat else 5%nat.

(** The batch loop [for (i = 0; i < files.length; i += BATCH_SIZE)]; [rest]
    is [files.slice(i)].  Within a batch every [processFile] writes only the
    entry of its own document, so the order in which the members of a
    parallel batch resume does not matter; they are run in batch order. *)
Fixpoint processBatches (fuel : nat) (allFiles rest : list TFile)
  (g : EnhancedGraph) : EnhancedGraph :=
  match fuel with
  | O => g
  | S fuel' =>
      match rest with
      | [] => g
      | _ :: _ =>
          let batch := firstn BATCH_SIZE rest in
          processBatches fuel' allFiles (skipn BATCH_SIZE rest)
            (fold_left (processFile allFiles) batch g)
      end
  end.

(** The graph after the per-document passes, before backlinks. *)
Definition buildForward : EnhancedGraph :=
  processBatches (length files) files files (initGraph files).

Definition buildGraph : result EnhancedGraph :=
  if includeBacklinks settings then processBacklinks buildForward
  else Ok buildForward.

(** ** Cache manager *)

Record ServiceState : Type := mkServiceState {
  cachedGraph : option EnhancedGraph;
  lastCacheTime : Z
}.

Inductive ChangeType : Type := Modify | Create | Delete.

(** [now] is the value of [Date.now()]. *)
Definition updateGraphCache (now : Z) (st : ServiceState) (changedFile : TFile)
  (changeType : ChangeType) : ServiceState :=
  if negb (cacheGraphStructure settings)
  then {| cachedGraph := cachedGraph st; lastCacheTime := 0 |}
  else
    match cachedGraph st with
    | None => {| cachedGraph := None; lastCacheTime := 0 |}
    | Some g =>
        match changeType with
        | Delete =>
            let g1 := odelete g (fpath changedFile) in
            let g2 := map (fun '(k, edges) => (k, odelete edges (fpath changedFile))) g1 in
            {| cachedGraph := Some g2; lastCacheTime := now |}
        | _ =>
            let g1 := match changeType with
                      | Create => oset g (fpath changedFile) []
                      | _ => g
                      end in
            {| cachedGraph := Some (processFile files g1 changedFile);
               lastCacheTime := now |}
        end
    end.

End Service.

(** ** Path finder *)

Definition noPath : PathResult :=
  {| distance := -1; path := []; connectionTypes := [] |}.

Record QueueEntry : Type := mkQueueEntry {
  qnode : string;
  qdistance : Z;
  qpath : list string;
  qconnectionTypes : list ConnectionInfo
}.

Record VisitInfo : Type := mkVisitInfo {
  prev : string;
  vdistance : Z;
  vconnectionInfo : option ConnectionInfo
}.

(** One frontier of the bidirectional search: its [visited] map and its
    queue ([forwardVisited] and [forwardQueue], or [backwardVisited] and
    [backwardQueue]). *)
Record Frontier : Type := mkFrontier {
  visited : omap VisitInfo;
  queue : list string
}.

(** The state of the bidirectional search.  [meetingNode] and
    [shortestDistance] are only ever assigned together, so they are one
    optional pair: [None] is [meetingNode = null, shortestDistance = Infinity]. *)
Record BiState : Type := mkBiState {
  forward : Frontier;
  backward : Frontier;
  meeting : option (string * Z)
}.

Definition flipType (t : ConnectionType) : ConnectionType :=
  match t with
  | DIRECT => BACKLINK
  | BACKLINK => DIRECT
  | other => other
  end.

(** [{ ...info, type: flipped }] *)
Definition flipInfo (info : ConnectionInfo) : ConnectionInfo :=
  {| type := flipType (type info); commonTags := commonTags info;
     metadata := metadata info |}.

(** Comparisons against a bound that may be [Infinity]. *)
Definition geBound (d : Z) (m : option (string * Z)) : bool :=
  match m with
  | None => false
  | Some (_, sd) => sd <=? d
  end.

Definition ltBound (d : Z) (m : option (string * Z)) : bool :=
  match m with
  | None => true
  | Some (_, sd) => d <? sd
  end.

Definition minInf (a b : option Z) : option Z :=
  match a, b with
  | None, _ => b
  | _, None => a
  | Some x, Some y => Some (Z.min x y)
  end.

Definition leInf (d : Z) (b : option Z) : bool :=
  match b with
  | None => true
  | Some y => d <=? y
  end.

(** [visited.get(queue[0] || "")?.distance || Infinity] *)
Definition frontDistance (visited : omap VisitInfo) (queue : list string) : option Z :=
  match oget visited (hd "" queue) with
  | None => None
  | Some info => if vdistance info =? 0 then None else Some (vdistance info)
  end.

Section PathFinder.
Variable settings : Settings.
Variable graph : EnhancedGraph.

(** The [for (const [neighbor, connectionInfo] of neighbors.entries())] loop
    of [findShortestPathOriginal] for the entry [cur] just dequeued. *)
Fixpoint visitNeighbors (entries : list (string * ConnectionInfo)) (cur : QueueEntry)
  (queue : list QueueEntry) (visited : sset) : list QueueEntry * sset :=
  match entries with
  | [] => (queue, visited)
  | (neighbor, connectionInfo) :: rest =>
      if shas visited neighbor then visitNeighbors rest cur queue visited
      else
        visitNeighbors rest cur
          (queue ++ [ {| qnode := neighbor;
                         qdistance := qdistance cur + 1;
                         qpath := qpath cur ++ [neighbor];
                         qconnectionTypes := qconnectionTypes cur ++ [connectionInfo] |} ])
          (sadd visited neighbor)
  end.

Fixpoint bfsLoop (fuel : nat) (end_ : string) (queue : list QueueEntry)
  (visited : sset) : result PathResult :=
  match fuel with
  | O => OutOfFuel
  | S fuel' =>
      match queue with
      | [] => Ok noPath
      | cur :: queue' =>
          if maxPathLength settings <=? qdistance cur
          then bfsLoop fuel' end_ queue' visited
          else if String.eqb (qnode cur) end_
          then Ok {| distance := qdistance cur; path := qpath cur;
                     connectionTypes := qconnectionTypes cur |}
          else
            let '(queue'', visited') :=
              visitNeighbors (neighborsOf graph (qnode cur)) cur queue' visited in
            bfsLoop fuel' end_ queue'' visited'
      end
  end.

(** Every target the graph mentions, with repetitions. *)
Definition allTargets : list string := flat_map (fun kv => okeys (snd kv)) graph.

Definition bfsFuel : nat := S (S (length allTargets)).

Definition findShortestPathOriginal (start end_ : string) : result PathResult :=
  bfsLoop bfsFuel end_
    [ {| qnode := start; qdistance := 0; qpath := [start]; qconnectionTypes := [] |} ]
    [start].

(** *** Bidirectional search *)

Definition recordMeeting (other : omap VisitInfo) (neighbor : string) (d : Z)
  (m : option (string * Z)) : option (string * Z) :=
  match oget other neighbor with
  | None => m
  | Some otherInfo =>
      let totalDistance := d + 1 + vdistance otherInfo in
      if ltBound totalDistance m then Some (neighbor, totalDistance) else m
  end.

(** The loop over the neighbors of a node taken from one frontier.  The two
    branches of the source are the same statements with the roles of the two
    frontiers exchanged: [mine] is the frontier being expanded, [other] the
    visited map of the opposite one. *)
Fixpoint expandNeighbors (other : omap VisitInfo) (node : string) (d : Z)
  (entries : list (string * ConnectionInfo)) (mine : Frontier)
  (m : option (string * Z)) : Frontier * option (string * Z) :=
  match entries with
  | [] => (mine, m)
  | (neighbor, connectionInfo) :: rest =>
      if ohas (visited mine) neighbor then expandNeighbors other node d rest mine m
      else
        expandNeighbors other node d rest
          {| visited :=
               oset (visited mine) neighbor
                 {| prev := node; vdistance := d + 1;
                    vconnectionInfo := Some connectionInfo |};
             queue := queue mine ++ [neighbor] |}
          (recordMeeting other neighbor d m)
  end.

(** The incoming connections of [node], each read in the reverse direction. *)
Fixpoint incomingOf (node : string) (g : EnhancedGraph)
  (neighbors : omap ConnectionInfo) : omap ConnectionInfo :=
  match g with
  | [] => neighbors
  | (source, targets) :: rest =>
      match oget targets node with
      | Some origInfo => incomingOf node rest (oset neighbors source (flipInfo origInfo))
      | None => incomingOf node rest neighbors
      end
  end.

(** One level of a search: [levelSize] times [queue.shift()], each followed
    by the expansion of the node taken.  [neighborsFor] gives the neighbors to
    expand: the outgoing connections for the forward search, the incoming ones
    for the backward search.  [visited.get(node)!] is dereferenced without a
    guard. *)
Fixpoint searchLevel (neighborsFor : string -> omap ConnectionInfo)
  (other : omap VisitInfo) (levelSize : nat) (mine : Frontier)
  (m : option (string * Z)) : result (Frontier * option (string * Z)) :=
  match levelSize with
  | O => Ok (mine, m)
  | S n =>
      match queue mine with
      | [] => TypeError
      | node :: queue' =>
          match oget (visited mine) node with
          | None => TypeError
          | Some nodeInfo =>
              let mine1 := {| visited := visited mine; queue := queue' |} in
              if orb (maxPathLength settings <=? vdistance nodeInfo)
                     (geBound (vdistance nodeInfo) m)
              then searchLevel neighborsFor other n mine1 m
              else
                let '(mine2, m2) :=
                  expandNeighbors other node (vdistance nodeInfo)
                    (neighborsFor node) mine1 m in
                searchLevel neighborsFor other n mine2 m2
          end
      end
  end.

Definition forwardLevel (st : BiState) : result BiState :=
  r <- searchLevel (neighborsOf graph) (visited (backward st))
         (length (queue (forward st))) (forward st) (meeting st) ;;
  Ok {| forward := fst r; backward := backward st; meeting := snd r |}.

Definition backwardLevel (st : BiState) : result BiState :=
  r <- searchLevel (fun node => incomingOf node graph []) (visited (forward st))
         (length (queue (backward st))) (backward st) (meeting st) ;;
  Ok {| forward := forward st; backward := fst r; meeting := snd r |}.

Definition shouldBreak (st : BiState) : bool :=
  match meeting st with
  | None => false
  | Some (_, shortestDistance) =>
      leInf shortestDistance
        (minInf (frontDistance (visited (forward st)) (queue (forward st)))
                (frontDistance (visited (backward st)) (queue (backward st))))
  end.

Fixpoint biLoop (fuel : nat) (st : BiState) : result BiState :=
  match fuel with
  | O => OutOfFuel
  | S fuel' =>
      match queue (forward st), queue (backward st) with
      | _ :: _, _ :: _ =>
          st' <- (if (length (queue (forward st)) <=? length (queue (backward st)))%nat
                  then forwardLevel st
                  else backwardLevel st) ;;
          if shouldBreak st' then Ok st' else biLoop fuel' st'
      | _, _ => Ok st
      end
  end.

(** [while (current !== start && forwardVisited.has(current))] with its two
    [unshift]s. *)
Fixpoint forwardHalf (fuel : nat) (start : string) (visited : omap VisitInfo)
  (current : string) (forwardPath : list string)
  (forwardConnectionTypes : list ConnectionInfo)
  : result (list string * list ConnectionInfo) :=
  match fuel with
  | O => OutOfFuel
  | S fuel' =>
      if String.eqb current start then Ok (forwardPath, forwardConnectionTypes)
      else
        match oget visited current with
        | None => Ok (forwardPath, forwardConnectionTypes)
        | Some currentInfo =>
            forwardHalf fuel' start visited (prev currentInfo)
              (current :: forwardPath)
              (match vconnectionInfo currentInfo with
               | Some ci => ci :: forwardConnectionTypes
               | None => forwardConnectionTypes
               end)
        end
  end.

(** [while (current !== end && backwardVisited.has(current))] with its two
    [push]es, both under [if (current !== end)]. *)
Fixpoint backwardHalf (fuel : nat) (end_ : string) (visited : omap VisitInfo)
  (current : string) (backwardPath : list string)
  (backwardConnectionTypes : list ConnectionInfo)
  : result (list string * list ConnectionInfo) :=
  match fuel with
  | O => OutOfFuel
  | S fuel' =>
      if String.eqb current end_ then Ok (backwardPath, backwardConnectionTypes)
      else
        match oget visited current with
        | None => Ok (backwardPath, backwardConnectionTypes)
        | Some currentInfo =>
            let current' := prev currentInfo in
            if String.eqb current' end_
            then backwardHalf fuel' end_ visited current'
                   backwardPath backwardConnectionTypes
            else backwardHalf fuel' end_ visited current'
                   (backwardPath ++ [current'])
                   (match vconnectionInfo currentInfo with
                    | Some ci => backwardConnectionTypes ++ [flipInfo ci]
                    | None => backwardConnectionTypes
                    end)
        end
  end.

Definition rootFrontier (root : string) : Frontier :=
  {| visited :=
       oset [] root {| prev := ""; vdistance := 0; vconnectionInfo := None |};
     queue := [root] |}.

Definition initialBiState (start end_ : string) : BiState :=
  {| forward := rootFrontier start;
     backward := rootFrontier end_;
     meeting := None |}.

Definition biFuel : nat := S (S (S (length allTargets + length graph))).

(** [path.push(...backwardPath.slice(1))] when the backward half starts with
    the meeting node, [path.push(...backwardPath)] otherwise. *)
Definition combinePaths (meetingNode : string) (forwardPath backwardPath : list string)
  : list string :=
  match backwardPath with
  | [] => forwardPath
  | first :: others =>
      if String.eqb first meetingNode then forwardPath ++ others
      else forwardPath ++ backwardPath
  end.

Definition findShortestPathBidirectional (start end_ : string) : result PathResult :=
  st <- biLoop biFuel (initialBiState start end_) ;;
  match meeting st with
  | None => Ok noPath
  | Some (meetingNode, shortestDistance) =>
      fwd <- forwardHalf (S (length (visited (forward st)))) start
               (visited (forward st)) meetingNode [] [] ;;
      bwd <- backwardHalf (S (length (visited (backward st)))) end_
               (visited (backward st)) meetingNode [] [] ;;
      let forwardPath := start :: fst fwd in
      let backwardPath := fst bwd ++ [end_] in
      Ok {| distance := shortestDistance;
            path := combinePaths meetingNode forwardPath backwardPath;
            connectionTypes := snd fwd ++ snd bwd |}
  end.

Definition preferOriginal : bool :=
  match algorithmPreference settings with
  | PrefOriginal => true
  | _ => false
  end.

(** [Object.keys(graph).length < 500] decides the strategy. *)
Definition findShortestPath (start end_ : string) : result PathResult :=
  if String.eqb start end_
  then Ok {| distance := 0; path := [start]; connectionTypes := [] |}
  else if orb (negb (ohas graph start)) (negb (ohas graph end_))
  then Ok noPath
  else if orb (length graph <? 500)%nat preferOriginal
  then findShortestPathOriginal start end_
  else findShortestPathBidirectional start end_.

End PathFinder.

(** *** Alternative paths *)

Fixpoint list_eqb (a b : list string) : bool :=
  match a, b with
  | [], [] => true
  | x :: a', y :: b' => andb (String.eqb x y) (list_eqb a' b')
  | _, _ => false
  end.

Definition isDuplicatePath (paths : list PathResult) (newPath : list string) : bool :=
  existsb (fun existingPath => list_eqb (path existingPath) newPath) paths.

Fixpoint replaceAt {A : Type} (i : nat) (x : A) (l : list A) : list A :=
  match l, i with
  | [], _ => []
  | _ :: rest, O => x :: rest
  | y :: rest, S i' => y :: replaceAt i' x rest
  end.

(** [[array[i], array[j]] = [array[j], array[i]]] for indices in range. *)
Definition swapAt {A : Type} (i j : nat) (l : list A) : list A :=
  match nth_error l i, nth_error l j with
  | Some a, Some b => replaceAt j a (replaceAt i b l)
  | _, _ => l
  end.

(** Fisher-Yates shuffle.  [rnd k] stands for the [k]-th value drawn from
    [Math.random()], already scaled: the index chosen is [rnd k mod (i + 1)].
    [i] runs from [length - 1] down to [1]; the counter of draws is returned. *)
Fixpoint shuffleFrom {A : Type} (rnd : nat -> nat) (i : nat) (k : nat) (l : list A)
  : list A * nat :=
  match i with
  | O => (l, k)
  | S i' => shuffleFrom rnd i' (S k) (swapAt i (Nat.modulo (rnd k) (S i)) l)
  end.

Definition shuffleArray {A : Type} (rnd : nat -> nat) (k : nat) (l : list A)
  : list A * nat :=
  shuffleFrom rnd (length l - 1) k l.

Record DfsState : Type := mkDfsState {
  dvisited : sset;
  dpaths : list PathResult;
  ddraws : nat
}.

Section AlternativePaths.
Variable settings : Settings.
Variable rnd : nat -> nat.

(** [modifiedGraph[node] = new Map(edges)] for every entry. *)
Definition copyGraph (g : EnhancedGraph) : EnhancedGraph :=
  fold_left (fun acc kv => oset acc (fst kv) (snd kv)) g [].

(** The body of the loop over the interior indices of the shortest path. *)
Definition dropEdgeAt (shortestPath : list string) (modifiedGraph : EnhancedGraph)
  (i : nat) : EnhancedGraph :=
  if andb (Nat.eqb (Nat.modulo i 2) 1) (Nat.ltb i (length shortestPath - 2))
  then
    match nth_error shortestPath i, nth_error shortestPath (i + 1) with
    | Some node, Some nextNode =>
        match oget modifiedGraph node with
        | Some edges =>
            if ohas edges nextNode
            then oset modifiedGraph node (odelete edges nextNode)
            else modifiedGraph
        | None => modifiedGraph
        end
    | _, _ => modifiedGraph
    end
  else modifiedGraph.

Definition createAltPathGraph (g : EnhancedGraph) (shortestPath : list string)
  : EnhancedGraph :=
  let modifiedGraph := copyGraph g in
  if (3 <? length shortestPath)%nat
  then fold_left (dropEdgeAt shortestPath)
         (seq 1 (length shortestPath - 2)) modifiedGraph
  else modifiedGraph.

Definition withVisited (st : DfsState) (v : sset) : DfsState :=
  {| dvisited := v; dpaths := dpaths st; ddraws := ddraws st |}.

(** The loop over the shuffled neighbor entries of [findAlternativePaths];
    [recurse] is the recursive call. *)
Fixpoint exploreNeighbors
  (recurse : string -> list string -> list ConnectionInfo -> DfsState -> result DfsState)
  (entries : list (string * ConnectionInfo)) (currentPath : list string)
  (currentConnectionTypes : list ConnectionInfo) (st : DfsState)
  : result DfsState :=
  match entries with
  | [] => Ok st
  | (neighbor, connectionInfo) :: rest =>
      if shas (dvisited st) neighbor
      then exploreNeighbors recurse rest currentPath currentConnectionTypes st
      else
        st' <- recurse neighbor (currentPath ++ [neighbor])
                 (currentConnectionTypes ++ [connectionInfo]) st ;;
        exploreNeighbors recurse rest currentPath currentConnectionTypes st'
  end.

(** The recursive search.  [visited] and [paths] are shared mutable objects
    and the draws of the random source are consumed in call order, so all
    three are threaded through; [currentPath] and [currentConnectionTypes]
    are pushed before and popped after each recursive call, so they are
    passed down by value. *)
Fixpoint findAlternativePaths (fuel : nat) (g : EnhancedGraph)
  (currentNode endNode : string) (currentPath : list string)
  (currentConnectionTypes : list ConnectionInfo) (maxPaths maxLen : Z)
  (st : DfsState) : result DfsState :=
  match fuel with
  | O => OutOfFuel
  | S fuel' =>
      if orb (maxPaths <=? Z.of_nat (length (dpaths st)))
             (maxLen <? Z.of_nat (length currentPath))
      then Ok st
      else if String.eqb currentNode endNode
      then
        if isDuplicatePath (dpaths st) currentPath then Ok st
        else Ok {| dvisited := dvisited st;
                   dpaths := dpaths st ++
                     [ {| distance := Z.of_nat (length currentPath) - 1;
                          path := currentPath;
                          connectionTypes := currentConnectionTypes |} ];
                   ddraws := ddraws st |}
      else
        let st1 := withVisited st (sadd (dvisited st) currentNode) in
        let shuffled := shuffleArray rnd (ddraws st1) (neighborsOf g currentNode) in
        st2 <- exploreNeighbors
                 (fun neighbor p c s =>
                    findAlternativePaths fuel' g neighbor endNode p c
                      maxPaths maxLen s)
                 (fst shuffled) currentPath currentConnectionTypes
                 {| dvisited := dvisited st1; dpaths := dpaths st1;
                    ddraws := snd shuffled |} ;;
        Ok (withVisited st2 (sdelete (dvisited st2) currentNode))
  end.

Definition dfsFuel : nat := S (S (Z.to_nat (maxPathLength settings))).

Definition byPathLength (a b : PathResult) : bool :=
  (length (path a) <=? length (path b))%nat.

Definition findAllPaths (g : EnhancedGraph) (start end_ : string) (maxPaths : Z)
  : result (list PathResult) :=
  shortestResult <- findShortestPath settings g start end_ ;;
  if distance shortestResult =? -1 then Ok []
  else if maxPaths <=? 1 then Ok [shortestResult]
  else
    let modifiedGraph := createAltPathGraph g (path shortestResult) in
    st <- findAlternativePaths dfsFuel modifiedGraph start end_ [start] []
            maxPaths (maxPathLength settings)
            {| dvisited := [start]; dpaths := [shortestResult]; ddraws := O |} ;;
    Ok (stableSort byPathLength (dpaths st)).

End AlternativePaths.

(** ** Centrality engine *)

Local Open Scope float_scope.

Definition numberOfNat (n : nat) : float := PrimFloat.of_uint63 (Uint63.of_Z (Z.of_nat n)).

(** Reading a numeric property: an absent one is [undefined], which every
    arithmetic operation turns into [NaN]. *)
Definition numberAt (m : omap float) (k : string) : float :=
  match oget m k with
  | Some v => v
  | None => nan
  end.

(** [Math.max] over two arguments; [fold_left] from [-Infinity] gives
    [Math.max(...values)]. *)
Definition jsMax (a b : float) : float :=
  if orb (PrimFloat.is_nan a) (PrimFloat.is_nan b) then nan
  else if PrimFloat.ltb a b then b else a.

Definition mathMax (values : list float) : float :=
  fold_left jsMax values neg_infinity.

(** [m[k] += x] *)
Definition addTo (m : omap float) (k : string) (x : float) : omap float :=
  oset m k (numberAt m k + x).

Section PageRank.
Variable graph : EnhancedGraph.
Variable dampingFactor : float.
Variable tolerance : float.

Definition nodes : list string := okeys graph.
Definition nodeCount : float := numberOfNat (length nodes).

(** [prevPageRank[node] = pageRank[node]; pageRank[node] = 0] for every node. *)
Definition savePrevious (pageRank prevPageRank : omap float)
  : omap float * omap float :=
  fold_left
    (fun pp node =>
       (oset (fst pp) node 0, oset (snd pp) node (numberAt (fst pp) node)))
    nodes (pageRank, prevPageRank).

Definition distribute (prevPageRank : omap float) (pageRank : omap float)
  (entry : string * omap ConnectionInfo) : omap float :=
  let '(node, edges) := entry in
  match edges with
  | _ :: _ =>
      let contributionPerNeighbor :=
        numberAt prevPageRank node / numberOfNat (length edges) in
      fold_left
        (fun pr neighbor => addTo pr neighbor (dampingFactor * contributionPerNeighbor))
        (okeys edges) pageRank
  | [] =>
      let contribution := numberAt prevPageRank node / nodeCount in
      fold_left
        (fun pr otherNode => addTo pr otherNode (dampingFactor * contribution))
        nodes pageRank
  end.

Definition addBase (pageRank : omap float) : omap float :=
  let baseValue := (1 - dampingFactor) / nodeCount in
  fold_left (fun pr node => addTo pr node baseValue) nodes pageRank.

Definition totalDiff (pageRank prevPageRank : omap float) : float :=
  fold_left
    (fun diff node => diff + PrimFloat.abs (numberAt pageRank node - numberAt prevPageRank node))
    nodes 0.

(** The iteration loop; [iterations] is the number of rounds left. *)
Fixpoint iteratePageRank (iterations : nat) (pageRank prevPageRank : omap float)
  : omap float :=
  match iterations with
  | O => pageRank
  | S n =>
      let '(pr0, prev) := savePrevious pageRank prevPageRank in
      let pr1 := fold_left (distribute prev) graph pr0 in
      let pr2 := addBase pr1 in
      if PrimFloat.ltb (totalDiff pr2 prev) tolerance then pr2
      else iteratePageRank n pr2 prev
  end.

Definition normalize (pageRank : omap float) : omap float :=
  let maxRank := mathMax (ovalues pageRank) in
  if PrimFloat.ltb 0 maxRank
  then fold_left (fun pr node => oset pr node (numberAt pr node / maxRank))
         nodes pageRank
  else pageRank.

Definition calculatePageRankWith (iterations : nat) : omap float :=
  let initialValue := 1 / nodeCount in
  let initial := fold_left (fun pr node => oset pr node initialValue) nodes [] in
  normalize (iteratePageRank iterations initial initial).

End PageRank.

(** The call [this.calculatePageRank(graph)] of [calculateHubMetrics], with
    the default damping factor, iteration count and tolerance. *)
Definition calculatePageRank (graph : EnhancedGraph) : omap float :=
  calculatePageRankWith graph 0.85 0.0001 50.

(** *** Clustering coefficient *)

(** [[...new Set(list)]]: the first occurrence of each element, in order. *)
Fixpoint dedupe (l : list string) (seen : sset) : list string :=
  match l with
  | [] => []
  | x :: rest => if shas seen x then dedupe rest seen else x :: dedupe rest (x :: seen)
  end.

Definition getNeighbors (g : EnhancedGraph) (node : string) : list string :=
  let outgoing := okeys (neighborsOf g node) in
  let incoming :=
    map fst
      (filter (fun kv => andb (negb (String.eqb (fst kv) node)) (ohas (snd kv) node)) g) in
  dedupe (outgoing ++ incoming) [].

(** [graph[node1]?.has(node2) || graph[node2]?.has(node1)], as a condition. *)
Definition hasConnection (g : EnhancedGraph) (node1 node2 : string) : bool :=
  orb (ohas (neighborsOf g node1) node2) (ohas (neighborsOf g node2) node1).

(** The two nested loops over [i < j]. *)
Fixpoint countConnections (g : EnhancedGraph) (l : list string) : nat :=
  match l with
  | [] => O
  | neighbor1 :: rest =>
      (length (filter (hasConnection g neighbor1) rest) + countConnections g rest)%nat
  end.

(** [Math.round]: the nearest integer, ties towards plus infinity. *)
Definition mathRound (x : float) : float :=
  match Prim2SF x with
  | S754_finite s m e =>
      if (0 <=? e)%Z then x
      else
        let twice := (if s then - (2 * Z.pos m) else 2 * Z.pos m)%Z in
        let q := ((twice + 2 ^ (- e)) / 2 ^ (- e + 1))%Z in
        if (q <? 0)%Z then - PrimFloat.of_uint63 (Uint63.of_Z (- q))
        else if andb s (q =? 0)%Z then - 0
        else PrimFloat.of_uint63 (Uint63.of_Z q)
  | _ => x
  end.

Definition MAX_NEIGHBORS_TO_CHECK : nat := 15.

(** The score of one path node, as the callback of [batch.map] computes it. *)
Definition clusteringOf (g : EnhancedGraph) (node : string) : float :=
  let neighbors := getNeighbors g node in
  if (length neighbors <? 2)%nat then 0
  else
    let possibleConnections :=
      numberOfNat (length neighbors * (length neighbors - 1)) / 2 in
    let neighborsToCheck :=
      if (MAX_NEIGHBORS_TO_CHECK <? length neighbors)%nat
      then firstn MAX_NEIGHBORS_TO_CHECK neighbors else neighbors in
    let counted := numberOfNat (countConnections g neighborsToCheck) in
    let connections :=
      if (MAX_NEIGHBORS_TO_CHECK <? length neighbors)%nat
      then
        let samplingRatio :=
          numberOfNat (length neighborsToCheck) / numberOfNat (length neighbors) in
        mathRound (counted / (samplingRatio * samplingRatio))
      else counted in
    if PrimFloat.ltb 0 possibleConnections then connections / possibleConnections else 0.

Definition CLUSTERING_BATCH_SIZE : nat := 3.

(** The batch loop of [calculateClusteringCoefficient].  The cancellation
    flag is a field that the user interface may set while the procedure is
    suspended between batches; [cancelAnalysisFlag b] is its value when the
    check at the head of batch number [b] reads it. *)
Fixpoint clusteringBatches (fuel : nat) (g : EnhancedGraph)
  (cancelAnalysisFlag : nat -> bool) (batchNo : nat) (rest : list string)
  (res : omap float) : omap float :=
  match fuel with
  | O => res
  | S fuel' =>
      match rest with
      | [] => res
      | _ :: _ =>
          if cancelAnalysisFlag batchNo then res
          else
            clusteringBatches fuel' g cancelAnalysisFlag (S batchNo)
              (skipn CLUSTERING_BATCH_SIZE rest)
              (fold_left (fun r node => oset r node (clusteringOf g node))
                 (firstn CLUSTERING_BATCH_SIZE rest) res)
      end
  end.

Definition calculateClusteringCoefficient (g : EnhancedGraph)
  (cancelAnalysisFlag : nat -> bool) (pathNodes : list string) : omap float :=
  clusteringBatches (length pathNodes) g cancelAnalysisFlag O pathNodes [].

(** *** Degree centrality

    The degrees are counters, so the three records hold integers. *)

Record DegreeCentrality : Type := mkDegreeCentrality {
  inDegree : omap Z;
  outDegree : omap Z;
  totalDegree : omap Z
}.

(** [m[k] || 0] on a record of counters. *)
Definition countAt (m : omap Z) (k : string) : Z :=
  match oget m k with
  | Some v => v
  | None => 0%Z
  end.

(** [inDegree[neighbor] = (inDegree[neighbor] || 0) + 1] for every key of
    [edges]. *)
Definition countIncoming (inDeg : omap Z) (edges : omap ConnectionInfo) : omap Z :=
  fold_left (fun ind neighbor => oset ind neighbor (countAt ind neighbor + 1)%Z)
    (okeys edges) inDeg.

Definition calculateDegreeCentrality (graph : EnhancedGraph) : DegreeCentrality :=
  let initial :=
    fold_left (fun io node => (oset (fst io) node 0%Z, oset (snd io) node 0%Z))
      (okeys graph) ([], []) in
  let counted :=
    fold_left
      (fun io entry =>
         (countIncoming (fst io) (snd entry),
          oset (snd io) (fst entry) (Z.of_nat (length (snd entry)))))
      graph initial in
  let total :=
    fold_left
      (fun tot node =>
         oset tot node (countAt (fst counted) node + countAt (snd counted) node)%Z)
      (okeys graph) [] in
  {| inDegree := fst counted; outDegree := snd counted; totalDegree := total |}.

(** *** Eigenvector centrality *)

(** [m[k] || 0] on a record of numbers: [undefined], [NaN] and both zeros
    give [0]. *)
Definition numberOrZero (m : omap float) (k : string) : float :=
  match oget m k with
  | Some v => if orb (PrimFloat.is_nan v) (PrimFloat.eqb v 0) then 0 else v
  | None => 0
  end.

Section Eigenvector.
Variable graph : EnhancedGraph.
Variable tolerance : float.

(** [nextCentrality[node] = 0] for every node. *)
Definition resetNext (nextCentrality : omap float) : omap float :=
  fold_left (fun nx node => oset nx node 0) (nodes graph) nextCentrality.

(** The inner loop over [edges.keys()] for one entry of the graph. *)
Definition spread (centrality : omap float) (nextCentrality : omap float)
  (entry : string * omap ConnectionInfo) : omap float :=
  fold_left
    (fun nx neighbor =>
       oset nx neighbor (numberOrZero nx neighbor + numberAt centrality (fst entry)))
    (okeys (snd entry)) nextCentrality.

Definition l2norm (nextCentrality : omap float) : float :=
  PrimFloat.sqrt
    (fold_left (fun norm value => norm + value * value) (ovalues nextCentrality) 0).

Definition divideBy (norm : float) (nextCentrality : omap float) : omap float :=
  fold_left (fun nx node => oset nx node (numberAt nx node / norm))
    (nodes graph) nextCentrality.

Definition centralityDiff (nextCentrality centrality : omap float) : float :=
  fold_left
    (fun diff node =>
       diff + PrimFloat.abs (numberAt nextCentrality node - numberAt centrality node))
    (nodes graph) 0.

(** The power iteration; [iterations] is the number of rounds left.  The two
    records are swapped at the end of a round, so the next round reuses the
    old [centrality] as its [nextCentrality]. *)
Fixpoint iterateEigenvector (iterations : nat) (centrality nextCentrality : omap float)
  : omap float :=
  match iterations with
  | O => centrality
  | S n =>
      let next1 := fold_left (spread centrality) graph (resetNext nextCentrality) in
      let norm := l2norm next1 in
      if PrimFloat.ltb norm 1e-10 then centrality
      else
        let next2 := divideBy norm next1 in
        let diff := centralityDiff next2 centrality in
        if PrimFloat.ltb diff tolerance then next2
        else iterateEigenvector n next2 centrality
  end.

Definition calculateEigenvectorCentralityWith (iterations : nat) : omap float :=
  let centrality :=
    fold_left (fun c node => oset c node (1 / nodeCount graph)) (nodes graph) [] in
  iterateEigenvector iterations centrality [].

End Eigenvector.

(** The call [this.calculateEigenvectorCentrality(graph)] of
    [calculateHubMetrics], with the default iteration count and tolerance. *)
Definition calculateEigenvectorCentrality (graph : EnhancedGraph) : omap float :=
  calculateEigenvectorCentralityWith graph 0.0001 50.

(** *** Bridging coefficient

    The hub service has its own [getNeighbors] and [hasConnection]; their
    statements are those of the modal's, so [getNeighbors], [hasConnection]
    and [countConnections] above stand for both. *)

(** The value stored for one node before normalization. *)
Definition bridgingOf (g : EnhancedGraph) (node : string) : float :=
  let neighbors := getNeighbors g node in
  if (length neighbors <=? 1)%nat then 0
  else
    let possibleConnections :=
      numberOfNat (length neighbors * (length neighbors - 1)) / 2 in
    let neighborConnections := numberOfNat (countConnections g neighbors) in
    let clustering :=
      if PrimFloat.ltb 0 possibleConnections
      then neighborConnections / possibleConnections else 0 in
    numberOfNat (length neighbors) * (1 - clustering).

Definition calculateBridgingCoefficient (g : EnhancedGraph) : omap float :=
  let bridgingCoef :=
    fold_left (fun bc node => oset bc node (bridgingOf g node)) (okeys g) [] in
  let maxValue := mathMax (ovalues bridgingCoef) in
  if PrimFloat.ltb 0 maxValue
  then fold_left (fun bc node => oset bc node (numberAt bc node / maxValue))
         (okeys g) bridgingCoef
  else bridgingCoef.

Local Close Scope float_scope.

(** ** Cache manager: serving the graph *)

(** [getGraph].  [now] is the value of [Date.now()] when the cache is
    examined, [builtAt] its value once [buildGraph] has completed.  The
    outcome is the graph returned together with the state of the service. *)
Definition getGraph (files : list TFile) (settings : Settings) (now builtAt : Z)
  (st : ServiceState) : result (EnhancedGraph * ServiceState) :=
  let usable :=
    match cachedGraph st with
    | Some g =>
        if andb (cacheGraphStructure settings) (now - lastCacheTime st <? 60000)
        then Some g else None
    | None => None
    end in
  match usable with
  | Some g => Ok (g, st)
  | None =>
      graph <- buildGraph files settings ;;
      Ok (graph,
          if cacheGraphStructure settings
          then {| cachedGraph := Some graph; lastCacheTime := builtAt |}
          else st)
  end.

(** * Specification vocabulary *)

(** ** Edges and the entry invariant *)

(** The payload stored for the ordered pair [(s, t)], if any. *)
Definition edgeOf (g : EnhancedGraph) (s t : string) : option ConnectionInfo :=
  match oget g s with
  | Some m => oget m t
  | None => None
  end.

Definition hasEdge (g : EnhancedGraph) (s t : string) : Prop := edgeOf g s t <> None.

(** Every edge target has its own entry in the outer mapping (a source has
    one by definition). *)
Definition closedGraph (g : EnhancedGraph) : Prop :=
  forall s t, hasEdge g s t -> ohas g t = true.

(** Executable form of [closedGraph]. *)
Definition closedGraphb (g : EnhancedGraph) : bool :=
  forallb (fun kv => forallb (fun e => ohas g (fst e)) (snd kv)) g.

(** Every document of the vault has an entry in the graph. *)
Definition coversFiles (fs : list TFile) (g : EnhancedGraph) : Prop :=
  forall f, In f fs -> ohas g (fpath f) = true.

(** The graph is closed and every document of [fs] other than [src] has an
    entry. *)
Definition entriesFor (fs : list TFile) (src : string) (g : EnhancedGraph) : Prop :=
  closedGraph g /\
  forall f, In f fs -> fpath f <> src -> ohas g (fpath f) = true.

(** ** Paths and their connection types *)

(** [describes g nodes payloads]: the payloads are, hop by hop, payloads
    that the graph lists for the consecutive pairs of [nodes], read in the
    forward direction. *)
Inductive describes (g : EnhancedGraph) : list string -> list ConnectionInfo -> Prop :=
| describes_end : forall n, describes g [n] []
| describes_hop : forall a b rest c cs,
    In (b, c) (neighborsOf g a) ->
    describes g (b :: rest) cs ->
    describes g (a :: b :: rest) (c :: cs).

(** What holds of every entry of the queue of the single-source search. *)
Definition entryOk (g : EnhancedGraph) (start : string) (e : QueueEntry) : Prop :=
  describes g (qpath e) (qconnectionTypes e) /\
  hd "" (qpath e) = start /\
  last (qpath e) "" = qnode e /\
  qdistance e = Z.of_nat (length (qconnectionTypes e)).

(** Ascending order of path length. *)
Definition shorterOrEqual (a b : PathResult) : Prop :=
  (length (path a) <= length (path b))%nat.

(** ** Neighbor sets *)

(** The neighbor set of a node in the words of the specification: the union
    of its outgoing edge targets and of the nodes with an edge targeting it. *)
Definition outgoingTargets (g : EnhancedGraph) (node : string) : list string :=
  okeys (neighborsOf g node).

Definition incomingSources (g : EnhancedGraph) (node : string) : list string :=
  map fst (filter (fun kv => ohas (snd kv) node) g).

Definition neighborSet (g : EnhancedGraph) (node : string) : list string :=
  nodup string_dec (outgoingTargets g node ++ incomingSources g node).

(** ** Termination measures of the searches *)

(** The number of members of [universe] that a search has not visited yet. *)
Definition unvisitedIn (universe : list string) (has : string -> bool) : nat :=
  length (filter (fun x => negb (has x)) universe).

Definition targetUniverse (g : EnhancedGraph) : list string :=
  nodup string_dec (allTargets g).

Definition sourceUniverse (g : EnhancedGraph) : list string :=
  nodup string_dec (okeys g).

(** What holds of a frontier throughout the bidirectional search: queued
    nodes have been visited, and the [prev] links of the visited map lead
    back to the root along strictly decreasing, non-negative distances that
    stay below the number of visited nodes. *)
Definition frontierOk (root : string) (fr : Frontier) : Prop :=
  (forall n, In n (queue fr) -> ohas (visited fr) n = true) /\
  (forall n info, oget (visited fr) n = Some info ->
     0 <= vdistance info /\
     (Z.to_nat (vdistance info) < length (visited fr))%nat /\
     (n = root \/
      exists pinfo, oget (visited fr) (prev info) = Some pinfo /\
                    vdistance pinfo = vdistance info - 1)).

(** The measure of the outer loop of the bidirectional search. *)
Definition biMeasure (g : EnhancedGraph) (st : BiState) : nat :=
  (length (queue (forward st))
   + unvisitedIn (targetUniverse g) (ohas (visited (forward st)))
   + (length (queue (backward st))
      + unvisitedIn (sourceUniverse g) (ohas (visited (backward st)))))%nat.

(** ** Routes *)

(** [hops g s k t]: [t] is reached from [s] by following [k] edges. *)
Inductive hops (g : EnhancedGraph) (s : string) : nat -> string -> Prop :=
| hops_here : hops g s 0 s
| hops_step : forall k u v,
    hops g s k u -> hasEdge g u v -> hops g s (S k) v.

(** A sequence of nodes in which every node has an edge to the next one. *)
Inductive route (g : EnhancedGraph) : list string -> Prop :=
| route_one : forall n, route g [n]
| route_cons : forall a b rest,
    hasEdge g a b -> route g (b :: rest) -> route g (a :: b :: rest).

(** What holds of the queue and of the visited set of the single-source
    search from [start] towards [end_], with [bound] the maximum path length:
    every queued entry carries the least number of hops to its node, which has
    been visited; the queue is in ascending order of distance, over two
    consecutive distances at most; and a visited node is still queued, or has
    been expanded, or lies [bound] hops or more from [start]. *)
Definition bfsInv (g : EnhancedGraph) (bound : Z) (start end_ : string)
  (queue : list QueueEntry) (visited : sset) : Prop :=
  (forall e, In e queue ->
     (exists k, qdistance e = Z.of_nat k /\ hops g start k (qnode e)) /\
     (forall k, hops g start k (qnode e) -> qdistance e <= Z.of_nat k) /\
     shas visited (qnode e) = true) /\
  (exists d, forall e, In e queue -> d <= qdistance e <= d + 1) /\
  StronglySorted (fun a b => qdistance a <= qdistance b) queue /\
  shas visited start = true /\
  (forall u, shas visited u = true ->
     (exists e, In e queue /\ qnode e = u) \/
     (u <> end_ /\ forall v, hasEdge g u v -> shas visited v = true) \/
     (forall k, hops g start k u -> bound <= Z.of_nat k)).

(** What holds of the visited map of one frontier of the bidirectional
    search: the root stands at distance 0, and every other visited node was
    reached over an edge ([edge p n], with [p] its [prev]) from a visited node
    one step closer to the root. *)
Definition tracedBy (edge : string -> string -> Prop) (root : string)
  (visited : omap VisitInfo) : Prop :=
  forall n info,
    oget visited n = Some info ->
    (n = root /\ vdistance info = 0) \/
    (n <> root /\ edge (prev info) n /\
     exists pinfo,
       oget visited (prev info) = Some pinfo /\
       vdistance info = vdistance pinfo + 1 /\ 0 <= vdistance pinfo).

(** The meeting node, when there is one, has been visited from both sides,
    and the distance recorded with it is the sum of its two distances. *)
Definition meetingOk (mine other : omap VisitInfo) (m : option (string * Z)) : Prop :=
  forall x sd,
    m = Some (x, sd) ->
    exists a b,
      oget mine x = Some a /\ oget other x = Some b /\
      sd = vdistance a + vdistance b.

(** Executable form of [NoDup] on identifiers. *)
Fixpoint distinctb (l : list string) : bool :=
  match l with
  | [] => true
  | x :: rest => andb (negb (existsb (String.eqb x) rest)) (distinctb rest)
  end.

(** ** The hops taken out for the search of alternative paths *)

(** Whether [s -> t] is the hop that leaves the node of index [i] of the
    path [p], for an odd [i] that is not one of the last two indices. *)
Definition removedAt (p : list string) (i : nat) (s t : string) : bool :=
  andb (andb (Nat.eqb (Nat.modulo i 2) 1) (Nat.ltb i (length p - 2)))
    (match nth_error p i, nth_error p (i + 1) with
     | Some node, Some nextNode => andb (String.eqb node s) (String.eqb nextNode t)
     | _, _ => false
     end).

(** Whether [s -> t] is such a hop of a path of more than three nodes. *)
Definition removedHop (p : list string) (s t : string) : bool :=
  andb (3 <? length p)%nat
    (existsb (fun i => removedAt p i s t) (seq 1 (length p - 2))).

(** ** Alternative paths *)

(** What holds of a result that the depth-first search adds: its path is a
    route of [g] from [start] to [end_] that visits no node twice and has at
    most [maxLen] nodes, its payloads describe the path hop by hop, and its
    distance is the number of hops. *)
Definition alternativeOk (g : EnhancedGraph) (start end_ : string) (maxLen : Z)
  (p : PathResult) : Prop :=
  describes g (path p) (connectionTypes p) /\
  hd "" (path p) = start /\
  last (path p) "" = end_ /\
  NoDup (path p) /\
  Z.of_nat (length (path p)) <= maxLen /\
  distance p = Z.of_nat (length (path p)) - 1.

(** What a call of the depth-first search for the node [cur] does to the
    state: the visited set is as before, except that [cur] may have left it;
    results are only added, each of them [good]; and the node sequences of the
    results stay distinct. *)
Definition dfsPost (good : PathResult -> Prop) (cur : string) (st st' : DfsState)
  : Prop :=
  (forall x, x <> cur -> shas (dvisited st') x = shas (dvisited st) x) /\
  (shas (dvisited st') cur = true -> shas (dvisited st) cur = true) /\
  (exists added, dpaths st' = dpaths st ++ added /\ Forall good added) /\
  (NoDup (map path (dpaths st)) -> NoDup (map path (dpaths st'))).

(** ** Sums of counters *)

Definition sumZ (l : list Z) : Z := fold_right Z.add 0 l.

(** ** Where an edge comes from *)

(** What the per-document pass for [file] writes for the target [t]: the
    trace of a wiki link or of an embedded link whose text resolves to the
    document [t], or of a tag shared with the document [t]. *)
Inductive forwardOrigin (files : list TFile) (settings : Settings) (file : TFile)
  (t : string) (info : ConnectionInfo) : Prop :=
| origin_link : forall capture linked,
    In capture (wikiLinkMatches file) ->
    linkTextOf capture <> "" ->
    findNoteByName files (linkTextOf capture) = Some linked ->
    t = fpath linked ->
    info = linkInfo DIRECT linked ->
    forwardOrigin files settings file t info
| origin_embedded : forall capture linked,
    includeEmbeddedLinks settings = true ->
    In capture (embeddedLinkMatches file) ->
    linkTextOf capture <> "" ->
    findNoteByName files (linkTextOf capture) = Some linked ->
    t = fpath linked ->
    info = linkInfo EMBEDDED linked ->
    forwardOrigin files settings file t info
| origin_tag : forall other,
    includeTagsInAnalysis settings = true ->
    In other files ->
    fpath other <> fpath file ->
    t = fpath other ->
    commonTagsWith (tagsOf file) (tagsOf other) <> [] ->
    info = tagInfo other (commonTagsWith (tagsOf file) (tagsOf other)) ->
    forwardOrigin files settings file t info.

(** The targets of the tag edges that the pass for [file] writes. *)
Definition tagTargets (files : list TFile) (file : TFile) : list string :=
  map (fun e => fpath (fst (snd e)))
    (firstn MAX_TAG_MATCHES (sortedTagMatches file files)).

(** The edges while the backlink pass runs over [base]: the edges of [base]
    and, where [base] has an edge one way only, its reverse. *)
Definition backlinkedFrom (files : list TFile) (base g : EnhancedGraph) : Prop :=
  (forall u v ci, edgeOf base u v = Some ci -> edgeOf g u v = Some ci) /\
  (forall u v ci, edgeOf g u v = Some ci ->
     edgeOf base u v = Some ci \/
     (edgeOf base u v = None /\ hasEdge base v u /\
      exists sourceFile,
        getAbstractFileByPath files v = Some sourceFile /\
        ci = backlinkInfo sourceFile)).

(** ** Link texts *)

(** Whether the character [c] occurs in [s]. *)
Fixpoint occurs (c : ascii) (s : string) : bool :=
  match s with
  | EmptyString => false
  | String c' rest => orb (Ascii.eqb c' c) (occurs c rest)
  end.

(** * Sample settings, graphs and vaults *)

(** [DEFAULT_SETTINGS] of the plugin. *)
Definition DEFAULT_SETTINGS : Settings :=
  {| cacheGraphStructure := true;
     parallelProcessing := true;
     includeBacklinks := true;
     includeEmbeddedLinks := true;
     includeTagsInAnalysis := true;
     maxPathLength := 10;
     algorithmPreference := PrefAuto |}.

Definition withPreference (s : Settings) (p : AlgorithmPreference) : Settings :=
  {| cacheGraphStructure := cacheGraphStructure s;
     parallelProcessing := parallelProcessing s;
     includeBacklinks := includeBacklinks s;
     includeEmbeddedLinks := includeEmbeddedLinks s;
     includeTagsInAnalysis := includeTagsInAnalysis s;
     maxPathLength := maxPathLength s;
     algorithmPreference := p |}.

Definition direct : ConnectionInfo :=
  {| type := DIRECT; commonTags := None; metadata := None |}.

(** The node identifiers n0, n1, ... *)
Definition nodeName (i : nat) : string :=
  String "n" (NilEmpty.string_of_uint (Nat.to_uint i)).

(** [count] nodes n<from>, n<from+1>, ... without any connection. *)
Definition isolatedNodes (from count : nat) : EnhancedGraph :=
  map (fun i => (nodeName i, [])) (seq from count).

(** A -> B1 -> C and A -> B2. *)
Definition diamond : EnhancedGraph :=
  [ ("A", [("B1", direct); ("B2", direct)]);
    ("B1", [("C", direct)]);
    ("B2", []);
    ("C", []) ].

(** The same connections inside a graph of 500 nodes. *)
Definition largeDiamond : EnhancedGraph := diamond ++ isolatedNodes 0 496.

(** n0 -> n1 -> ... -> n10 inside a graph of [count] nodes. *)
Definition chain (count : nat) : EnhancedGraph :=
  map (fun i => (nodeName i,
                 if (i <? 10)%nat then [(nodeName (S i), direct)] else []))
      (seq 0 count).

(** A triangle A, B, C and an isolated node Z. *)
Definition triangleAndZ : EnhancedGraph :=
  [ ("A", [("B", direct); ("C", direct)]);
    ("B", [("C", direct)]);
    ("C", []);
    ("Z", []) ].

(** A readable note without embedded links and without tags. *)
Definition plainFile (p b : string) (links : list string) : TFile :=
  {| fpath := p; basename := b; readable := true;
     wikiLinkMatches := links; embeddedLinkMatches := []; cacheTags := [] |}.

(** A vault of two notes in which A links to B, and the same vault after the
    link has been removed from A. *)
Definition noteB : TFile := plainFile "B.md" "B" [].
Definition noteA_linked : TFile := plainFile "A.md" "A" ["B"].
Definition noteA_unlinked : TFile := plainFile "A.md" "A" [].
Definition vaultBefore : list TFile := [noteA_linked; noteB].
Definition vaultAfter : list TFile := [noteA_unlinked; noteB].

(** The graph [buildGraph] returns for [vaultBefore] under the default
    settings (see [buildGraph_vaultBefore]). *)
Definition graphBefore : EnhancedGraph :=
  [ ("A.md", [("B.md", linkInfo DIRECT noteB)]);
    ("B.md", [("A.md", backlinkInfo noteA_linked)]) ].

(** A vault that gained the note X, to which A now links, while the cached
    graph was built when A was the only note. *)
Definition noteX : TFile := plainFile "X.md" "X" [].
Definition noteA_toX : TFile := plainFile "A.md" "A" ["X"].
Definition vaultWithX : list TFile := [noteA_toX; noteX].
Definition graphOnlyA : EnhancedGraph := [("A.md", [])].
Definition graphDangling : EnhancedGraph :=
  [("A.md", [("X.md", linkInfo DIRECT noteX)])].

(** The scenarios of the specification: the vault A -> B -> C and the vault
    A -> B, C -> D, with and without backlink inference. *)
Definition withBacklinks (s : Settings) (b : bool) : Settings :=
  {| cacheGraphStructure := cacheGraphStructure s;
     parallelProcessing := parallelProcessing s;
     includeBacklinks := b;
     includeEmbeddedLinks := includeEmbeddedLinks s;
     includeTagsInAnalysis := includeTagsInAnalysis s;
     maxPathLength := maxPathLength s;
     algorithmPreference := algorithmPreference s |}.

Definition vaultABC : list TFile :=
  [plainFile "A.md" "A" ["B"]; plainFile "B.md" "B" ["C"]; plainFile "C.md" "C" []].

Definition vaultABCD : list TFile :=
  [plainFile "A.md" "A" ["B"]; plainFile "B.md" "B" [];
   plainFile "C.md" "C" ["D"]; plainFile "D.md" "D" []].

(** Two routes from A to D: A -> B -> D and A -> C -> E -> D. *)
Definition twoRoutes : EnhancedGraph :=
  [ ("A", [("B", direct); ("C", direct)]);
    ("B", [("D", direct)]);
    ("C", [("E", direct)]);
    ("D", []);
    ("E", [("D", direct)]) ].

(** The two results of [findAllPaths] for A and D in [twoRoutes]. *)
Definition routeABD : PathResult :=
  {| distance := 2; path := ["A"; "B"; "D"]; connectionTypes := [direct; direct] |}.

Definition routeACED : PathResult :=
  {| distance := 3; path := ["A"; "C"; "E"; "D"];
     connectionTypes := [direct; direct; direct] |}.

(** A vault of two notes without links that share the tag x. *)
Definition taggedNote (p b : string) (noteTags : list string) : TFile :=
  {| fpath := p; basename := b; readable := true;
     wikiLinkMatches := []; embeddedLinkMatches := []; cacheTags := noteTags |}.

Definition taggedVault : list TFile :=
  [taggedNote "A.md" "A" ["#x"]; taggedNote "B.md" "B" ["#x"; "#y"]].

(** The default settings with documents processed one small batch after
    the other. *)
Definition sequentialSettings : Settings :=
  {| cacheGraphStructure := true;
     parallelProcessing := false;
     includeBacklinks := true;
     includeEmbeddedLinks := true;
     includeTagsInAnalysis := true;
     maxPathLength := 10;
     algorithmPreference := PrefAuto |}.

(** * Properties *)

(** ** Ordered maps *)

Section OrderedMapFacts.
Context {V : Type}.
Implicit Types (m : omap V) (k : string) (v : V).

Lemma oget_oset_eq m k v : oget (oset m k v) k = Some v.
Proof.
  induction m as [|[k' v'] m IH]; simpl.
  - now rewrite String.eqb_refl.
  - destruct (String.eqb k' k) eqn:E; simpl; rewrite E; auto.
Qed.

Lemma oget_oset_ne m k k' v : k <> k' -> oget (oset m k v) k' = oget m k'.
Proof.
  intros Hne. induction m as [|[k0 v0] m IH]; simpl.
  - destruct (String.eqb k k') eqn:E; auto.
    apply String.eqb_eq in E. contradiction.
  - destruct (String.eqb k0 k) eqn:E; simpl.
    + apply String.eqb_eq in E. subst k0.
      destruct (String.eqb k k') eqn:E'; auto.
      apply String.eqb_eq in E'. contradiction.
    + now rewrite IH.
Qed.

Lemma oget_oset m k k' v :
  oget (oset m k v) k' = if String.eqb k k' then Some v else oget m k'.
Proof.
  destruct (String.eqb k k') eqn:E.
  - apply String.eqb_eq in E. subst. apply oget_oset_eq.
  - apply String.eqb_neq in E. now apply oget_oset_ne.
Qed.

Lemma ohas_oset m k k' v :
  ohas (oset m k v) k' = orb (String.eqb k k') (ohas m k').
Proof.
  unfold ohas. rewrite oget_oset. now destruct (String.eqb k k').
Qed.

Lemma oset_absent m k v : oget m k = None -> oset m k v = m ++ [(k, v)].
Proof.
  induction m as [|[k' v'] m IH]; simpl; intros H; auto.
  destruct (String.eqb k' k); [discriminate|]. now rewrite IH.
Qed.

Lemma okeys_oset_present m k v :
  ohas m k = true -> okeys (oset m k v) = okeys m.
Proof.
  unfold ohas. induction m as [|[k' v'] m IH]; simpl; intros H; [discriminate|].
  destruct (String.eqb k' k) eqn:E; simpl; auto.
  now rewrite IH.
Qed.

Lemma oget_odelete_eq m k : oget (odelete m k) k = None.
Proof.
  unfold odelete. induction m as [|[k' v'] m IH]; simpl; auto.
  destruct (String.eqb k' k) eqn:E; simpl; auto. now rewrite E.
Qed.

Lemma oget_odelete_ne m k k' : k <> k' -> oget (odelete m k) k' = oget m k'.
Proof.
  intros Hne. unfold odelete. induction m as [|[k0 v0] m IH]; simpl; auto.
  destruct (String.eqb k0 k) eqn:E; simpl.
  - apply String.eqb_eq in E. subst k0.
    destruct (String.eqb k k') eqn:E'; auto.
    apply String.eqb_eq in E'. contradiction.
  - now rewrite IH.
Qed.

Lemma oget_In m k v : oget m k = Some v -> In (k, v) m.
Proof.
  induction m as [|[k' v'] m IH]; simpl; [discriminate|].
  destruct (String.eqb k' k) eqn:E; intros H.
  - apply String.eqb_eq in E. inversion H. subst. now left.
  - right. auto.
Qed.

Lemma ohas_In_keys m k : ohas m k = true <-> In k (okeys m).
Proof.
  unfold ohas, okeys. induction m as [|[k' v'] m IH]; simpl.
  - split; [discriminate|tauto].
  - destruct (String.eqb k' k) eqn:E.
    + apply String.eqb_eq in E. subst. tauto.
    + apply String.eqb_neq in E. rewrite IH. split; [tauto|].
      intros [H|H]; [contradiction|auto].
Qed.

End OrderedMapFacts.

Lemma shas_In (s : sset) (x : string) : shas s x = true <-> In x s.
Proof.
  unfold shas. rewrite existsb_exists. split.
  - intros [y [Hy E]]. apply String.eqb_eq in E. now subst.
  - intros H. exists x. split; auto. apply String.eqb_refl.
Qed.

Lemma shas_sadd (s : sset) (x y : string) :
  shas (sadd s x) y = orb (String.eqb x y) (shas s y).
Proof.
  unfold sadd. destruct (shas s x) eqn:E.
  - destruct (String.eqb x y) eqn:E'; auto.
    apply String.eqb_eq in E'. now subst.
  - unfold shas. rewrite existsb_app. simpl.
    rewrite orb_false_r, (String.eqb_sym y x). apply orb_comm.
Qed.

(** ** The scenarios of the specification *)

Lemma scenario_direct_path :
  exists g r,
    buildGraph vaultABC (withBacklinks DEFAULT_SETTINGS false) = Ok g /\
    findShortestPath DEFAULT_SETTINGS g "A.md" "C.md" = Ok r /\
    distance r = 2 /\ path r = ["A.md"; "B.md"; "C.md"] /\
    map type (connectionTypes r) = [DIRECT; DIRECT].
Proof.
  eexists. eexists. split; [vm_compute; reflexivity|].
  split; [vm_compute; reflexivity|]. repeat split.
Qed.

Lemma scenario_backlink_path :
  exists g r,
    buildGraph vaultABC DEFAULT_SETTINGS = Ok g /\
    findShortestPath DEFAULT_SETTINGS g "C.md" "A.md" = Ok r /\
    distance r = 2 /\ path r = ["C.md"; "B.md"; "A.md"] /\
    map type (connectionTypes r) = [BACKLINK; BACKLINK].
Proof.
  eexists. eexists. split; [vm_compute; reflexivity|].
  split; [vm_compute; reflexivity|]. repeat split.
Qed.

Lemma scenario_disconnected :
  exists g,
    buildGraph vaultABCD (withBacklinks DEFAULT_SETTINGS false) = Ok g /\
    findShortestPath DEFAULT_SETTINGS g "A.md" "D.md" = Ok noPath.
Proof. eexists. split; vm_compute; reflexivity. Qed.

Lemma scenario_same_endpoint (settings : Settings) (g : EnhancedGraph) (a : string) :
  findShortestPath settings g a a
  = Ok {| distance := 0; path := [a]; connectionTypes := [] |}.
Proof. unfold findShortestPath. now rewrite String.eqb_refl. Qed.

(** ** Shortest path: endpoints without an entry (C5) *)

(** C5, as stated, fails: when start and end are the same identifier the
    answer is distance 0 with the one-node path, whether or not that
    identifier has an entry in the graph. *)
Lemma findShortestPath_absent_same_endpoint :
  ohas (@nil (string * omap ConnectionInfo)) "A" = false /\
  findShortestPath DEFAULT_SETTINGS [] "A" "A"
    = Ok {| distance := 0; path := ["A"]; connectionTypes := [] |} /\
  findShortestPath DEFAULT_SETTINGS [] "A" "A" <> Ok noPath.
Proof. repeat split. discriminate. Qed.

(** C5, amended: for distinct start and end identifiers of which at least
    one has no entry in the graph, [findShortestPath] returns distance -1
    with empty path and empty connectionTypes. *)
Theorem findShortestPath_absent_endpoint :
  forall (settings : Settings) (g : EnhancedGraph) (start end_ : string),
    start <> end_ ->
    ohas g start = false \/ ohas g end_ = false ->
    findShortestPath settings g start end_
      = Ok {| distance := -1; path := []; connectionTypes := [] |}.
Proof.
  intros settings g start end_ Hne Habs. unfold findShortestPath.
  apply String.eqb_neq in Hne. rewrite Hne.
  destruct Habs as [H|H]; rewrite H; simpl; auto.
  now rewrite orb_true_r.
Qed.

Lemma findShortestPath_absent_endpoint_witness :
  findShortestPath DEFAULT_SETTINGS diamond "A" "Z"
    = Ok {| distance := -1; path := []; connectionTypes := [] |}.
Proof.
  apply findShortestPath_absent_endpoint.
  - discriminate.
  - right. reflexivity.
Defined.

(** ** What a per-document pass can touch *)

Lemma setEdge_frame g src tgt info g' node :
  setEdge g src tgt info = Ok g' -> node <> src -> oget g' node = oget g node.
Proof.
  unfold setEdge. destruct (oget g src); [|discriminate].
  intros H Hne. inversion H. apply oget_oset_ne. congruence.
Qed.

Lemma setEdge_keys g src tgt info g' :
  setEdge g src tgt info = Ok g' -> okeys g' = okeys g.
Proof.
  unfold setEdge. destruct (oget g src) eqn:E; [|discriminate].
  intros H. inversion H. apply okeys_oset_present. unfold ohas. now rewrite E.
Qed.

Lemma addLinks_frame files ty src captures g node :
  node <> src -> oget (fst (addLinks files ty src captures g)) node = oget g node.
Proof.
  intros Hne. revert g. induction captures as [|c rest IH]; intros g; simpl; auto.
  destruct (isEmptyString (linkTextOf c)); auto.
  destruct (findNoteByName files (linkTextOf c)); auto.
  destruct (setEdge g src (fpath t) (linkInfo ty t)) eqn:E; simpl; auto.
  rewrite IH. eapply setEdge_frame; eauto.
Qed.

Lemma addLinks_keys files ty src captures g :
  okeys (fst (addLinks files ty src captures g)) = okeys g.
Proof.
  revert g. induction captures as [|c rest IH]; intros g; simpl; auto.
  destruct (isEmptyString (linkTextOf c)); auto.
  destruct (findNoteByName files (linkTextOf c)); auto.
  destruct (setEdge g src (fpath t) (linkInfo ty t)) eqn:E; simpl; auto.
  rewrite IH. eapply setEdge_keys; eauto.
Qed.

Lemma addTagEdges_frame src matches g node :
  node <> src -> oget (fst (addTagEdges src matches g)) node = oget g node.
Proof.
  intros Hne. revert g.
  induction matches as [|[k [other common]] rest IH]; intros g; simpl; auto.
  destruct (setEdge g src (fpath other) (tagInfo other common)) eqn:E; simpl; auto.
  rewrite IH. eapply setEdge_frame; eauto.
Qed.

Lemma addTagEdges_keys src matches g :
  okeys (fst (addTagEdges src matches g)) = okeys g.
Proof.
  revert g.
  induction matches as [|[k [other common]] rest IH]; intros g; simpl; auto.
  destruct (setEdge g src (fpath other) (tagInfo other common)) eqn:E; simpl; auto.
  rewrite IH. eapply setEdge_keys; eauto.
Qed.

(** Case analysis on the stages of [processFile]: the result is the graph
    left by one of its three loops, each started from the result of the one
    before. *)
Lemma processFile_stages files settings allFiles g file (P : EnhancedGraph -> Prop) :
  P g ->
  (forall ty captures g0, P g0 ->
     P (fst (addLinks files ty (fpath file) captures g0))) ->
  (forall g0, P g0 ->
     P (fst (addTagEdges (fpath file)
               (firstn MAX_TAG_MATCHES (sortedTagMatches file allFiles)) g0))) ->
  P (processFile files settings allFiles g file).
Proof.
  intros Hg Hlinks Htags. unfold processFile.
  destruct (readable file); simpl; auto.
  pose proof (Hlinks DIRECT (wikiLinkMatches file) g Hg) as H1.
  destruct (addLinks files DIRECT (fpath file) (wikiLinkMatches file) g)
    as [g1 threw1]. simpl in H1.
  destruct threw1; auto.
  assert (H2 : P (fst (if includeEmbeddedLinks settings
                       then addLinks files EMBEDDED (fpath file)
                              (embeddedLinkMatches file) g1
                       else (g1, false)))).
  { destruct (includeEmbeddedLinks settings); simpl; auto. }
  destruct (if includeEmbeddedLinks settings
            then addLinks files EMBEDDED (fpath file) (embeddedLinkMatches file) g1
            else (g1, false)) as [g2 threw2]. simpl in H2.
  destruct threw2; auto.
  destruct (andb _ _); auto.
Qed.

Lemma processFile_frame files settings allFiles g file node :
  node <> fpath file ->
  oget (processFile files settings allFiles g file) node = oget g node.
Proof.
  intros Hne.
  apply (processFile_stages files settings allFiles g file
           (fun g' => oget g' node = oget g node)); auto.
  - intros ty captures g0 H0. now rewrite addLinks_frame.
  - intros g0 H0. now rewrite addTagEdges_frame.
Qed.

Lemma processFile_keys files settings allFiles g file :
  okeys (processFile files settings allFiles g file) = okeys g.
Proof.
  apply (processFile_stages files settings allFiles g file
           (fun g' => okeys g' = okeys g)); auto.
  - intros ty captures g0 H0. now rewrite addLinks_keys.
  - intros g0 H0. now rewrite addTagEdges_keys.
Qed.

(** ** The batch loops visit every document *)

Lemma BATCH_SIZE_positive settings : (1 <= BATCH_SIZE settings)%nat.
Proof. unfold BATCH_SIZE. destruct (parallelProcessing settings); lia. Qed.

(** The batch loop of [buildGraph] is the per-document pass applied to every
    document in enumeration order. *)
Lemma processBatches_all files settings fuel allFiles rest g :
  (length rest <= fuel)%nat ->
  processBatches files settings fuel allFiles rest g
  = fold_left (processFile files settings allFiles) rest g.
Proof.
  revert rest g. induction fuel as [|fuel IH]; intros rest g Hlen.
  - destruct rest; [reflexivity|simpl in Hlen; lia].
  - destruct rest as [|f rest']; [reflexivity|].
    cbn [processBatches].
    rewrite IH.
    + rewrite <- fold_left_app. now rewrite firstn_skipn.
    + rewrite length_skipn. pose proof (BATCH_SIZE_positive settings).
      cbn [length] in *. lia.
Qed.

Lemma buildForward_sequential files settings :
  buildForward files settings
  = fold_left (processFile files settings files) files (initGraph files).
Proof. unfold buildForward. now apply processBatches_all. Qed.

(** ** Incremental update on modify: frame (C10) *)

(** C10: on a cached graph, [updateGraphCache(document, 'modify')] leaves
    the set of entries and the adjacency mapping of every node other than the
    modified document exactly as they were. *)
Theorem updateGraphCache_modify_frame :
  forall (files : list TFile) (settings : Settings) (now : Z)
         (st : ServiceState) (g : EnhancedGraph) (changedFile : TFile),
    cachedGraph st = Some g ->
    exists g',
      cachedGraph (updateGraphCache files settings now st changedFile Modify)
        = Some g' /\
      okeys g' = okeys g /\
      forall node, node <> fpath changedFile -> oget g' node = oget g node.
Proof.
  intros files settings now st g changedFile Hc. unfold updateGraphCache.
  destruct (cacheGraphStructure settings); simpl.
  - rewrite Hc. eexists. split; [reflexivity|]. split.
    + apply processFile_keys.
    + intros node Hne. now apply processFile_frame.
  - exists g. auto.
Qed.

Lemma updateGraphCache_modify_frame_witness :
  exists g',
    cachedGraph (updateGraphCache vaultAfter DEFAULT_SETTINGS 1
                   {| cachedGraph := Some graphBefore; lastCacheTime := 0 |}
                   noteA_unlinked Modify) = Some g' /\
    okeys g' = okeys graphBefore /\
    forall node, node <> fpath noteA_unlinked -> oget g' node = oget graphBefore node.
Proof.
  apply (updateGraphCache_modify_frame vaultAfter DEFAULT_SETTINGS 1
           {| cachedGraph := Some graphBefore; lastCacheTime := 0 |}
           graphBefore noteA_unlinked).
  reflexivity.
Defined.

(** ** Incremental update on modify: stale edges (C3) *)

Lemma buildGraph_vaultBefore :
  buildGraph vaultBefore DEFAULT_SETTINGS = Ok graphBefore.
Proof. vm_compute. reflexivity. Qed.

Lemma hasEdge_setEdge_keeps g src tgt info g' s t :
  setEdge g src tgt info = Ok g' -> hasEdge g s t -> hasEdge g' s t.
Proof.
  unfold setEdge. destruct (oget g src) as [m|] eqn:E; [|discriminate].
  intros H; inversion H; subst; clear H. unfold hasEdge, edgeOf.
  rewrite oget_oset. destruct (String.eqb src s) eqn:Es; auto.
  apply String.eqb_eq in Es. subst s. rewrite E, oget_oset.
  destruct (String.eqb tgt t); [discriminate|auto].
Qed.

Lemma addLinks_keeps_edges files ty src captures g s t :
  hasEdge g s t -> hasEdge (fst (addLinks files ty src captures g)) s t.
Proof.
  revert g. induction captures as [|c rest IH]; intros g Hg; simpl; auto.
  destruct (isEmptyString (linkTextOf c)); auto.
  destruct (findNoteByName files (linkTextOf c)) as [linked|]; auto.
  destruct (setEdge g src (fpath linked) (linkInfo ty linked)) eqn:E; simpl; auto.
  apply IH. eapply hasEdge_setEdge_keeps; eauto.
Qed.

Lemma addTagEdges_keeps_edges src matches g s t :
  hasEdge g s t -> hasEdge (fst (addTagEdges src matches g)) s t.
Proof.
  revert g. induction matches as [|[k [other common]] rest IH]; intros g Hg;
    simpl; auto.
  destruct (setEdge g src (fpath other) (tagInfo other common)) eqn:E; simpl; auto.
  apply IH. eapply hasEdge_setEdge_keeps; eauto.
Qed.

(** The per-document pass only ever adds or overwrites edges: whatever edge
    the graph had, it still has. *)
Lemma processFile_keeps_edges files settings allFiles g file s t :
  hasEdge g s t -> hasEdge (processFile files settings allFiles g file) s t.
Proof.
  intros H.
  apply (processFile_stages files settings allFiles g file
           (fun g' => hasEdge g' s t)); auto.
  - intros ty captures g0 H0. now apply addLinks_keeps_edges.
  - intros g0 H0. now apply addTagEdges_keeps_edges.
Qed.

(** C3 at a failing input: the cache is the graph built while A linked to B;
    the link is then removed from A.  Re-running the extraction for A on an
    empty entry discovers no edge, yet after
    [updateGraphCache(A, 'modify')] the entry of A still holds the edge to B:
    the update only adds to the existing mapping. *)
Theorem updateGraphCache_modify_keeps_stale_edge :
  neighborsOf
    (processFile vaultAfter DEFAULT_SETTINGS vaultAfter [("A.md", [])] noteA_unlinked)
    "A.md" = [] /\
  cachedGraph (updateGraphCache vaultAfter DEFAULT_SETTINGS 1
                 {| cachedGraph := Some graphBefore; lastCacheTime := 0 |}
                 noteA_unlinked Modify) = Some graphBefore /\
  edgeOf graphBefore "A.md" "B.md" = Some (linkInfo DIRECT noteB).
Proof. vm_compute. repeat split. Qed.

(** ** Connection types of the single-source search *)

Lemma describes_length g nodes payloads :
  describes g nodes payloads -> length nodes = S (length payloads).
Proof. induction 1; simpl; auto. Qed.

Lemma describes_snoc g nodes payloads neighbor c :
  describes g nodes payloads ->
  In (neighbor, c) (neighborsOf g (last nodes "")) ->
  describes g (nodes ++ [neighbor]) (payloads ++ [c]).
Proof.
  induction 1 as [n|a b rest c0 cs Hin Hd IH]; intros Hlast.
  - simpl in *. constructor; auto. constructor.
  - change (last (a :: b :: rest) "") with (last (b :: rest) "") in Hlast.
    simpl. constructor; auto.
Qed.

Lemma last_snoc (l : list string) (x d : string) : last (l ++ [x]) d = x.
Proof.
  induction l as [|y l IH]; simpl; auto.
  destruct (l ++ [x]) eqn:E; auto. destruct l; discriminate.
Qed.

Lemma hd_snoc (l : list string) (x d : string) :
  l <> [] -> hd d (l ++ [x]) = hd d l.
Proof. destruct l; simpl; congruence. Qed.

Lemma visitNeighbors_entryOk g start entries cur q v :
  entryOk g start cur ->
  (forall e, In e entries -> In e (neighborsOf g (qnode cur))) ->
  Forall (entryOk g start) q ->
  Forall (entryOk g start) (fst (visitNeighbors entries cur q v)).
Proof.
  intros Hcur. revert q v. induction entries as [|[neighbor ci] rest IH];
    intros q v Hin Hq; simpl; auto.
  assert (Hrest : forall e, In e rest -> In e (neighborsOf g (qnode cur)))
    by (intros e He; apply Hin; now right).
  destruct (shas v neighbor); [now apply IH|].
  apply IH; auto. apply Forall_app. split; auto.
  constructor; [|constructor].
  destruct Hcur as [Hd [Hhd [Hlast Hdist]]]. unfold entryOk. simpl.
  split; [|split; [|split]].
  - apply describes_snoc; auto. rewrite Hlast. apply Hin. now left.
  - rewrite hd_snoc; auto. intros E. rewrite E in Hd. inversion Hd.
  - apply last_snoc.
  - rewrite length_app. simpl. lia.
Qed.

Lemma bfsLoop_entryOk settings g start fuel end_ q v r :
  Forall (entryOk g start) q ->
  bfsLoop settings g fuel end_ q v = Ok r ->
  r = noPath \/
  (describes g (path r) (connectionTypes r) /\
   hd "" (path r) = start /\ last (path r) "" = end_ /\
   distance r = Z.of_nat (length (connectionTypes r))).
Proof.
  revert q v. induction fuel as [|fuel IH]; intros q v Hq Hrun; [discriminate|].
  simpl in Hrun. destruct q as [|cur q']; [inversion Hrun; auto|].
  inversion Hq as [|? ? Hcur Hq']. subst.
  destruct (maxPathLength settings <=? qdistance cur); [eapply IH; eauto|].
  destruct (String.eqb (qnode cur) end_) eqn:E.
  - inversion Hrun. subst r. simpl. right. apply String.eqb_eq in E.
    destruct Hcur as [Hd [Hhd [Hlast Hdist]]]. repeat split; auto. congruence.
  - pose proof (visitNeighbors_entryOk g start (neighborsOf g (qnode cur)) cur q' v
                  Hcur (fun e He => He) Hq') as Hq''.
    destruct (visitNeighbors (neighborsOf g (qnode cur)) cur q' v) as [q'' v'].
    eapply IH; eauto.
Qed.

(** The single-source strategy does what C1 asks: whenever it finds a route,
    the route runs from start to end, [connectionTypes] has one payload per
    hop, each a payload the graph lists for that hop, and the distance is the
    number of hops. *)
Lemma findShortestPathOriginal_connectionTypes settings g start end_ r :
  findShortestPathOriginal settings g start end_ = Ok r ->
  0 <= distance r ->
  describes g (path r) (connectionTypes r) /\
  length (connectionTypes r) = (length (path r) - 1)%nat /\
  hd "" (path r) = start /\ last (path r) "" = end_ /\
  distance r = Z.of_nat (length (connectionTypes r)).
Proof.
  intros Hrun Hd. unfold findShortestPathOriginal in Hrun.
  apply (bfsLoop_entryOk settings g start) in Hrun.
  - destruct Hrun as [->|[H1 [H2 [H3 H4]]]]; [simpl in Hd; lia|].
    repeat split; auto. apply describes_length in H1. lia.
  - constructor; [|constructor]. unfold entryOk. simpl.
    repeat split; auto. constructor.
Qed.

(** ** Connection types of the bidirectional search (C1) *)

(** C1 at a failing input: a vault of 500 documents, so that
    [findShortestPath] takes the bidirectional strategy, with A -> B1 -> C
    and A -> B2.  The route found has three nodes but a single connection
    payload: the payload of the hop that reaches the end node from the
    backward half is never recorded. *)
Theorem findShortestPath_bidirectional_drops_last_hop :
  length largeDiamond = 500%nat /\
  findShortestPath DEFAULT_SETTINGS largeDiamond "A" "C"
    = Ok {| distance := 2; path := ["A"; "B1"; "C"]; connectionTypes := [direct] |} /\
  findShortestPathOriginal DEFAULT_SETTINGS largeDiamond "A" "C"
    = Ok {| distance := 2; path := ["A"; "B1"; "C"];
            connectionTypes := [direct; direct] |}.
Proof. vm_compute. repeat split. Qed.

(** ** Agreement of the two strategies (C2) *)

(** C2 at a failing input: a chain of ten hops inside a graph of 500 nodes,
    with the default maximum path length of 10.  The single-source search
    discards a queue entry whose distance has reached the maximum before
    testing it against the end node and reports no path; the bidirectional
    search detects the end node when it is first visited, from a node at
    distance 9, and reports distance 10 (each of its halves is bounded
    separately).  [findShortestPath] therefore answers differently according
    to the strategy preference. *)
Theorem findShortestPath_strategies_disagree :
  findShortestPathOriginal DEFAULT_SETTINGS (chain 500) (nodeName 0) (nodeName 10)
    = Ok noPath /\
  (exists r,
     findShortestPathBidirectional DEFAULT_SETTINGS (chain 500)
       (nodeName 0) (nodeName 10) = Ok r /\ distance r = 10) /\
  findShortestPath (withPreference DEFAULT_SETTINGS PrefOriginal) (chain 500)
    (nodeName 0) (nodeName 10) = Ok noPath /\
  (exists r,
     findShortestPath DEFAULT_SETTINGS (chain 500) (nodeName 0) (nodeName 10)
       = Ok r /\ distance r = 10).
Proof.
  split; [vm_compute; reflexivity|].
  split; [eexists; split; [vm_compute; reflexivity|reflexivity]|].
  split; [vm_compute; reflexivity|].
  eexists; split; [vm_compute; reflexivity|reflexivity].
Qed.

(** ** PageRank on a graph with a dangling target (C8) *)

(** On the graph built for the vault A -> B -> C every value is
    non-negative and the largest is 1. *)
Lemma calculatePageRank_vaultABC :
  exists g,
    buildGraph vaultABC DEFAULT_SETTINGS = Ok g /\
    forallb (fun v => PrimFloat.leb 0 v) (ovalues (calculatePageRank g)) = true /\
    mathMax (ovalues (calculatePageRank g)) = 1%float.
Proof.
  eexists. split; [vm_compute; reflexivity|]. split; vm_compute; reflexivity.
Qed.

(** C8 at a failing input.  The cache was built when A was the only note;
    the note X is added to the vault and A is modified to link to it, which
    leaves an edge whose target has no entry.  [calculatePageRank] adds to
    [pageRank[neighbor]] without a guard, so the value of X is [NaN]; the
    maximum is then [NaN] as well, the normalization is skipped and no value
    equals 1. *)
Theorem calculatePageRank_dangling_target :
  cachedGraph (updateGraphCache vaultWithX DEFAULT_SETTINGS 1
                 {| cachedGraph := Some graphOnlyA; lastCacheTime := 0 |}
                 noteA_toX Modify) = Some graphDangling /\
  calculatePageRank graphDangling
    = [("A.md", 0.15000000000000002%float); ("X.md", nan)] /\
  PrimFloat.is_nan (mathMax (ovalues (calculatePageRank graphDangling))) = true /\
  PrimFloat.leb 0 (numberAt (calculatePageRank graphDangling) "X.md") = false.
Proof. vm_compute. repeat split. Qed.

(** ** The entry invariant (C4) *)

Lemma In_firstn_In {A : Type} (n : nat) (l : list A) (x : A) :
  In x (firstn n l) -> In x l.
Proof.
  intros H. rewrite <- (firstn_skipn n l). apply in_or_app. now left.
Qed.

Lemma In_oset {V : Type} (m : omap V) k v k' v' :
  In (k', v') (oset m k v) -> (k', v') = (k, v) \/ In (k', v') m.
Proof.
  induction m as [|[k0 v0] m IH]; simpl.
  - intros [H|[]]. left. congruence.
  - destruct (String.eqb k0 k) eqn:E; simpl.
    + apply String.eqb_eq in E. subst k0. intros [H|H]; auto.
    + intros [H|H]; auto. apply IH in H. tauto.
Qed.

Lemma In_insertSorted {A : Type} (before : A -> A -> bool) (x y : A) (l : list A) :
  In y (insertSorted before x l) -> y = x \/ In y l.
Proof.
  induction l as [|z l IH]; simpl.
  - intros [H|[]]; auto.
  - destruct (before x z); simpl; intros [H|H]; auto.
    apply IH in H. tauto.
Qed.

Lemma In_stableSort {A : Type} (before : A -> A -> bool) (y : A) (l : list A) :
  In y (stableSort before l) -> In y l.
Proof.
  unfold stableSort. induction l as [|x l IH]; simpl; auto.
  intros H. apply In_insertSorted in H. destruct H; auto.
Qed.

Lemma ohas_keys_eq {V W : Type} (m : omap V) (m' : omap W) k :
  okeys m' = okeys m -> ohas m' k = ohas m k.
Proof.
  intros H. destruct (ohas m k) eqn:E.
  - apply ohas_In_keys. rewrite H. now apply ohas_In_keys.
  - destruct (ohas m' k) eqn:E'; auto.
    apply ohas_In_keys in E'. rewrite H in E'. apply ohas_In_keys in E'. congruence.
Qed.

Lemma closedGraphb_sound g : closedGraphb g = true -> closedGraph g.
Proof.
  unfold closedGraphb, closedGraph, hasEdge, edgeOf. intros H s t Hst.
  destruct (oget g s) as [m|] eqn:Es; [|congruence].
  destruct (oget m t) as [ci|] eqn:Et; [|congruence].
  rewrite forallb_forall in H. apply oget_In in Es. apply H in Es. simpl in Es.
  rewrite forallb_forall in Es. apply oget_In in Et. apply Es in Et. exact Et.
Qed.

Lemma findNoteByName_In files name f :
  findNoteByName files name = Some f -> In f files.
Proof.
  unfold findNoteByName. intros H.
  destruct (find (fun f => String.eqb (basename f) name) files) eqn:E1.
  - inversion H; subst. apply find_some in E1. tauto.
  - destruct (find (fun f => String.eqb (toLowerCase (basename f))
                                        (toLowerCase name)) files) eqn:E2.
    + inversion H; subst. apply find_some in E2. tauto.
    + apply find_some in H. tauto.
Qed.

Lemma hasEdge_setEdge g src tgt info g' s t :
  setEdge g src tgt info = Ok g' ->
  hasEdge g' s t -> hasEdge g s t \/ (s = src /\ t = tgt).
Proof.
  unfold setEdge. destruct (oget g src) as [m|] eqn:E; [|discriminate].
  intros H; inversion H; subst; clear H. unfold hasEdge, edgeOf.
  rewrite oget_oset. destruct (String.eqb src s) eqn:Es.
  - apply String.eqb_eq in Es. subst s. rewrite E, oget_oset.
    destruct (String.eqb tgt t) eqn:Et.
    + apply String.eqb_eq in Et. right; auto.
    + left; auto.
  - left; auto.
Qed.

Lemma setEdge_Ok_has g src tgt info g' :
  setEdge g src tgt info = Ok g' -> ohas g src = true.
Proof.
  unfold setEdge, ohas. destruct (oget g src); [auto|discriminate].
Qed.

Section EntryInvariant.
Variable files : list TFile.
Variable settings : Settings.

Lemma setEdge_entriesFor g src target info g' :
  entriesFor files src g -> In target files ->
  setEdge g src (fpath target) info = Ok g' -> entriesFor files src g'.
Proof.
  intros [Hclosed Hcov] Hin Hset.
  pose proof (setEdge_keys _ _ _ _ _ Hset) as Hkeys.
  split.
  - intros s t Hst. rewrite (ohas_keys_eq g g' t Hkeys).
    destruct (hasEdge_setEdge _ _ _ _ _ _ _ Hset Hst) as [H|[Hs Ht]].
    + exact (Hclosed s t H).
    + subst. destruct (string_dec (fpath target) src) as [E|E].
      * rewrite E. eapply setEdge_Ok_has; eauto.
      * now apply Hcov.
  - intros f Hf Hne. rewrite (ohas_keys_eq g g' _ Hkeys). now apply Hcov.
Qed.

Lemma addLinks_entriesFor ty src captures g :
  entriesFor files src g -> entriesFor files src (fst (addLinks files ty src captures g)).
Proof.
  revert g. induction captures as [|c rest IH]; intros g Hg; simpl; auto.
  destruct (isEmptyString (linkTextOf c)); auto.
  destruct (findNoteByName files (linkTextOf c)) as [linked|] eqn:Ef; auto.
  destruct (setEdge g src (fpath linked) (linkInfo ty linked)) eqn:E; simpl; auto.
  apply IH. eapply setEdge_entriesFor; eauto. eapply findNoteByName_In; eauto.
Qed.

Lemma addTagEdges_entriesFor src matches g :
  (forall e, In e matches -> In (fst (snd e)) files) ->
  entriesFor files src g -> entriesFor files src (fst (addTagEdges src matches g)).
Proof.
  revert g. induction matches as [|[k [other common]] rest IH];
    intros g Hm Hg; simpl; auto.
  destruct (setEdge g src (fpath other) (tagInfo other common)) eqn:E; simpl; auto.
  apply IH.
  - intros e He. apply Hm. now right.
  - eapply setEdge_entriesFor; eauto. apply (Hm (k, (other, common))). now left.
Qed.

Lemma tagMatchCounts_In file fileTags allFiles acc e :
  In e (tagMatchCounts file fileTags allFiles acc) ->
  In e acc \/ In (fst (snd e)) allFiles.
Proof.
  revert acc. induction allFiles as [|other rest IH]; intros acc; simpl; auto.
  destruct (String.eqb (fpath other) (fpath file)).
  - intros H. apply IH in H. tauto.
  - destruct (tagsOf other).
    + intros H. apply IH in H. tauto.
    + destruct (commonTagsWith fileTags (s :: l)).
      * intros H. apply IH in H. tauto.
      * intros H. apply IH in H. destruct H as [H|H]; [|tauto].
        destruct e as [k v]. apply In_oset in H. destruct H as [H|H]; [|tauto].
        inversion H. subst. simpl. auto.
Qed.

Lemma sortedTagMatches_In file allFiles n e :
  In e (firstn n (sortedTagMatches file allFiles)) -> In (fst (snd e)) allFiles.
Proof.
  intros H. apply In_firstn_In in H. unfold sortedTagMatches in H.
  apply In_stableSort in H. apply tagMatchCounts_In in H.
  destruct H as [[]|H]; auto.
Qed.

Lemma processFile_entriesFor allFiles g file :
  incl allFiles files ->
  entriesFor files (fpath file) g ->
  entriesFor files (fpath file) (processFile files settings allFiles g file).
Proof.
  intros Hincl Hg.
  apply (processFile_stages files settings allFiles g file
           (entriesFor files (fpath file))); auto.
  - intros ty captures g0 H0. now apply addLinks_entriesFor.
  - intros g0 H0. apply addTagEdges_entriesFor; auto.
    intros e He. apply Hincl. eapply sortedTagMatches_In; eauto.
Qed.

(** With every document entered, a per-document pass keeps the graph
    closed and every document entered. *)
Lemma processFile_closed allFiles g file :
  incl allFiles files ->
  closedGraph g /\ coversFiles files g ->
  closedGraph (processFile files settings allFiles g file) /\
  coversFiles files (processFile files settings allFiles g file).
Proof.
  intros Hincl [Hclosed Hcov]. split.
  - apply processFile_entriesFor; auto. split; auto.
  - intros f Hf.
    rewrite (ohas_keys_eq g _ _ (processFile_keys files settings allFiles g file)).
    now apply Hcov.
Qed.

Lemma fold_processFile_closed allFiles batch g :
  incl allFiles files ->
  closedGraph g /\ coversFiles files g ->
  closedGraph (fold_left (processFile files settings allFiles) batch g) /\
  coversFiles files (fold_left (processFile files settings allFiles) batch g).
Proof.
  intros Hincl. revert g. induction batch as [|f batch IH]; intros g Hg; simpl; auto.
  apply IH. now apply processFile_closed.
Qed.

Lemma processBatches_closed fuel allFiles rest g :
  incl allFiles files ->
  closedGraph g /\ coversFiles files g ->
  closedGraph (processBatches files settings fuel allFiles rest g) /\
  coversFiles files (processBatches files settings fuel allFiles rest g).
Proof.
  intros Hincl. revert rest g. induction fuel as [|fuel IH]; intros rest g Hg; simpl; auto.
  destruct rest as [|f rest']; auto.
  apply IH. now apply fold_processFile_closed.
Qed.

End EntryInvariant.

Lemma initGraph_empty_entries fs (acc : EnhancedGraph) :
  (forall k m, oget acc k = Some m -> m = []) ->
  forall k m,
    oget (fold_left (fun g f => oset g (fpath f) []) fs acc) k = Some m -> m = [].
Proof.
  revert acc. induction fs as [|f fs IH]; intros acc Hacc k m; simpl.
  - apply Hacc.
  - apply IH. intros k' m'. rewrite oget_oset.
    destruct (String.eqb (fpath f) k'); [congruence|apply Hacc].
Qed.

Lemma initGraph_has fs (acc : EnhancedGraph) k :
  ohas (fold_left (fun g f => oset g (fpath f) []) fs acc) k
  = orb (ohas acc k) (existsb (fun f => String.eqb (fpath f) k) fs).
Proof.
  revert acc. induction fs as [|f fs IH]; intros acc; simpl.
  - now rewrite orb_false_r.
  - rewrite IH, ohas_oset.
    destruct (String.eqb (fpath f) k), (ohas acc k); auto.
Qed.

Lemma initGraph_closed fs :
  closedGraph (initGraph fs) /\ coversFiles fs (initGraph fs).
Proof.
  split.
  - intros s t. unfold hasEdge, edgeOf.
    destruct (oget (initGraph fs) s) as [m|] eqn:E; [|congruence].
    apply initGraph_empty_entries in E; [|discriminate]. subst. simpl. congruence.
  - intros f Hf. unfold initGraph. rewrite initGraph_has. simpl.
    apply existsb_exists. exists f. split; auto. apply String.eqb_refl.
Qed.

Lemma buildForward_closed files settings :
  closedGraph (buildForward files settings) /\
  coversFiles files (buildForward files settings).
Proof.
  unfold buildForward. apply processBatches_closed.
  - apply incl_refl.
  - apply initGraph_closed.
Qed.

(** ** The backlink pass *)

Lemma edgeOf_neighborsOf g s t : edgeOf g s t = oget (neighborsOf g s) t.
Proof. unfold edgeOf, neighborsOf. now destruct (oget g s). Qed.

Lemma edgeOf_oset_edge g a m b info u v :
  oget g a = Some m ->
  edgeOf (oset g a (oset m b info)) u v
  = if andb (String.eqb a u) (String.eqb b v) then Some info else edgeOf g u v.
Proof.
  intros Ha. unfold edgeOf. rewrite oget_oset.
  destruct (String.eqb a u) eqn:E; simpl; auto.
  apply String.eqb_eq in E. subst u. rewrite Ha, oget_oset.
  now destruct (String.eqb b v).
Qed.

Lemma hasEdge_target_listed g s t :
  hasEdge g s t -> In t (okeys (neighborsOf g s)).
Proof.
  unfold hasEdge. rewrite edgeOf_neighborsOf. intros H.
  apply ohas_In_keys. unfold ohas. now destruct (oget (neighborsOf g s) t).
Qed.

Lemma hasEdge_source_has g s t : hasEdge g s t -> ohas g s = true.
Proof.
  unfold hasEdge, edgeOf, ohas. destruct (oget g s); auto.
Qed.

Section Backlinks.
Variable files : list TFile.

(** What the inner loop of [processBacklinks] achieves for one source. *)
Lemma backlinkTargets_spec source targets g :
  (forall t, In t (okeys targets) -> ohas g t = true) ->
  exists g',
    backlinkTargets files source targets g = Ok g' /\
    okeys g' = okeys g /\
    (forall u v ci, edgeOf g u v = Some ci -> edgeOf g' u v = Some ci) /\
    (forall u v ci, edgeOf g' u v = Some ci ->
       edgeOf g u v = Some ci \/
       (v = source /\ In u (okeys targets) /\ type ci = BACKLINK)) /\
    (getAbstractFileByPath files source <> None ->
     forall t, In t (okeys targets) -> hasEdge g' t source).
Proof.
  revert g. induction targets as [|[target info] rest IH]; intros g Hpre.
  - exists g. simpl. repeat split; auto. intros _ t [].
  - simpl. assert (Ht : ohas g target = true) by (apply Hpre; now left).
    unfold ohas in Ht. destruct (oget g target) as [tm|] eqn:Etm; [|discriminate].
    clear Ht.
    assert (Hrest : forall g1 : EnhancedGraph, okeys g1 = okeys g ->
              forall t, In t (okeys rest) -> ohas g1 t = true).
    { intros g1 Hk t Hin. rewrite (ohas_keys_eq g g1 t Hk). apply Hpre. now right. }
    destruct (ohas tm source) eqn:Ehas.
    + destruct (IH g (Hrest g eq_refl)) as [g' [Hrun [Hk [Hmono [Hnew Hrev]]]]].
      exists g'. repeat split; auto.
      * intros u v ci H. apply Hnew in H. simpl. tauto.
      * intros Hres t [Ht|Ht]; [|now apply Hrev].
        simpl in Ht. subst t.
        assert (He : hasEdge g target source).
        { unfold hasEdge, edgeOf. rewrite Etm. unfold ohas in Ehas.
          destruct (oget tm source); congruence. }
        unfold hasEdge in *. destruct (edgeOf g target source) as [ci|] eqn:E;
          [|congruence].
        rewrite (Hmono _ _ _ E). discriminate.
    + destruct (getAbstractFileByPath files source) as [sourceFile|] eqn:Eres.
      * set (g1 := oset g target (oset tm source (backlinkInfo sourceFile))).
        assert (Hk1 : okeys g1 = okeys g).
        { apply okeys_oset_present. unfold ohas. now rewrite Etm. }
        destruct (IH g1 (Hrest g1 Hk1)) as [g' [Hrun [Hk [Hmono [Hnew Hrev]]]]].
        assert (Hnone : edgeOf g target source = None).
        { unfold edgeOf. rewrite Etm. unfold ohas in Ehas.
          destruct (oget tm source); congruence. }
        exists g'. repeat split; auto.
        -- congruence.
        -- intros u v ci H. apply Hmono. unfold g1.
           rewrite (edgeOf_oset_edge g target tm source _ u v Etm).
           destruct (andb (String.eqb target u) (String.eqb source v)) eqn:E; auto.
           apply andb_prop in E. destruct E as [E1 E2].
           apply String.eqb_eq in E1, E2. subst. congruence.
        -- intros u v ci H. apply Hnew in H. destruct H as [H|H].
           ++ unfold g1 in H.
              rewrite (edgeOf_oset_edge g target tm source _ u v Etm) in H.
              destruct (andb (String.eqb target u) (String.eqb source v)) eqn:E; auto.
              apply andb_prop in E. destruct E as [E1 E2].
              apply String.eqb_eq in E1, E2. subst. inversion H. subst.
              right. simpl. auto.
           ++ simpl. tauto.
        -- intros _ t [Ht|Ht]; [|apply Hrev; [discriminate|auto]].
           simpl in Ht. subst t. unfold hasEdge.
           assert (E : edgeOf g1 target source = Some (backlinkInfo sourceFile)).
           { unfold g1. rewrite (edgeOf_oset_edge g target tm source _ _ _ Etm).
             now rewrite !String.eqb_refl. }
           rewrite (Hmono _ _ _ E). discriminate.
      * destruct (IH g (Hrest g eq_refl)) as [g' [Hrun [Hk [Hmono [Hnew Hrev]]]]].
        exists g'. repeat split; auto.
        -- intros u v ci H. apply Hnew in H. simpl. tauto.
        -- intros Hres. congruence.
Qed.

(** The inner loop never writes to the map it iterates: a source that is
    its own target already has the edge, so iterating a snapshot of the
    entries is iterating the live map. *)
Lemma backlinkTargets_own_map source targets g g' :
  (forall t, In t (okeys targets) -> hasEdge g source t) ->
  backlinkTargets files source targets g = Ok g' ->
  neighborsOf g' source = neighborsOf g source.
Proof.
  revert g. induction targets as [|[target info] rest IH]; intros g Hpre Hrun;
    simpl in Hrun.
  - inversion Hrun. now subst.
  - assert (Hrest : forall t, In t (okeys rest) -> hasEdge g source t).
    { intros t Ht. apply Hpre. now right. }
    destruct (oget g target) as [tm|] eqn:Etm; [|discriminate].
    destruct (ohas tm source) eqn:Ehas; [now apply IH|].
    destruct (getAbstractFileByPath files source) as [sf|]; [|now apply IH].
    assert (Hne : target <> source).
    { intros ->. assert (H : hasEdge g source source) by (apply Hpre; now left).
      unfold hasEdge, edgeOf in H. rewrite Etm in H. unfold ohas in Ehas.
      destruct (oget tm source); congruence. }
    assert (Hsame : neighborsOf (oset g target (oset tm source (backlinkInfo sf))) source
                    = neighborsOf g source).
    { unfold neighborsOf. now rewrite oget_oset_ne. }
    rewrite <- Hsame. apply IH; auto.
    intros t Ht. unfold hasEdge. rewrite edgeOf_neighborsOf, Hsame.
    rewrite <- edgeOf_neighborsOf. now apply Hrest.
Qed.

(** The outer loop.  [pending] are the sources still to be visited: an edge
    without a reverse edge can only start at one of them. *)
Lemma backlinkSources_spec pending g :
  closedGraph g ->
  (forall u v, hasEdge g u v -> hasEdge g v u \/ In u pending) ->
  (forall s, In s pending -> ohas g s = true ->
             getAbstractFileByPath files s <> None) ->
  exists g',
    backlinkSources files pending g = Ok g' /\
    okeys g' = okeys g /\
    closedGraph g' /\
    (forall u v ci, edgeOf g u v = Some ci -> edgeOf g' u v = Some ci) /\
    (forall u v ci, edgeOf g' u v = Some ci ->
       edgeOf g u v = Some ci \/ type ci = BACKLINK) /\
    (forall u v, hasEdge g' u v -> hasEdge g' v u).
Proof.
  revert g. induction pending as [|source rest IH]; intros g Hclosed Hsym Hres.
  - exists g. simpl. repeat split; auto.
    intros u v H. destruct (Hsym u v H) as [H'|[]]. exact H'.
  - simpl.
    destruct (backlinkTargets_spec source (neighborsOf g source) g)
      as [g1 [Hrun [Hk [Hmono [Hnew Hrev]]]]].
    { intros t Ht. apply (Hclosed source t). unfold hasEdge.
      rewrite edgeOf_neighborsOf. apply ohas_In_keys in Ht. unfold ohas in Ht.
      destruct (oget (neighborsOf g source) t); congruence. }
    rewrite Hrun. simpl.
    assert (Hmono' : forall u v, hasEdge g u v -> hasEdge g1 u v).
    { intros u v H. unfold hasEdge in *.
      destruct (edgeOf g u v) as [ci|] eqn:E; [|congruence].
      rewrite (Hmono _ _ _ E). discriminate. }
    assert (Hnew' : forall u v, hasEdge g1 u v ->
              hasEdge g u v \/ (v = source /\ hasEdge g source u)).
    { intros u v H. unfold hasEdge in H.
      destruct (edgeOf g1 u v) as [ci|] eqn:E; [|congruence].
      apply Hnew in E. destruct E as [E|[Ev [Eu _]]].
      - left. unfold hasEdge. congruence.
      - right. split; auto. unfold hasEdge. rewrite edgeOf_neighborsOf.
        apply ohas_In_keys in Eu. unfold ohas in Eu.
        destruct (oget (neighborsOf g source) u); congruence. }
    destruct (IH g1) as [g' [Hrun' [Hk' [Hclosed' [Hmono2 [Hnew2 Hsym']]]]]].
    + intros u v H. rewrite (ohas_keys_eq g g1 v Hk).
      destruct (Hnew' u v H) as [H'|[Hv H']].
      * exact (Hclosed u v H').
      * subst v. eapply hasEdge_source_has; eauto.
    + intros u v H. destruct (Hnew' u v H) as [H'|[Hv H']].
      * destruct (Hsym u v H') as [H''|[H''|H'']]; auto.
        subst u. left. apply Hrev.
        -- apply Hres; [now left|]. eapply hasEdge_source_has; eauto.
        -- now apply hasEdge_target_listed.
      * subst v. left. now apply Hmono'.
    + intros s Hs Hhas. apply Hres; [now right|].
      now rewrite <- (ohas_keys_eq g g1 s Hk).
    + exists g'. repeat split; auto.
      * congruence.
      * intros u v ci H. apply Hnew2 in H. destruct H as [H|H]; auto.
        apply Hnew in H. tauto.
Qed.

Lemma processBacklinks_spec g :
  closedGraph g ->
  (forall s, ohas g s = true -> getAbstractFileByPath files s <> None) ->
  exists g',
    processBacklinks files g = Ok g' /\
    okeys g' = okeys g /\
    closedGraph g' /\
    (forall u v ci, edgeOf g u v = Some ci -> edgeOf g' u v = Some ci) /\
    (forall u v ci, edgeOf g' u v = Some ci ->
       edgeOf g u v = Some ci \/ type ci = BACKLINK) /\
    (forall u v, hasEdge g' u v -> hasEdge g' v u).
Proof.
  intros Hclosed Hres. unfold processBacklinks. apply backlinkSources_spec; auto.
  intros u v H. right. apply ohas_In_keys. eapply hasEdge_source_has; eauto.
Qed.

End Backlinks.

Lemma fold_processFile_keys files settings allFiles batch g :
  okeys (fold_left (processFile files settings allFiles) batch g) = okeys g.
Proof.
  revert g. induction batch as [|f batch IH]; intros g; simpl; auto.
  rewrite IH. apply processFile_keys.
Qed.

Lemma processBatches_keys files settings fuel allFiles rest g :
  okeys (processBatches files settings fuel allFiles rest g) = okeys g.
Proof.
  revert rest g. induction fuel as [|fuel IH]; intros rest g; simpl; auto.
  destruct rest as [|f rest']; auto.
  rewrite IH. apply fold_processFile_keys.
Qed.

Lemma buildForward_resolvable files settings s :
  ohas (buildForward files settings) s = true ->
  getAbstractFileByPath files s <> None.
Proof.
  unfold buildForward.
  rewrite (ohas_keys_eq (initGraph files) _ s
             (processBatches_keys files settings _ files files (initGraph files))).
  unfold initGraph. rewrite initGraph_has. simpl. intros H.
  apply existsb_exists in H. destruct H as [f [Hf E]].
  unfold getAbstractFileByPath. intros Hnone.
  apply (find_none _ _ Hnone) in Hf. congruence.
Qed.

Lemma buildGraph_closed files settings :
  exists g, buildGraph files settings = Ok g /\ closedGraph g.
Proof.
  unfold buildGraph. destruct (includeBacklinks settings).
  - destruct (processBacklinks_spec files (buildForward files settings))
      as [g [Hrun [_ [Hclosed _]]]].
    + apply buildForward_closed.
    + apply buildForward_resolvable.
    + exists g. auto.
  - eexists. split; [reflexivity|]. apply buildForward_closed.
Qed.

Lemma oget_map_values {V : Type} (f : V -> V) (m : omap V) k :
  oget (map (fun '(k0, e) => (k0, f e)) m) k = option_map f (oget m k).
Proof.
  induction m as [|[k0 e] m IH]; simpl; auto.
  destruct (String.eqb k0 k); auto.
Qed.

Lemma delete_closed (g : EnhancedGraph) p :
  closedGraph g ->
  closedGraph (map (fun '(k, edges) => (k, odelete edges p)) (odelete g p)).
Proof.
  intros Hclosed s t. unfold hasEdge, edgeOf, ohas.
  rewrite !oget_map_values. intros H.
  destruct (string_dec p s) as [->|Hs].
  { rewrite oget_odelete_eq in H. simpl in H. congruence. }
  rewrite (oget_odelete_ne g p s Hs) in H.
  destruct (oget g s) as [m|] eqn:Es; simpl in H; [|congruence].
  destruct (string_dec p t) as [->|Ht].
  { rewrite oget_odelete_eq in H. congruence. }
  rewrite (oget_odelete_ne m p t Ht) in H. rewrite (oget_odelete_ne g p t Ht).
  assert (Hst : hasEdge g s t) by (unfold hasEdge, edgeOf; now rewrite Es).
  apply Hclosed in Hst. unfold ohas in Hst.
  destruct (oget g t); simpl; congruence.
Qed.

Lemma create_entriesFor files (g : EnhancedGraph) p :
  closedGraph g ->
  (forall f, In f files -> fpath f <> p -> ohas g (fpath f) = true) ->
  entriesFor files p (oset g p []).
Proof.
  intros Hclosed Hcov. split.
  - intros s t. unfold hasEdge, edgeOf. rewrite oget_oset, ohas_oset.
    destruct (String.eqb p s); simpl; [congruence|].
    intros H. rewrite (Hclosed s t H). apply orb_true_r.
  - intros f Hf Hne. rewrite ohas_oset, (Hcov f Hf Hne). apply orb_true_r.
Qed.

(** C4, as stated, fails for modify: the cached graph below is closed, the
    vault holds a note X that has no entry in it, and after A is modified to
    link to X the graph has the edge A -> X without an entry for X. *)
Lemma updateGraphCache_modify_breaks_closedGraph :
  closedGraph graphOnlyA /\
  cachedGraph (updateGraphCache vaultWithX DEFAULT_SETTINGS 1
                 {| cachedGraph := Some graphOnlyA; lastCacheTime := 0 |}
                 noteA_toX Modify) = Some graphDangling /\
  ~ closedGraph graphDangling.
Proof.
  split; [apply closedGraphb_sound; reflexivity|].
  split; [vm_compute; reflexivity|].
  intros H. specialize (H "A.md" "X.md").
  assert (E : hasEdge graphDangling "A.md" "X.md") by (vm_compute; discriminate).
  apply H in E. vm_compute in E. discriminate.
Qed.

(** C4, amended: the graph returned by [buildGraph] gives every edge target
    its own entry; [updateGraphCache] preserves this for delete, and for
    create and modify provided every document of the vault other than the
    changed one already has an entry in the cached graph. *)
Theorem closedGraph_buildGraph_updateGraphCache :
  forall (files : list TFile) (settings : Settings),
    (exists g, buildGraph files settings = Ok g /\ closedGraph g) /\
    (forall (now : Z) (st : ServiceState) (g : EnhancedGraph)
            (changedFile : TFile) (changeType : ChangeType),
       cachedGraph st = Some g ->
       closedGraph g ->
       (changeType <> Delete ->
        forall f, In f files -> fpath f <> fpath changedFile ->
                  ohas g (fpath f) = true) ->
       exists g',
         cachedGraph (updateGraphCache files settings now st changedFile changeType)
           = Some g' /\
         closedGraph g').
Proof.
  intros files settings. split; [apply buildGraph_closed|].
  intros now st g changedFile changeType Hc Hclosed Hcov.
  unfold updateGraphCache.
  destruct (cacheGraphStructure settings); simpl; [|exists g; auto].
  rewrite Hc. destruct changeType.
  - eexists. split; [reflexivity|].
    apply (processFile_entriesFor files settings files g changedFile).
    + apply incl_refl.
    + split; auto. apply Hcov. discriminate.
  - eexists. split; [reflexivity|].
    apply (processFile_entriesFor files settings files _ changedFile).
    + apply incl_refl.
    + apply create_entriesFor; auto. apply Hcov. discriminate.
  - eexists. split; [reflexivity|]. now apply delete_closed.
Qed.

Lemma closedGraph_buildGraph_updateGraphCache_witness :
  (exists g, buildGraph vaultAfter DEFAULT_SETTINGS = Ok g /\ closedGraph g) /\
  (exists g',
     cachedGraph (updateGraphCache vaultAfter DEFAULT_SETTINGS 1
                    {| cachedGraph := Some graphBefore; lastCacheTime := 0 |}
                    noteA_unlinked Modify) = Some g' /\
     closedGraph g').
Proof.
  destruct (closedGraph_buildGraph_updateGraphCache vaultAfter DEFAULT_SETTINGS)
    as [Hbuild Hupdate].
  split; [exact Hbuild|].
  apply (Hupdate 1 {| cachedGraph := Some graphBefore; lastCacheTime := 0 |}
           graphBefore noteA_unlinked Modify).
  - reflexivity.
  - apply closedGraphb_sound. reflexivity.
  - intros _ f [Hf|[Hf|[]]] Hne; subst f; simpl in *; [congruence|reflexivity].
Defined.

(** ** Backlink inference (C7) *)

(** C7: with backlink inference enabled, [buildGraph] returns a graph in
    which every edge found by the per-document passes whose target had no
    edge back to its source is answered by a Backlink edge from the target to
    the source, and every edge has a reverse edge. *)
Theorem buildGraph_backlinks :
  forall (files : list TFile) (settings : Settings),
    includeBacklinks settings = true ->
    exists g,
      buildGraph files settings = Ok g /\
      (forall s t,
         hasEdge (buildForward files settings) s t ->
         ~ hasEdge (buildForward files settings) t s ->
         exists info, edgeOf g t s = Some info /\ type info = BACKLINK) /\
      (forall u v, hasEdge g u v -> hasEdge g v u).
Proof.
  intros files settings Hb. unfold buildGraph. rewrite Hb.
  destruct (processBacklinks_spec files (buildForward files settings))
    as [g [Hrun [_ [_ [Hmono [Hnew Hsym]]]]]].
  - apply buildForward_closed.
  - apply buildForward_resolvable.
  - exists g. split; auto. split; auto.
    intros s t Hst Hts.
    assert (H : hasEdge g s t).
    { unfold hasEdge in *.
      destruct (edgeOf (buildForward files settings) s t) as [ci|] eqn:E;
        [|congruence].
      rewrite (Hmono _ _ _ E). discriminate. }
    apply Hsym in H. unfold hasEdge in H.
    destruct (edgeOf g t s) as [info|] eqn:E; [|congruence].
    exists info. split; auto.
    destruct (Hnew _ _ _ E) as [H0|H0]; auto.
    exfalso. apply Hts. unfold hasEdge. congruence.
Qed.

Lemma buildGraph_backlinks_witness :
  exists g,
    buildGraph vaultBefore DEFAULT_SETTINGS = Ok g /\
    (forall s t,
       hasEdge (buildForward vaultBefore DEFAULT_SETTINGS) s t ->
       ~ hasEdge (buildForward vaultBefore DEFAULT_SETTINGS) t s ->
       exists info, edgeOf g t s = Some info /\ type info = BACKLINK) /\
    (forall u v, hasEdge g u v -> hasEdge g v u).
Proof.
  apply (buildGraph_backlinks vaultBefore DEFAULT_SETTINGS). reflexivity.
Defined.

(** ** Clustering coefficient of nodes with fewer than two neighbors (C9) *)

Lemma dedupe_spec l seen :
  NoDup (dedupe l seen) /\
  forall x, In x (dedupe l seen) -> In x l /\ ~ In x seen.
Proof.
  revert seen. induction l as [|y l IH]; intros seen; simpl.
  - split; [constructor|tauto].
  - destruct (shas seen y) eqn:E.
    + destruct (IH seen) as [Hnd Hin]. split; auto.
      intros x Hx. apply Hin in Hx. tauto.
    + destruct (IH (y :: seen)) as [Hnd Hin]. split.
      * constructor; auto. intros Hy. apply Hin in Hy. simpl in Hy. tauto.
      * intros x [Hx|Hx].
        -- subst. split; auto. intros Hs. apply shas_In in Hs. congruence.
        -- apply Hin in Hx. simpl in Hx. tauto.
Qed.

Lemma getNeighbors_NoDup g node : NoDup (getNeighbors g node).
Proof. unfold getNeighbors. apply dedupe_spec. Qed.

Lemma getNeighbors_incl g node : incl (getNeighbors g node) (neighborSet g node).
Proof.
  intros x Hx. unfold getNeighbors in Hx. apply dedupe_spec in Hx.
  destruct Hx as [Hx _]. unfold neighborSet. apply nodup_In.
  apply in_app_or in Hx. apply in_or_app. destruct Hx as [Hx|Hx]; [now left|right].
  unfold incomingSources. apply in_map_iff in Hx. destruct Hx as [kv [Hk Hf]].
  apply in_map_iff. exists kv. split; auto.
  apply filter_In in Hf. apply filter_In. destruct Hf as [Hin Hc].
  apply andb_prop in Hc. tauto.
Qed.

Lemma clusteringOf_few_neighbors g node :
  (length (neighborSet g node) < 2)%nat -> clusteringOf g node = 0%float.
Proof.
  intros H. unfold clusteringOf.
  assert (Hlen : (length (getNeighbors g node) <= length (neighborSet g node))%nat).
  { apply NoDup_incl_length; [apply getNeighbors_NoDup|apply getNeighbors_incl]. }
  assert (E : (length (getNeighbors g node) <? 2)%nat = true)
    by (apply Nat.ltb_lt; lia).
  now rewrite E.
Qed.

Lemma oget_fold_clustering g batch res node :
  oget (fold_left (fun r n => oset r n (clusteringOf g n)) batch res) node
  = if existsb (String.eqb node) batch then Some (clusteringOf g node)
    else oget res node.
Proof.
  revert res. induction batch as [|n batch IH]; intros res; simpl; auto.
  rewrite IH, oget_oset, (String.eqb_sym node n).
  destruct (String.eqb n node) eqn:E; simpl.
  - apply String.eqb_eq in E. subst. now destruct (existsb _ batch).
  - reflexivity.
Qed.

(** A score once recorded for [node] stays what [clusteringOf] gives, whatever
    the rest of the run does. *)
Lemma clusteringBatches_keeps fuel g cancel batchNo rest res node :
  oget res node = Some (clusteringOf g node) ->
  oget (clusteringBatches fuel g cancel batchNo rest res) node
  = Some (clusteringOf g node).
Proof.
  revert batchNo rest res. induction fuel as [|fuel IH]; intros batchNo rest res H;
    simpl; auto.
  destruct rest as [|n rest']; auto.
  destruct (cancel batchNo); auto.
  apply IH. rewrite oget_fold_clustering.
  now destruct (existsb _ _).
Qed.

Lemma clusteringBatches_reaches fuel g cancel batchNo rest res i node :
  (length rest <= fuel)%nat ->
  nth_error rest i = Some node ->
  (forall b, (b <= i / 3)%nat -> cancel (batchNo + b)%nat = false) ->
  oget (clusteringBatches fuel g cancel batchNo rest res) node
  = Some (clusteringOf g node).
Proof.
  revert batchNo rest res i. induction fuel as [|fuel IH];
    intros batchNo rest res i Hfuel Hnth Hcancel.
  - destruct rest; [destruct i; discriminate|simpl in Hfuel; lia].
  - destruct rest as [|n rest']; [destruct i; discriminate|].
    cbn [clusteringBatches].
    assert (H0 : cancel batchNo = false).
    { rewrite <- (Nat.add_0_r batchNo). apply Hcancel. lia. }
    rewrite H0.
    destruct (Nat.lt_ge_cases i 3) as [Hi|Hi].
    + apply clusteringBatches_keeps. rewrite oget_fold_clustering.
      assert (E : existsb (String.eqb node)
                    (firstn CLUSTERING_BATCH_SIZE (n :: rest')) = true).
      { apply existsb_exists. exists node. split; [|apply String.eqb_refl].
        apply nth_error_In with (n := i).
        rewrite nth_error_firstn.
        unfold CLUSTERING_BATCH_SIZE.
        destruct (Nat.ltb_spec i 3); [auto|lia]. }
      now rewrite E.
    + apply (IH (S batchNo) _ _ (i - 3)%nat).
      * rewrite length_skipn. simpl in *. unfold CLUSTERING_BATCH_SIZE. lia.
      * rewrite nth_error_skipn. unfold CLUSTERING_BATCH_SIZE.
        replace (3 + (i - 3))%nat with i by lia. exact Hnth.
      * intros b Hb. replace (S batchNo + b)%nat with (batchNo + S b)%nat by lia.
        apply Hcancel.
        assert (Hd : (i / 3 = S ((i - 3) / 3))%nat).
        { replace i with ((i - 3) + 1 * 3)%nat at 1 by lia.
          rewrite Nat.div_add by lia. lia. }
        lia.
Qed.

(** C9, as stated, fails for a cancelled run: with the cancellation flag
    set when the second batch starts, the isolated fourth path node Z gets no
    score at all. *)
Lemma calculateClusteringCoefficient_cancelled :
  In "Z" ["A"; "B"; "C"; "Z"] /\
  (length (neighborSet triangleAndZ "Z") < 2)%nat /\
  oget (calculateClusteringCoefficient triangleAndZ (fun b => Nat.eqb b 1)
          ["A"; "B"; "C"; "Z"]) "Z" = None.
Proof.
  split; [simpl; tauto|]. split; [vm_compute; lia|]. vm_compute. reflexivity.
Qed.

(** C9, amended: [calculateClusteringCoefficient] assigns the score 0 to
    every path node whose neighbor set has fewer than two elements, provided
    the cancellation flag is clear at the head of the node's batch and of
    every batch before it (batches hold three path nodes). *)
Theorem calculateClusteringCoefficient_few_neighbors :
  forall (g : EnhancedGraph) (cancelAnalysisFlag : nat -> bool)
         (pathNodes : list string) (i : nat) (node : string),
    nth_error pathNodes i = Some node ->
    (forall b, (b <= i / 3)%nat -> cancelAnalysisFlag b = false) ->
    (length (neighborSet g node) < 2)%nat ->
    oget (calculateClusteringCoefficient g cancelAnalysisFlag pathNodes) node
      = Some 0%float.
Proof.
  intros g cancel pathNodes i node Hnth Hcancel Hfew.
  unfold calculateClusteringCoefficient.
  rewrite <- (clusteringOf_few_neighbors g node Hfew).
  apply (clusteringBatches_reaches (length pathNodes) g cancel 0 pathNodes [] i node);
    auto.
Qed.

Lemma calculateClusteringCoefficient_few_neighbors_witness :
  oget (calculateClusteringCoefficient triangleAndZ (fun b => Nat.eqb b 2)
          ["A"; "B"; "C"; "Z"]) "Z" = Some 0%float.
Proof.
  apply (calculateClusteringCoefficient_few_neighbors triangleAndZ
           (fun b => Nat.eqb b 2) ["A"; "B"; "C"; "Z"] 3 "Z").
  - reflexivity.
  - intros b Hb. change (3 / 3)%nat with 1%nat in Hb.
    destruct b as [|[|b]]; [reflexivity|reflexivity|lia].
  - vm_compute. lia.
Defined.

(** ** The searches always return *)

Lemma unvisitedIn_ext universe has has' :
  (forall y, In y universe -> has' y = has y) ->
  unvisitedIn universe has' = unvisitedIn universe has.
Proof.
  intros H. unfold unvisitedIn. f_equal. apply filter_ext_in.
  intros y Hy. now rewrite H.
Qed.

Lemma unvisitedIn_add universe has has' x :
  NoDup universe -> In x universe -> has x = false ->
  (forall y, has' y = orb (String.eqb x y) (has y)) ->
  S (unvisitedIn universe has') = unvisitedIn universe has.
Proof.
  intros Hnd Hin Hx Hadd. induction Hnd as [|z l Hz Hnd IH]; [destruct Hin|].
  unfold unvisitedIn in *. simpl. rewrite Hadd.
  destruct Hin as [Hin|Hin].
  - subst z. rewrite String.eqb_refl, Hx. simpl. f_equal.
    apply (unvisitedIn_ext l has has'). intros y Hy. rewrite Hadd.
    destruct (String.eqb x y) eqn:E; auto.
    apply String.eqb_eq in E. subst. contradiction.
  - destruct (String.eqb x z) eqn:E.
    + apply String.eqb_eq in E. subst. contradiction.
    + simpl. destruct (has z); simpl; auto.
Qed.

Lemma unvisitedIn_le universe has :
  (unvisitedIn universe has <= length universe)%nat.
Proof.
  unfold unvisitedIn. induction universe as [|z l IH]; simpl; auto.
  destruct (negb (has z)); simpl; lia.
Qed.

Lemma length_nodup_le (l : list string) :
  (length (nodup string_dec l) <= length l)%nat.
Proof.
  apply NoDup_incl_length; [apply NoDup_nodup|].
  intros x Hx. now apply nodup_In in Hx.
Qed.

Lemma neighborsOf_in_targets g node e :
  In e (neighborsOf g node) -> In (fst e) (targetUniverse g).
Proof.
  unfold neighborsOf, targetUniverse, allTargets. intros H.
  destruct (oget g node) as [m|] eqn:E; [|destruct H].
  apply nodup_In. apply in_flat_map. exists (node, m). split.
  - now apply oget_In.
  - simpl. unfold okeys. now apply in_map.
Qed.

Lemma incomingOf_in_sources node g acc e :
  In e (incomingOf node g acc) -> In e acc \/ In (fst e) (okeys g).
Proof.
  revert acc. induction g as [|[source targets] g IH]; intros acc; simpl; auto.
  destruct (oget targets node).
  - intros H. apply IH in H. destruct H as [H|H]; [|tauto].
    destruct e as [k v]. apply In_oset in H. destruct H as [H|H]; [|tauto].
    inversion H. subst. simpl. auto.
  - intros H. apply IH in H. tauto.
Qed.

Section SearchTermination.
Variable settings : Settings.
Variable graph : EnhancedGraph.

Lemma visitNeighbors_measure universe entries cur q v :
  NoDup universe ->
  (forall e, In e entries -> In (fst e) universe) ->
  (length (fst (visitNeighbors entries cur q v))
   + unvisitedIn universe (shas (snd (visitNeighbors entries cur q v)))
   = length q + unvisitedIn universe (shas v))%nat.
Proof.
  intros Hnd. revert q v. induction entries as [|[neighbor ci] rest IH];
    intros q v Hin; simpl; auto.
  assert (Hrest : forall e, In e rest -> In (fst e) universe)
    by (intros e He; apply Hin; now right).
  destruct (shas v neighbor) eqn:E; [now apply IH|].
  rewrite IH by auto. rewrite length_app. simpl.
  rewrite <- (unvisitedIn_add universe (shas v) (shas (sadd v neighbor)) neighbor);
    auto; try lia.
  - apply (Hin (neighbor, ci)). now left.
  - intros y. apply shas_sadd.
Qed.

Lemma bfsLoop_total fuel end_ q v :
  (length q + unvisitedIn (targetUniverse graph) (shas v) < fuel)%nat ->
  exists r, bfsLoop settings graph fuel end_ q v = Ok r.
Proof.
  revert q v. induction fuel as [|fuel IH]; intros q v Hm; [lia|].
  simpl. destruct q as [|cur q']; [eauto|].
  simpl in Hm.
  destruct (maxPathLength settings <=? qdistance cur); [apply IH; lia|].
  destruct (String.eqb (qnode cur) end_); [eauto|].
  pose proof (visitNeighbors_measure (targetUniverse graph)
                (neighborsOf graph (qnode cur)) cur q' v
                (NoDup_nodup _ _)
                (neighborsOf_in_targets graph (qnode cur))) as Hv.
  destruct (visitNeighbors (neighborsOf graph (qnode cur)) cur q' v) as [q'' v'].
  simpl in Hv. apply IH. lia.
Qed.

Lemma findShortestPathOriginal_total start end_ :
  exists r, findShortestPathOriginal settings graph start end_ = Ok r.
Proof.
  unfold findShortestPathOriginal, bfsFuel. apply bfsLoop_total. simpl.
  pose proof (unvisitedIn_le (targetUniverse graph) (shas [start])).
  pose proof (length_nodup_le (allTargets graph)).
  unfold targetUniverse in *. lia.
Qed.

Lemma expandNeighbors_ok universe root other node nodeInfo entries mine m :
  NoDup universe ->
  (forall e, In e entries -> In (fst e) universe) ->
  frontierOk root mine ->
  oget (visited mine) node = Some nodeInfo ->
  frontierOk root (fst (expandNeighbors other node (vdistance nodeInfo) entries mine m)) /\
  (length (queue mine)
   <= length (queue (fst (expandNeighbors other node (vdistance nodeInfo)
                            entries mine m))))%nat /\
  (length (queue (fst (expandNeighbors other node (vdistance nodeInfo) entries mine m)))
   + unvisitedIn universe
       (ohas (visited (fst (expandNeighbors other node (vdistance nodeInfo)
                              entries mine m))))
   = length (queue mine) + unvisitedIn universe (ohas (visited mine)))%nat.
Proof.
  intros Hnd. revert mine m. induction entries as [|[neighbor ci] rest IH];
    intros mine m Hin Hok Hnode; simpl; auto.
  assert (Hrest : forall e, In e rest -> In (fst e) universe)
    by (intros e He; apply Hin; now right).
  destruct (ohas (visited mine) neighbor) eqn:E; [now apply IH|].
  assert (Hnone : oget (visited mine) neighbor = None).
  { unfold ohas in E. destruct (oget (visited mine) neighbor); congruence. }
  assert (Hne : neighbor <> node) by congruence.
  set (info' := {| prev := node; vdistance := vdistance nodeInfo + 1;
                   vconnectionInfo := Some ci |}).
  set (mine' := {| visited := oset (visited mine) neighbor info';
                   queue := queue mine ++ [neighbor] |}).
  destruct Hok as [Hq Hv].
  assert (Hok' : frontierOk root mine').
  { split; simpl.
    - intros n Hn. rewrite ohas_oset. apply in_app_or in Hn.
      destruct Hn as [Hn|[Hn|[]]].
      + rewrite (Hq n Hn). apply orb_true_r.
      + subst. now rewrite String.eqb_refl.
    - assert (Hlen' : length (oset (visited mine) neighbor info')
                      = S (length (visited mine))).
      { rewrite (oset_absent _ _ _ Hnone), length_app. simpl. lia. }
      intros n info. rewrite oget_oset, Hlen'.
      destruct (Hv node nodeInfo Hnode) as [H0 [Hlen _]].
      destruct (String.eqb neighbor n) eqn:En.
      + intros Hi. inversion Hi. subst info. simpl.
        split; [lia|]. split; [lia|]. right. exists nodeInfo.
        rewrite oget_oset_ne by auto. split; [auto|lia].
      + intros Hi. destruct (Hv n info Hi) as [Hi0 [Hilen Hp]].
        split; [auto|]. split; [lia|]. destruct Hp as [Hp|[pinfo [Hp Hd]]]; auto.
        right. exists pinfo. split; auto.
        rewrite oget_oset_ne; auto. congruence. }
  assert (Hnode' : oget (visited mine') node = Some nodeInfo).
  { simpl. rewrite oget_oset_ne; auto. }
  destruct (IH mine' (recordMeeting other neighbor (vdistance nodeInfo) m)
              Hrest Hok' Hnode') as [Hok'' [Hle Hm]].
  split; auto.
  unfold mine' in Hle, Hm. simpl in Hle, Hm. rewrite length_app in Hle, Hm.
  simpl in Hle, Hm.
  pose proof (unvisitedIn_add universe (ohas (visited mine))
                (ohas (oset (visited mine) neighbor info')) neighbor Hnd
                (Hin (neighbor, ci) (or_introl eq_refl)) E
                (fun y => ohas_oset (visited mine) neighbor y info')) as Hadd.
  unfold mine'. split; lia.
Qed.

Lemma searchLevel_ok universe root neighborsFor other levelSize mine m :
  NoDup universe ->
  (forall node e, In e (neighborsFor node) -> In (fst e) universe) ->
  frontierOk root mine ->
  (levelSize <= length (queue mine))%nat ->
  exists mine' m',
    searchLevel settings neighborsFor other levelSize mine m = Ok (mine', m') /\
    frontierOk root mine' /\
    (length (queue mine') + unvisitedIn universe (ohas (visited mine')) + levelSize
     = length (queue mine) + unvisitedIn universe (ohas (visited mine)))%nat.
Proof.
  intros Hnd Hnf. revert mine m.
  induction levelSize as [|n IH]; intros mine m Hok Hlen.
  - exists mine, m. simpl. split; [reflexivity|]. split; [assumption|lia].
  - simpl. destruct (queue mine) as [|node q'] eqn:Eq; [simpl in Hlen; lia|].
    assert (Hhas : ohas (visited mine) node = true).
    { apply Hok. rewrite Eq. now left. }
    unfold ohas in Hhas.
    destruct (oget (visited mine) node) as [nodeInfo|] eqn:Enode; [|discriminate].
    set (mine1 := {| visited := visited mine; queue := q' |}).
    assert (Hok1 : frontierOk root mine1).
    { destruct Hok as [Hq Hv]. split; auto. simpl. intros x Hx. apply Hq.
      rewrite Eq. now right. }
    simpl in Hlen.
    destruct (orb (maxPathLength settings <=? vdistance nodeInfo)
                  (geBound (vdistance nodeInfo) m)).
    + destruct (IH mine1 m Hok1) as [mine' [m' [Hrun [Hok' Hm]]]];
        [simpl; lia|].
      exists mine', m'. simpl in Hm. split; [assumption|]. split; [assumption|simpl; lia].
    + destruct (expandNeighbors_ok universe root other node nodeInfo
                  (neighborsFor node) mine1 m Hnd (Hnf node) Hok1 Enode)
        as [Hok2 [Hle2 Hm2]].
      destruct (expandNeighbors other node (vdistance nodeInfo)
                  (neighborsFor node) mine1 m) as [mine2 m2].
      simpl in Hok2, Hle2, Hm2.
      destruct (IH mine2 m2 Hok2) as [mine' [m' [Hrun [Hok' Hm]]]]; [lia|].
      exists mine', m'. split; [assumption|]. split; [assumption|simpl; lia].
Qed.

Lemma biLoop_total start end_ fuel st :
  frontierOk start (forward st) ->
  frontierOk end_ (backward st) ->
  (biMeasure graph st < fuel)%nat ->
  exists st',
    biLoop settings graph fuel st = Ok st' /\
    frontierOk start (forward st') /\ frontierOk end_ (backward st').
Proof.
  revert st. induction fuel as [|fuel IH]; intros st Hf Hb Hm; [lia|].
  simpl. destruct (queue (forward st)) as [|fn fq] eqn:Efq; [eauto|].
  destruct (queue (backward st)) as [|bn bq] eqn:Ebq; [eauto|].
  rewrite <- Efq, <- Ebq. unfold biMeasure in Hm.
  destruct (length (queue (forward st)) <=? length (queue (backward st)))%nat.
  - destruct (searchLevel_ok (targetUniverse graph) start (neighborsOf graph)
                (visited (backward st)) (length (queue (forward st)))
                (forward st) (meeting st)) as [mine' [m' [Hrun [Hok' Hm']]]];
      auto.
    { apply NoDup_nodup. }
    { intros node e. apply neighborsOf_in_targets. }
    unfold forwardLevel. rewrite Hrun. simpl.
    set (st' := {| forward := mine'; backward := backward st; meeting := m' |}).
    destruct (shouldBreak st'); [eauto|].
    apply IH; auto. unfold biMeasure. simpl.
    rewrite Efq in Hm', Hm. simpl in Hm', Hm. lia.
  - destruct (searchLevel_ok (sourceUniverse graph) end_
                (fun node => incomingOf node graph [])
                (visited (forward st)) (length (queue (backward st)))
                (backward st) (meeting st)) as [mine' [m' [Hrun [Hok' Hm']]]];
      auto.
    { apply NoDup_nodup. }
    { intros node e He. apply incomingOf_in_sources in He.
      destruct He as [[]|He]. now apply nodup_In. }
    unfold backwardLevel. rewrite Hrun. simpl.
    set (st' := {| forward := forward st; backward := mine'; meeting := m' |}).
    destruct (shouldBreak st'); [eauto|].
    apply IH; auto. unfold biMeasure. simpl.
    rewrite Ebq in Hm', Hm. simpl in Hm', Hm. lia.
Qed.

Lemma rootFrontier_ok root : frontierOk root (rootFrontier root).
Proof.
  split; simpl.
  - intros n [Hn|[]]. subst. unfold ohas. simpl. now rewrite String.eqb_refl.
  - intros n info. destruct (String.eqb root n) eqn:E; [|discriminate].
    intros H. inversion H. simpl. apply String.eqb_eq in E.
    split; [lia|]. split; [lia|]. now left.
Qed.

Lemma forwardHalf_total root fr fuel current p c :
  frontierOk root fr ->
  (match oget (visited fr) current with
   | Some info => S (Z.to_nat (vdistance info))
   | None => O
   end < fuel)%nat ->
  exists r, forwardHalf fuel root (visited fr) current p c = Ok r.
Proof.
  intros [_ Hv]. revert current p c.
  induction fuel as [|fuel IH]; intros current p c Hm; [lia|].
  simpl. destruct (String.eqb current root) eqn:E; [eauto|].
  destruct (oget (visited fr) current) as [info|] eqn:Ei; [|eauto].
  apply IH. destruct (Hv current info Ei) as [H0 [_ [Hr|[pinfo [Hp Hd]]]]].
  - subst. now rewrite String.eqb_refl in E.
  - rewrite Hp. destruct (Hv _ _ Hp) as [Hp0 _]. lia.
Qed.

Lemma backwardHalf_total root fr fuel current p c :
  frontierOk root fr ->
  (match oget (visited fr) current with
   | Some info => S (Z.to_nat (vdistance info))
   | None => O
   end < fuel)%nat ->
  exists r, backwardHalf fuel root (visited fr) current p c = Ok r.
Proof.
  intros [_ Hv]. revert current p c.
  induction fuel as [|fuel IH]; intros current p c Hm; [lia|].
  simpl. destruct (String.eqb current root) eqn:E; [eauto|].
  destruct (oget (visited fr) current) as [info|] eqn:Ei; [|eauto].
  assert (Hnext : (match oget (visited fr) (prev info) with
                   | Some i => S (Z.to_nat (vdistance i))
                   | None => O
                   end < fuel)%nat).
  { destruct (Hv current info Ei) as [H0 [_ [Hr|[pinfo [Hp Hd]]]]].
    - subst. now rewrite String.eqb_refl in E.
    - rewrite Hp. destruct (Hv _ _ Hp) as [Hp0 _]. lia. }
  destruct (String.eqb (prev info) root); now apply IH.
Qed.

Lemma half_fuel_enough root fr current :
  frontierOk root fr ->
  (match oget (visited fr) current with
   | Some info => S (Z.to_nat (vdistance info))
   | None => O
   end < S (length (visited fr)))%nat.
Proof.
  intros [_ Hv]. destruct (oget (visited fr) current) as [info|] eqn:E; [|lia].
  destruct (Hv current info E) as [_ [Hlen _]]. lia.
Qed.

Lemma findShortestPathBidirectional_total start end_ :
  exists r, findShortestPathBidirectional settings graph start end_ = Ok r.
Proof.
  unfold findShortestPathBidirectional.
  destruct (biLoop_total start end_ (biFuel graph) (initialBiState start end_))
    as [st [Hrun [Hf Hb]]].
  - apply rootFrontier_ok.
  - apply rootFrontier_ok.
  - unfold biMeasure, biFuel, initialBiState. simpl.
    pose proof (unvisitedIn_le (targetUniverse graph)
                  (ohas (visited (rootFrontier start)))) as H1.
    pose proof (unvisitedIn_le (sourceUniverse graph)
                  (ohas (visited (rootFrontier end_)))) as H2.
    pose proof (length_nodup_le (allTargets graph)) as H3.
    pose proof (length_nodup_le (okeys graph)) as H4.
    unfold targetUniverse, sourceUniverse, okeys in *.
    rewrite length_map in H4. simpl in *. lia.
  - rewrite Hrun. cbn [rbind]. destruct (meeting st) as [[meetingNode sd]|]; [|eauto].
    destruct (forwardHalf_total start (forward st) _ meetingNode [] [] Hf
                (half_fuel_enough start (forward st) meetingNode Hf)) as [fwd Hfwd].
    destruct (backwardHalf_total end_ (backward st) _ meetingNode [] [] Hb
                (half_fuel_enough end_ (backward st) meetingNode Hb)) as [bwd Hbwd].
    rewrite Hfwd. cbn [rbind]. rewrite Hbwd. cbn [rbind]. eauto.
Qed.

Lemma findShortestPath_total start end_ :
  exists r, findShortestPath settings graph start end_ = Ok r.
Proof.
  unfold findShortestPath.
  destruct (String.eqb start end_); [eauto|].
  destruct (orb (negb (ohas graph start)) (negb (ohas graph end_))); [eauto|].
  destruct (orb _ _).
  - apply findShortestPathOriginal_total.
  - apply findShortestPathBidirectional_total.
Qed.

End SearchTermination.

(** ** Alternative paths (C6) *)

Lemma exploreNeighbors_total recurse entries currentPath cts maxPaths st :
  (forall neighbor c s,
     exists s', recurse neighbor (currentPath ++ [neighbor]) c s = Ok s' /\
       Z.of_nat (length (dpaths s')) <= Z.max maxPaths (Z.of_nat (length (dpaths s))) /\
       incl (dpaths s) (dpaths s')) ->
  exists st',
    exploreNeighbors recurse entries currentPath cts st = Ok st' /\
    Z.of_nat (length (dpaths st')) <= Z.max maxPaths (Z.of_nat (length (dpaths st))) /\
    incl (dpaths st) (dpaths st').
Proof.
  intros Hrec. revert st. induction entries as [|[neighbor ci] rest IH]; intros st.
  - exists st. simpl. split; [reflexivity|]. split; [lia|apply incl_refl].
  - simpl. destruct (shas (dvisited st) neighbor); [apply IH|].
    destruct (Hrec neighbor (cts ++ [ci]) st) as [s1 [Hrun [Hb Hi]]].
    rewrite Hrun. cbn [rbind].
    destruct (IH s1) as [s2 [Hrun2 [Hb2 Hi2]]]. exists s2.
    split; [assumption|]. split; [lia|]. eapply incl_tran; eauto.
Qed.

(** The depth of the recursion is bounded by the path-length ceiling: with
    fuel beyond [maxLen + 1 - length currentPath] the search returns; it
    keeps the paths it was given and never holds more than [maxPaths] paths
    unless it started with more. *)
Lemma findAlternativePaths_total rnd fuel g currentNode endNode currentPath cts
  maxPaths maxLen st :
  (1 <= fuel)%nat ->
  maxLen + 2 <= Z.of_nat fuel + Z.of_nat (length currentPath) ->
  exists st',
    findAlternativePaths rnd fuel g currentNode endNode currentPath cts
      maxPaths maxLen st = Ok st' /\
    Z.of_nat (length (dpaths st')) <= Z.max maxPaths (Z.of_nat (length (dpaths st))) /\
    incl (dpaths st) (dpaths st').
Proof.
  revert currentNode currentPath cts st.
  induction fuel as [|fuel IH]; intros currentNode currentPath cts st H1 Hfuel; [lia|].
  cbn [findAlternativePaths].
  destruct (orb (maxPaths <=? Z.of_nat (length (dpaths st)))
                (maxLen <? Z.of_nat (length currentPath))) eqn:G.
  { exists st. split; [reflexivity|]. split; [lia|apply incl_refl]. }
  apply orb_false_elim in G. destruct G as [G1 G2].
  apply Z.leb_gt in G1. apply Z.ltb_ge in G2.
  destruct (String.eqb currentNode endNode).
  { destruct (isDuplicatePath (dpaths st) currentPath).
    - exists st. split; [reflexivity|]. split; [lia|apply incl_refl].
    - eexists. split; [reflexivity|]. simpl. split.
      + rewrite length_app. simpl. lia.
      + apply incl_appl, incl_refl. }
  match goal with
  | |- context [exploreNeighbors ?r ?e ?p ?c ?s0] =>
      destruct (exploreNeighbors_total r e p c maxPaths s0) as [st2 [Hrun [Hb Hi]]]
  end.
  - intros neighbor c s. apply IH; [lia|].
    rewrite length_app. simpl. lia.
  - rewrite Hrun. cbn [rbind]. eexists. split; [reflexivity|]. simpl in *. auto.
Qed.

Lemma In_insertSorted_intro {A : Type} (before : A -> A -> bool) (x y : A) (l : list A) :
  y = x \/ In y l -> In y (insertSorted before x l).
Proof.
  induction l as [|z l IH]; simpl.
  - intros [H|[]]. left. congruence.
  - destruct (before x z); simpl; intros [H|[H|H]]; auto.
Qed.

Lemma In_stableSort_intro {A : Type} (before : A -> A -> bool) (y : A) (l : list A) :
  In y l -> In y (stableSort before l).
Proof.
  unfold stableSort. induction l as [|x l IH]; simpl; auto.
  intros [H|H]; apply In_insertSorted_intro; auto.
Qed.

Lemma length_insertSorted {A : Type} (before : A -> A -> bool) x (l : list A) :
  length (insertSorted before x l) = S (length l).
Proof.
  induction l as [|y l IH]; simpl; auto.
  destruct (before x y); simpl; auto.
Qed.

Lemma length_stableSort {A : Type} (before : A -> A -> bool) (l : list A) :
  length (stableSort before l) = length l.
Proof.
  unfold stableSort. induction l as [|x l IH]; simpl; auto.
  now rewrite length_insertSorted, IH.
Qed.

Lemma Forall_insertSorted {A : Type} (before : A -> A -> bool) (P : A -> Prop)
  x (l : list A) :
  P x -> Forall P l -> Forall P (insertSorted before x l).
Proof.
  intros Hx Hl. induction Hl as [|y l Hy Hl IH]; simpl.
  - constructor; auto.
  - destruct (before x y); constructor; auto.
Qed.

Lemma insertSorted_sorted x l :
  StronglySorted shorterOrEqual l ->
  StronglySorted shorterOrEqual (insertSorted byPathLength x l).
Proof.
  intros Hs. induction Hs as [|y l Hs IH Hall]; simpl.
  - constructor; constructor.
  - destruct (byPathLength x y) eqn:E.
    + apply Nat.leb_le in E. constructor.
      * constructor; auto.
      * constructor; auto.
        eapply Forall_impl; [|exact Hall]. unfold shorterOrEqual in *.
        intros z Hz. lia.
    + apply Nat.leb_gt in E. constructor; auto.
      apply Forall_insertSorted; auto. unfold shorterOrEqual. lia.
Qed.

Lemma stableSort_sorted l :
  StronglySorted shorterOrEqual (stableSort byPathLength l).
Proof.
  unfold stableSort. induction l as [|x l IH]; simpl.
  - constructor.
  - now apply insertSorted_sorted.
Qed.

(** C6, as stated, fails when [maxPaths] is zero: a route exists, so the
    shortest path is returned and the result holds one path, not at most
    zero. *)
Lemma findAllPaths_maxPaths_zero :
  exists paths,
    findAllPaths DEFAULT_SETTINGS (fun _ => O) diamond "A" "C" 0 = Ok paths /\
    length paths = 1%nat /\
    ~ (Z.of_nat (length paths) <= 0).
Proof.
  eexists. split; [vm_compute; reflexivity|]. split; [reflexivity|simpl; lia].
Qed.

(** C6, amended: [findAllPaths] always returns; the sequence it returns
    holds at most [max(1, maxPaths)] results and is in ascending order of
    path length, so that no result is shorter than the first; it is empty
    when [findShortestPath] finds no route and holds the result of
    [findShortestPath] otherwise. *)
Theorem findAllPaths_bounded_sorted :
  forall (settings : Settings) (rnd : nat -> nat) (g : EnhancedGraph)
         (start end_ : string) (maxPaths : Z),
    exists paths shortest,
      findAllPaths settings rnd g start end_ maxPaths = Ok paths /\
      findShortestPath settings g start end_ = Ok shortest /\
      Z.of_nat (length paths) <= Z.max 1 maxPaths /\
      StronglySorted shorterOrEqual paths /\
      (distance shortest = -1 -> paths = []) /\
      (distance shortest <> -1 -> In shortest paths).
Proof.
  intros settings rnd g start end_ maxPaths. unfold findAllPaths.
  destruct (findShortestPath_total settings g start end_) as [shortest Hs].
  rewrite Hs. cbn [rbind].
  destruct (distance shortest =? -1) eqn:Ed.
  { apply Z.eqb_eq in Ed. exists [], shortest.
    split; [reflexivity|]. split; [reflexivity|]. split; [simpl; lia|].
    split; [constructor|]. split; [reflexivity|congruence]. }
  apply Z.eqb_neq in Ed.
  destruct (maxPaths <=? 1) eqn:Emax.
  { exists [shortest], shortest.
    split; [reflexivity|]. split; [reflexivity|]. split; [simpl; lia|].
    split; [constructor; constructor|]. split; [congruence|].
    intros _. now left. }
  apply Z.leb_gt in Emax.
  destruct (findAlternativePaths_total rnd (dfsFuel settings)
              (createAltPathGraph g (path shortest)) start end_ [start] []
              maxPaths (maxPathLength settings)
              {| dvisited := [start]; dpaths := [shortest]; ddraws := O |})
    as [st [Hrun [Hb Hi]]].
  - unfold dfsFuel. lia.
  - unfold dfsFuel. simpl. lia.
  - rewrite Hrun. cbn [rbind]. exists (stableSort byPathLength (dpaths st)), shortest.
    split; [reflexivity|]. split; [reflexivity|]. split.
    + rewrite length_stableSort. simpl in Hb. lia.
    + split; [apply stableSort_sorted|]. split; [congruence|].
      intros _. apply In_stableSort_intro. apply Hi. now left.
Qed.

(** * Further properties *)

(** ** Graphs as JavaScript objects: distinct keys *)

Lemma NoDup_distinctb (l : list string) : distinctb l = true -> NoDup l.
Proof.
  induction l as [|x l IH]; simpl; intros H; constructor.
  - apply andb_prop in H. destruct H as [H _]. intros Hin.
    apply shas_In in Hin. unfold shas in Hin. rewrite Hin in H. discriminate.
  - apply IH. apply andb_prop in H. tauto.
Qed.

(** ** The nodes of the built graph *)

Lemma NoDup_okeys_oset {V : Type} (m : omap V) k v :
  NoDup (okeys m) -> NoDup (okeys (oset m k v)).
Proof.
  intros H. destruct (ohas m k) eqn:E.
  - now rewrite okeys_oset_present.
  - assert (Hn : oget m k = None).
    { unfold ohas in E. destruct (oget m k); congruence. }
    rewrite (oset_absent m k v Hn). unfold okeys. rewrite map_app. simpl.
    apply NoDup_app_remove_l with (l := []). simpl.
    apply Permutation_NoDup with (l := k :: map fst m).
    + apply Permutation_cons_append.
    + constructor; auto. intros Hin.
      apply (ohas_In_keys m k) in Hin. congruence.
Qed.

Lemma initGraph_NoDup fs (acc : EnhancedGraph) :
  NoDup (okeys acc) ->
  NoDup (okeys (fold_left (fun g f => oset g (fpath f) []) fs acc)).
Proof.
  revert acc. induction fs as [|f fs IH]; intros acc H; simpl; auto.
  apply IH. now apply NoDup_okeys_oset.
Qed.

Lemma buildGraph_keys files settings g :
  buildGraph files settings = Ok g -> okeys g = okeys (initGraph files).
Proof.
  unfold buildGraph. intros H.
  assert (Hf : okeys (buildForward files settings) = okeys (initGraph files)).
  { unfold buildForward. apply processBatches_keys. }
  destruct (includeBacklinks settings).
  - destruct (processBacklinks_spec files (buildForward files settings))
      as [g' [Hrun [Hk _]]].
    + apply buildForward_closed.
    + apply buildForward_resolvable.
    + rewrite Hrun in H. inversion H. subst. congruence.
  - inversion H. subst. auto.
Qed.

(** X1: the nodes of the graph that [buildGraph] returns are exactly the
    paths of the vault's documents, each listed once. *)
Theorem buildGraph_nodes_are_documents :
  forall (files : list TFile) (settings : Settings),
    exists g,
      buildGraph files settings = Ok g /\
      NoDup (okeys g) /\
      forall k, In k (okeys g) <-> exists f, In f files /\ fpath f = k.
Proof.
  intros files settings.
  destruct (buildGraph_closed files settings) as [g [Hrun _]].
  exists g. split; auto.
  rewrite (buildGraph_keys files settings g Hrun). split.
  - unfold initGraph. apply initGraph_NoDup. constructor.
  - intros k. rewrite <- ohas_In_keys. unfold initGraph. rewrite initGraph_has.
    simpl. rewrite existsb_exists. split.
    + intros [f [Hf E]]. apply String.eqb_eq in E. eauto.
    + intros [f [Hf E]]. exists f. split; auto. now apply String.eqb_eq.
Qed.

(** ** Where the edges of the built graph come from *)

Lemma setEdge_edgeOf g src tgt info g' u v :
  setEdge g src tgt info = Ok g' ->
  edgeOf g' u v
  = if andb (String.eqb src u) (String.eqb tgt v) then Some info else edgeOf g u v.
Proof.
  unfold setEdge. destruct (oget g src) as [m|] eqn:E; [|discriminate].
  intros H. inversion H. subst. now apply edgeOf_oset_edge.
Qed.

Lemma isEmptyString_false s : isEmptyString s = false -> s <> "".
Proof.
  unfold isEmptyString. intros H E. subst. simpl in H. discriminate.
Qed.

Lemma addLinks_edges files ty src captures g u v ci :
  edgeOf (fst (addLinks files ty src captures g)) u v = Some ci ->
  edgeOf g u v = Some ci \/
  (u = src /\
   exists capture linked,
     In capture captures /\ linkTextOf capture <> "" /\
     findNoteByName files (linkTextOf capture) = Some linked /\
     v = fpath linked /\ ci = linkInfo ty linked).
Proof.
  revert g. induction captures as [|capture rest IH]; intros g H; simpl in *; auto.
  assert (Hrest : edgeOf (fst (addLinks files ty src rest g)) u v = Some ci ->
            edgeOf g u v = Some ci \/
            (u = src /\
             exists capture0 linked,
               (capture = capture0 \/ In capture0 rest) /\
               linkTextOf capture0 <> "" /\
               findNoteByName files (linkTextOf capture0) = Some linked /\
               v = fpath linked /\ ci = linkInfo ty linked)).
  { intros H0. destruct (IH g H0) as [H1|[H1 [c [l [H2 H3]]]]]; auto.
    right. split; auto. exists c, l. tauto. }
  destruct (isEmptyString (linkTextOf capture)) eqn:Eempty; auto.
  destruct (findNoteByName files (linkTextOf capture)) as [linkedFile|] eqn:Efind; auto.
  destruct (setEdge g src (fpath linkedFile) (linkInfo ty linkedFile))
    as [g'| |] eqn:Eset; simpl in H; auto.
  destruct (IH g' H) as [H1|[H1 [c [l [H2 H3]]]]].
  - rewrite (setEdge_edgeOf _ _ _ _ _ u v Eset) in H1.
    destruct (andb (String.eqb src u) (String.eqb (fpath linkedFile) v)) eqn:E; auto.
    apply andb_prop in E. destruct E as [E1 E2].
    apply String.eqb_eq in E1, E2. subst. inversion H1. subst.
    right. split; auto. exists capture, linkedFile.
    split; [now left|]. split; [now apply isEmptyString_false|]. auto.
  - right. split; auto. exists c, l. tauto.
Qed.

Lemma tagMatchCounts_spec file fileTags allFiles acc e :
  In e (tagMatchCounts file fileTags allFiles acc) ->
  In e acc \/
  (In (fst (snd e)) allFiles /\
   fst e = fpath (fst (snd e)) /\
   fpath (fst (snd e)) <> fpath file /\
   snd (snd e) = commonTagsWith fileTags (tagsOf (fst (snd e))) /\
   snd (snd e) <> []).
Proof.
  revert acc. induction allFiles as [|otherFile rest IH]; intros acc H; simpl in *; auto.
  assert (Hrest : In e (tagMatchCounts file fileTags rest acc) ->
            In e acc \/
            ((otherFile = fst (snd e) \/ In (fst (snd e)) rest) /\
             fst e = fpath (fst (snd e)) /\
             fpath (fst (snd e)) <> fpath file /\
             snd (snd e) = commonTagsWith fileTags (tagsOf (fst (snd e))) /\
             snd (snd e) <> [])).
  { intros H0. destruct (IH acc H0) as [H1|H1]; auto. right. tauto. }
  destruct (String.eqb (fpath otherFile) (fpath file)) eqn:Eself; auto.
  destruct (tagsOf otherFile) as [|tg tgs] eqn:Etags; auto.
  destruct (commonTagsWith fileTags (tg :: tgs)) as [|c cs] eqn:Ecommon; auto.
  destruct (IH _ H) as [H1|H1]; [|right; tauto].
  destruct e as [k [o cm]].
  apply In_oset in H1. destruct H1 as [H1|H1]; auto.
  inversion H1. subst. right. simpl.
  apply String.eqb_neq in Eself.
  rewrite Etags, Ecommon. repeat split; auto. discriminate.
Qed.

Lemma sortedTagMatches_spec file allFiles n e :
  In e (firstn n (sortedTagMatches file allFiles)) ->
  In (fst (snd e)) allFiles /\
  fst e = fpath (fst (snd e)) /\
  fpath (fst (snd e)) <> fpath file /\
  snd (snd e) = commonTagsWith (tagsOf file) (tagsOf (fst (snd e))) /\
  snd (snd e) <> [].
Proof.
  intros H. apply In_firstn_In in H. unfold sortedTagMatches in H.
  apply In_stableSort in H. apply tagMatchCounts_spec in H.
  destruct H as [[]|H]. exact H.
Qed.

Lemma addTagEdges_edges src matches g u v ci :
  edgeOf (fst (addTagEdges src matches g)) u v = Some ci ->
  edgeOf g u v = Some ci \/
  (u = src /\
   exists e, In e matches /\ v = fpath (fst (snd e)) /\
             ci = tagInfo (fst (snd e)) (snd (snd e))).
Proof.
  revert g. induction matches as [|[k [otherFile common]] rest IH]; intros g H;
    simpl in *; auto.
  destruct (setEdge g src (fpath otherFile) (tagInfo otherFile common))
    as [g'| |] eqn:Eset; simpl in H; auto.
  destruct (IH g' H) as [H1|[H1 [e [H2 H3]]]].
  - rewrite (setEdge_edgeOf _ _ _ _ _ u v Eset) in H1.
    destruct (andb (String.eqb src u) (String.eqb (fpath otherFile) v)) eqn:E; auto.
    apply andb_prop in E. destruct E as [E1 E2].
    apply String.eqb_eq in E1, E2. subst. inversion H1. subst.
    right. split; auto. exists (k, (otherFile, common)). simpl. auto.
  - right. split; auto. exists e. tauto.
Qed.

Lemma processFile_edges_readable files settings g file u v ci :
  edgeOf (processFile files settings files g file) u v = Some ci ->
  edgeOf g u v = Some ci \/
  (u = fpath file /\
   forwardOrigin files settings file v ci /\
   (type ci = TAG -> In v (tagTargets files file))).
Proof.
  unfold processFile. destruct (negb (readable file)); auto.
  destruct (addLinks files DIRECT (fpath file) (wikiLinkMatches file) g)
    as [g1 threw1] eqn:E1.
  assert (H1 : forall ci0 v0, edgeOf g1 u v0 = Some ci0 ->
            edgeOf g u v0 = Some ci0 \/
            (u = fpath file /\
             forwardOrigin files settings file v0 ci0 /\
             (type ci0 = TAG -> In v0 (tagTargets files file)))).
  { intros ci0 v0 H.
    pose proof (addLinks_edges files DIRECT (fpath file) (wikiLinkMatches file)
                  g u v0 ci0) as Hl.
    rewrite E1 in Hl. simpl in Hl.
    destruct (Hl H) as [H0|[H0 [c [l [Hc [Hne [Hf [Hv Hci]]]]]]]]; auto.
    right. split; auto. split.
    - now apply (origin_link files settings file v0 ci0 c l).
    - subst ci0. simpl. discriminate. }
  destruct threw1; [intros H; exact (H1 _ _ H)|].
  destruct (if includeEmbeddedLinks settings
            then addLinks files EMBEDDED (fpath file) (embeddedLinkMatches file) g1
            else (g1, false)) as [g2 threw2] eqn:E2.
  assert (H2 : forall ci0 v0, edgeOf g2 u v0 = Some ci0 ->
            edgeOf g u v0 = Some ci0 \/
            (u = fpath file /\
             forwardOrigin files settings file v0 ci0 /\
             (type ci0 = TAG -> In v0 (tagTargets files file)))).
  { intros ci0 v0 H. destruct (includeEmbeddedLinks settings) eqn:Eemb.
    - pose proof (addLinks_edges files EMBEDDED (fpath file)
                    (embeddedLinkMatches file) g1 u v0 ci0) as Hl.
      rewrite E2 in Hl. simpl in Hl.
      destruct (Hl H) as [H0|[H0 [c [l [Hc [Hne [Hf [Hv Hci]]]]]]]]; auto.
      right. split; auto. split.
      + now apply (origin_embedded files settings file v0 ci0 c l).
      + subst ci0. simpl. discriminate.
    - inversion E2. subst. auto. }
  destruct threw2; [intros H; exact (H2 _ _ H)|].
  destruct (includeTagsInAnalysis settings) eqn:Etags; simpl;
    [|intros H; exact (H2 _ _ H)].
  destruct (negb (Nat.eqb (length (tagsOf file)) 0)); simpl;
    [|intros H; exact (H2 _ _ H)].
  intros H. apply addTagEdges_edges in H.
  destruct H as [H|[H0 [e [He [Hv Hci]]]]]; [exact (H2 _ _ H)|].
  right. split; auto.
  pose proof (sortedTagMatches_spec file files MAX_TAG_MATCHES e He)
    as [Hin [Hk [Hself [Hcommon Hne]]]].
  split.
  - apply (origin_tag files settings file v ci (fst (snd e))); auto.
    + congruence.
    + now rewrite <- Hcommon.
  - intros _. unfold tagTargets. subst v.
    apply (in_map (fun e0 => fpath (fst (snd e0)))). exact He.
Qed.

(** The edges after the pass for [file]: the edges before it and, from
    [file] only, the ones the pass extracts. *)
Lemma processFile_edges files settings g file u v ci :
  edgeOf (processFile files settings files g file) u v = Some ci ->
  edgeOf g u v = Some ci \/
  (u = fpath file /\ readable file = true /\
   forwardOrigin files settings file v ci /\
   (type ci = TAG -> In v (tagTargets files file))).
Proof.
  intros H. destruct (readable file) eqn:Eread.
  - apply processFile_edges_readable in H. tauto.
  - left. unfold processFile in H. rewrite Eread in H. exact H.
Qed.

Lemma fold_processFile_edges files settings batch g u v ci :
  edgeOf (fold_left (processFile files settings files) batch g) u v = Some ci ->
  edgeOf g u v = Some ci \/
  exists file,
    In file batch /\ u = fpath file /\ readable file = true /\
    forwardOrigin files settings file v ci /\
    (type ci = TAG -> In v (tagTargets files file)).
Proof.
  revert g. induction batch as [|file rest IH]; intros g H; simpl in *; auto.
  destruct (IH _ H) as [H1|[f [Hf H1]]].
  - apply processFile_edges in H1. destruct H1 as [H1|H1]; auto.
    right. exists file. split; [now left|]. exact H1.
  - right. exists f. split; [now right|]. exact H1.
Qed.

Lemma edgeOf_initGraph fs u v : edgeOf (initGraph fs) u v = None.
Proof.
  unfold edgeOf. destruct (oget (initGraph fs) u) as [m|] eqn:E; auto.
  assert (Hm : m = []).
  { apply (initGraph_empty_entries fs []) with (k := u); [|exact E].
    intros k m0 H. discriminate. }
  now subst.
Qed.

Lemma backlinkTargets_edges files source targets g g' :
  backlinkTargets files source targets g = Ok g' ->
  (forall u v ci, edgeOf g u v = Some ci -> edgeOf g' u v = Some ci) /\
  (forall u v ci, edgeOf g' u v = Some ci ->
     edgeOf g u v = Some ci \/
     (v = source /\ In u (okeys targets) /\ edgeOf g u source = None /\
      exists sourceFile,
        getAbstractFileByPath files source = Some sourceFile /\
        ci = backlinkInfo sourceFile)).
Proof.
  revert g. induction targets as [|[target info] rest IH]; intros g H; simpl in H.
  - inversion H. subst. split; auto.
  - destruct (oget g target) as [tm|] eqn:Etm; [|discriminate].
    assert (Hkeep : backlinkTargets files source rest g = Ok g' ->
              (forall u v ci, edgeOf g u v = Some ci -> edgeOf g' u v = Some ci) /\
              (forall u v ci, edgeOf g' u v = Some ci ->
                 edgeOf g u v = Some ci \/
                 (v = source /\ In u (okeys ((target, info) :: rest)) /\
                  edgeOf g u source = None /\
                  exists sourceFile,
                    getAbstractFileByPath files source = Some sourceFile /\
                    ci = backlinkInfo sourceFile))).
    { intros H0. destruct (IH g H0) as [Hmono Hnew]. split; auto.
      intros u v ci Hc. destruct (Hnew u v ci Hc) as [H1|[H1 [H2 H3]]]; auto.
      right. split; auto. split; auto. simpl. now right. }
    destruct (ohas tm source) eqn:Ehas; auto.
    destruct (getAbstractFileByPath files source) as [sourceFile|] eqn:Eres; auto.
    destruct (IH _ H) as [Hmono Hnew].
    assert (Hnone : edgeOf g target source = None).
    { unfold edgeOf. rewrite Etm. unfold ohas in Ehas.
      destruct (oget tm source); congruence. }
    split.
    + intros u v ci Hc. apply Hmono.
      rewrite (edgeOf_oset_edge g target tm source _ u v Etm).
      destruct (andb (String.eqb target u) (String.eqb source v)) eqn:E; auto.
      apply andb_prop in E. destruct E as [E1 E2].
      apply String.eqb_eq in E1, E2. subst. congruence.
    + intros u v ci Hc. destruct (Hnew u v ci Hc) as [H1|[H1 [H2 [H3 H4]]]].
      * rewrite (edgeOf_oset_edge g target tm source _ u v Etm) in H1.
        destruct (andb (String.eqb target u) (String.eqb source v)) eqn:E; auto.
        apply andb_prop in E. destruct E as [E1 E2].
        apply String.eqb_eq in E1, E2. subst. inversion H1. subst.
        right. split; auto. split; [simpl; now left|]. split; auto.
        exists sourceFile. auto.
      * right. split; auto. split; [simpl; now right|]. split; auto.
        rewrite (edgeOf_oset_edge g target tm source _ u source Etm) in H3.
        destruct (andb (String.eqb target u) (String.eqb source source));
          [discriminate|exact H3].
Qed.

Lemma backlinkSources_edges files base pending g g' :
  backlinkedFrom files base g ->
  backlinkSources files pending g = Ok g' ->
  backlinkedFrom files base g'.
Proof.
  revert g. induction pending as [|source rest IH]; intros g Hinv H; simpl in H.
  - inversion H. now subst.
  - destruct (backlinkTargets files source (neighborsOf g source) g)
      as [g1| |] eqn:E1; simpl in H; try discriminate.
    apply (IH g1); auto.
    destruct (backlinkTargets_edges files source _ g g1 E1) as [Hmono Hnew].
    destruct Hinv as [Hbase Horigin]. split.
    + intros u v ci Hc. apply Hmono. now apply Hbase.
    + intros u v ci Hc. destruct (Hnew u v ci Hc) as [H1|[H1 [H2 [H3 H4]]]].
      * now apply Horigin.
      * subst v. right.
        assert (Hsu : hasEdge g source u).
        { unfold hasEdge. rewrite edgeOf_neighborsOf.
          apply ohas_In_keys in H2. unfold ohas in H2.
          destruct (oget (neighborsOf g source) u); congruence. }
        assert (Hnone : edgeOf base u source = None).
        { destruct (edgeOf base u source) as [c|] eqn:E; auto.
          apply Hbase in E. congruence. }
        split; auto. split; auto.
        unfold hasEdge in Hsu.
        destruct (edgeOf g source u) as [c|] eqn:E; [|congruence].
        destruct (Horigin _ _ _ E) as [H5|[_ [H5 _]]].
        -- unfold hasEdge. congruence.
        -- unfold hasEdge in H5.
           destruct (edgeOf base u source) as [c'|] eqn:E'; congruence.
Qed.

Lemma buildForward_edges files settings u v ci :
  edgeOf (buildForward files settings) u v = Some ci ->
  exists file,
    In file files /\ u = fpath file /\ readable file = true /\
    forwardOrigin files settings file v ci /\
    (type ci = TAG -> In v (tagTargets files file)).
Proof.
  rewrite buildForward_sequential. intros H.
  apply fold_processFile_edges in H. destruct H as [H|H]; auto.
  rewrite edgeOf_initGraph in H. discriminate.
Qed.

Lemma buildGraph_edges files settings g s t info :
  buildGraph files settings = Ok g ->
  edgeOf g s t = Some info ->
  (exists file,
     In file files /\ s = fpath file /\ readable file = true /\
     forwardOrigin files settings file t info /\
     (type info = TAG -> In t (tagTargets files file))) \/
  (includeBacklinks settings = true /\
   edgeOf (buildForward files settings) s t = None /\
   hasEdge (buildForward files settings) t s /\
   exists sourceFile,
     getAbstractFileByPath files t = Some sourceFile /\
     info = backlinkInfo sourceFile).
Proof.
  unfold buildGraph. destruct (includeBacklinks settings) eqn:Eback; intros Hrun H.
  - assert (Hinv : backlinkedFrom files (buildForward files settings) g).
    { apply (backlinkSources_edges files _ (okeys (buildForward files settings))
               (buildForward files settings)); auto.
      split; auto. }
    destruct Hinv as [_ Horigin]. destruct (Horigin _ _ _ H) as [H1|H1].
    + left. now apply buildForward_edges.
    + right. tauto.
  - inversion Hrun. subst. left. now apply buildForward_edges.
Qed.

Lemma getAbstractFileByPath_spec files p f :
  getAbstractFileByPath files p = Some f -> In f files /\ fpath f = p.
Proof.
  unfold getAbstractFileByPath. intros H. apply find_some in H.
  destruct H as [H E]. apply String.eqb_eq in E. auto.
Qed.

(** X2: every edge of the graph that [buildGraph] returns is the trace of a
    link of its source document that resolves to its target, or of a tag
    the two documents share, or it is a backlink: the target document has such
    a link or tag towards the source, and the payload describes the target. *)
Theorem buildGraph_edge_origin :
  forall (files : list TFile) (settings : Settings),
    exists g,
      buildGraph files settings = Ok g /\
      forall s t info,
        edgeOf g s t = Some info ->
        (exists file,
           In file files /\ fpath file = s /\ readable file = true /\
           forwardOrigin files settings file t info) \/
        (includeBacklinks settings = true /\
         exists file info' sourceFile,
           In file files /\ fpath file = t /\ readable file = true /\
           forwardOrigin files settings file s info' /\
           In sourceFile files /\ fpath sourceFile = t /\
           info = backlinkInfo sourceFile).
Proof.
  intros files settings.
  destruct (buildGraph_closed files settings) as [g [Hrun _]].
  exists g. split; auto. intros s t info H.
  destruct (buildGraph_edges files settings g s t info Hrun H)
    as [[file [H1 [H2 [H3 [H4 _]]]]]|[H1 [_ [H2 [sf [H3 H4]]]]]].
  - left. exists file. auto.
  - right. split; auto. unfold hasEdge in H2.
    destruct (edgeOf (buildForward files settings) t s) as [info'|] eqn:E;
      [|congruence].
    destruct (buildForward_edges files settings t s info' E)
      as [file [H5 [H6 [H7 [H8 _]]]]].
    apply getAbstractFileByPath_spec in H3. destruct H3 as [H3 H3'].
    exists file, info', sf. repeat split; auto.
Qed.

(** ** Every resolved link becomes an edge *)

Lemma setEdge_ohas g src tgt info g' k :
  setEdge g src tgt info = Ok g' -> ohas g' k = ohas g k.
Proof.
  intros H. apply ohas_keys_eq. now apply (setEdge_keys g src tgt info g').
Qed.

Lemma addLinks_complete files ty src captures g :
  ohas g src = true ->
  snd (addLinks files ty src captures g) = false /\
  forall capture linked,
    In capture captures -> linkTextOf capture <> "" ->
    findNoteByName files (linkTextOf capture) = Some linked ->
    hasEdge (fst (addLinks files ty src captures g)) src (fpath linked).
Proof.
  revert g. induction captures as [|capture rest IH]; intros g Hhas; simpl.
  - split; auto. intros c l [].
  - destruct (isEmptyString (linkTextOf capture)) eqn:Eempty.
    + destruct (IH g Hhas) as [Hthrew Hedges]. split; auto.
      intros c l [Hc|Hc] Hne Hf; [|now apply (Hedges c l)].
      subst c. unfold isEmptyString in Eempty. apply String.eqb_eq in Eempty.
      contradiction.
    + destruct (findNoteByName files (linkTextOf capture)) as [linkedFile|] eqn:Efind.
      * assert (Hset : exists g', setEdge g src (fpath linkedFile)
                                   (linkInfo ty linkedFile) = Ok g').
        { unfold setEdge. unfold ohas in Hhas.
          destruct (oget g src); [eauto|discriminate]. }
        destruct Hset as [g' Hset]. rewrite Hset.
        assert (Hhas' : ohas g' src = true).
        { now rewrite (setEdge_ohas _ _ _ _ _ src Hset). }
        destruct (IH g' Hhas') as [Hthrew Hedges]. split; auto.
        intros c l [Hc|Hc] Hne Hf; [|now apply (Hedges c l)].
        subst c. rewrite Efind in Hf. inversion Hf. subst l.
        apply addLinks_keeps_edges. unfold hasEdge.
        rewrite (setEdge_edgeOf _ _ _ _ _ src (fpath linkedFile) Hset).
        rewrite !String.eqb_refl. discriminate.
      * destruct (IH g Hhas) as [Hthrew Hedges]. split; auto.
        intros c l [Hc|Hc] Hne Hf; [|now apply (Hedges c l)].
        subst c. congruence.
Qed.

Lemma processFile_links_complete files settings allFiles g file capture linked :
  ohas g (fpath file) = true ->
  readable file = true ->
  In capture (wikiLinkMatches file) \/
  (includeEmbeddedLinks settings = true /\ In capture (embeddedLinkMatches file)) ->
  linkTextOf capture <> "" ->
  findNoteByName files (linkTextOf capture) = Some linked ->
  hasEdge (processFile files settings allFiles g file) (fpath file) (fpath linked).
Proof.
  intros Hhas Hread Hcap Hne Hfind. unfold processFile. rewrite Hread. simpl.
  destruct (addLinks_complete files DIRECT (fpath file) (wikiLinkMatches file) g Hhas)
    as [Hthrew1 Hedges1].
  pose proof (addLinks_keys files DIRECT (fpath file) (wikiLinkMatches file) g) as Hk1.
  destruct (addLinks files DIRECT (fpath file) (wikiLinkMatches file) g)
    as [g1 threw1]. simpl in *. subst threw1.
  assert (Hhas1 : ohas g1 (fpath file) = true).
  { now rewrite (ohas_keys_eq g g1 (fpath file) Hk1). }
  assert (H2 : hasEdge
                 (fst (if includeEmbeddedLinks settings
                       then addLinks files EMBEDDED (fpath file)
                              (embeddedLinkMatches file) g1
                       else (g1, false))) (fpath file) (fpath linked) /\
               snd (if includeEmbeddedLinks settings
                    then addLinks files EMBEDDED (fpath file)
                           (embeddedLinkMatches file) g1
                    else (g1, false)) = false).
  { destruct (addLinks_complete files EMBEDDED (fpath file)
                (embeddedLinkMatches file) g1 Hhas1) as [Hthrew2 Hedges2].
    destruct Hcap as [Hcap|[Hemb Hcap]].
    - destruct (includeEmbeddedLinks settings); simpl.
      + split; auto. apply addLinks_keeps_edges. now apply (Hedges1 capture).
      + split; auto. now apply (Hedges1 capture).
    - rewrite Hemb. split; auto. now apply (Hedges2 capture). }
  destruct (if includeEmbeddedLinks settings
            then addLinks files EMBEDDED (fpath file) (embeddedLinkMatches file) g1
            else (g1, false)) as [g2 threw2]. simpl in H2.
  destruct H2 as [H2 Hthrew2]. subst threw2.
  destruct (andb _ _); auto. now apply addTagEdges_keeps_edges.
Qed.

Lemma fold_processFile_keeps_edges files settings allFiles batch g s t :
  hasEdge g s t ->
  hasEdge (fold_left (processFile files settings allFiles) batch g) s t.
Proof.
  revert g. induction batch as [|file rest IH]; intros g H; simpl; auto.
  apply IH. now apply processFile_keeps_edges.
Qed.

Lemma buildGraph_keeps_forward files settings g s t :
  buildGraph files settings = Ok g ->
  hasEdge (buildForward files settings) s t -> hasEdge g s t.
Proof.
  unfold buildGraph. destruct (includeBacklinks settings); intros Hrun H.
  - assert (Hinv : backlinkedFrom files (buildForward files settings) g).
    { apply (backlinkSources_edges files _ (okeys (buildForward files settings))
               (buildForward files settings)); auto.
      split; auto. }
    destruct Hinv as [Hbase _]. unfold hasEdge in *.
    destruct (edgeOf (buildForward files settings) s t) as [ci|] eqn:E;
      [|congruence].
    rewrite (Hbase _ _ _ E). discriminate.
  - inversion Hrun. now subst.
Qed.

(** X3: a wiki link (or, when embedded links are included, an embedded link)
    of a readable document whose text is not empty and resolves to a document
    gives an edge from the one to the other in the graph that [buildGraph]
    returns. *)
Theorem buildGraph_resolved_link_is_edge :
  forall (files : list TFile) (settings : Settings) (file linked : TFile)
         (capture : string),
    In file files ->
    readable file = true ->
    In capture (wikiLinkMatches file) \/
    (includeEmbeddedLinks settings = true /\ In capture (embeddedLinkMatches file)) ->
    linkTextOf capture <> "" ->
    findNoteByName files (linkTextOf capture) = Some linked ->
    exists g,
      buildGraph files settings = Ok g /\
      hasEdge g (fpath file) (fpath linked).
Proof.
  intros files settings file linked capture Hin Hread Hcap Hne Hfind.
  destruct (buildGraph_closed files settings) as [g [Hrun _]].
  exists g. split; auto.
  apply (buildGraph_keeps_forward files settings g _ _ Hrun).
  rewrite buildForward_sequential.
  assert (Hgen : forall l g0,
            In file l -> ohas g0 (fpath file) = true ->
            hasEdge (fold_left (processFile files settings files) l g0)
              (fpath file) (fpath linked)).
  { induction l as [|f l IH]; simpl; intros g0 Hl Hhas; [contradiction|].
    destruct Hl as [Hl|Hl].
    - subst f. apply fold_processFile_keeps_edges.
      now apply (processFile_links_complete files settings files g0 file capture).
    - apply IH; auto.
      now rewrite (ohas_keys_eq g0 _ (fpath file)
                     (processFile_keys files settings files g0 f)). }
  apply Hgen; auto.
  unfold initGraph. rewrite initGraph_has. simpl.
  apply existsb_exists. exists file. split; auto. apply String.eqb_refl.
Qed.

Lemma buildGraph_resolved_link_is_edge_witness :
  exists g,
    buildGraph vaultBefore DEFAULT_SETTINGS = Ok g /\
    hasEdge g (fpath noteA_linked) (fpath noteB).
Proof.
  apply (buildGraph_resolved_link_is_edge vaultBefore DEFAULT_SETTINGS
           noteA_linked noteB "B").
  - simpl. now left.
  - reflexivity.
  - left. simpl. now left.
  - vm_compute. discriminate.
  - reflexivity.
Defined.

(** ** The cap on tag edges *)

Lemma NoDup_map_injective {A B : Type} (f : A -> B) (l : list A) x y :
  NoDup (map f l) -> In x l -> In y l -> f x = f y -> x = y.
Proof.
  induction l as [|a l IH]; simpl; intros Hnd Hx Hy E; [contradiction|].
  inversion Hnd as [|? ? Hnotin Hnd']. subst.
  destruct Hx as [Hx|Hx], Hy as [Hy|Hy]; subst; auto.
  - exfalso. apply Hnotin. rewrite E. now apply in_map.
  - exfalso. apply Hnotin. rewrite <- E. now apply in_map.
Qed.

Lemma tagTargets_length files file : (length (tagTargets files file) <= 50)%nat.
Proof.
  unfold tagTargets. rewrite length_map. apply firstn_le_length.
Qed.

(** X4: in a vault whose documents have distinct paths, the tag edges of a
    document in the graph that [buildGraph] returns go to at most fifty
    documents. *)
Theorem buildGraph_tag_edges_capped :
  forall (files : list TFile) (settings : Settings),
    NoDup (map fpath files) ->
    exists g,
      buildGraph files settings = Ok g /\
      forall s, exists targets,
        (length targets <= 50)%nat /\
        forall t info,
          edgeOf g s t = Some info -> type info = TAG -> In t targets.
Proof.
  intros files settings Hnd.
  destruct (buildGraph_closed files settings) as [g [Hrun _]].
  exists g. split; auto. intros s.
  destruct (getAbstractFileByPath files s) as [file|] eqn:Efile.
  - apply getAbstractFileByPath_spec in Efile. destruct Efile as [Hin Hpath].
    exists (tagTargets files file). split; [apply tagTargets_length|].
    intros t info H Hty.
    destruct (buildGraph_edges files settings g s t info Hrun H)
      as [[file' [H1 [H2 [_ [_ H3]]]]]|[_ [_ [_ [sf [_ H3]]]]]].
    + assert (file' = file).
      { apply (NoDup_map_injective fpath files); auto. congruence. }
      subst file'. auto.
    + subst info. simpl in Hty. discriminate.
  - exists []. split; [simpl; lia|]. intros t info H Hty.
    destruct (buildGraph_edges files settings g s t info Hrun H)
      as [[file' [H1 [H2 _]]]|[_ [_ [_ [sf [_ H3]]]]]].
    + unfold getAbstractFileByPath in Efile.
      apply (find_none _ _ Efile) in H1. subst s.
      rewrite String.eqb_refl in H1. discriminate.
    + subst info. simpl in Hty. discriminate.
Qed.

Lemma buildGraph_tag_edges_capped_witness :
  exists g,
    buildGraph taggedVault DEFAULT_SETTINGS = Ok g /\
    forall s, exists targets,
      (length targets <= 50)%nat /\
      forall t info,
        edgeOf g s t = Some info -> type info = TAG -> In t targets.
Proof.
  apply (buildGraph_tag_edges_capped taggedVault DEFAULT_SETTINGS).
  apply NoDup_distinctb. reflexivity.
Defined.

(** ** Incremental update: delete, create, modify *)

(** X5: when a cached graph exists and caching is enabled, a delete removes
    the node of the document and every edge that targets it, and leaves every
    other edge and node as it was; the cache time becomes the current time. *)
Theorem updateGraphCache_delete_removes_node :
  forall (files : list TFile) (settings : Settings) (now : Z)
         (st : ServiceState) (g : EnhancedGraph) (changedFile : TFile),
    cacheGraphStructure settings = true ->
    cachedGraph st = Some g ->
    exists g',
      updateGraphCache files settings now st changedFile Delete
        = {| cachedGraph := Some g'; lastCacheTime := now |} /\
      ohas g' (fpath changedFile) = false /\
      (forall s, edgeOf g' s (fpath changedFile) = None) /\
      (forall s, s <> fpath changedFile -> ohas g' s = ohas g s) /\
      (forall s t, s <> fpath changedFile -> t <> fpath changedFile ->
                   edgeOf g' s t = edgeOf g s t).
Proof.
  intros files settings now st g changedFile Hcache Hg.
  unfold updateGraphCache. rewrite Hcache, Hg. simpl.
  set (p := fpath changedFile).
  eexists. split; [reflexivity|].
  assert (Hget : forall s,
            oget (map (fun '(k, edges) => (k, odelete edges p)) (odelete g p)) s
            = option_map (fun edges : omap ConnectionInfo => odelete edges p)
                (oget (odelete g p) s)).
  { intros s. apply (oget_map_values (fun edges : omap ConnectionInfo => odelete edges p)). }
  split; [|split; [|split]].
  - unfold ohas. rewrite Hget, oget_odelete_eq. reflexivity.
  - intros s. unfold edgeOf. rewrite Hget.
    destruct (oget (odelete g p) s); simpl; auto. apply oget_odelete_eq.
  - intros s Hs. unfold ohas. rewrite Hget.
    rewrite (oget_odelete_ne g p s) by congruence.
    destruct (oget g s); reflexivity.
  - intros s t Hs Ht. unfold edgeOf. rewrite Hget.
    rewrite (oget_odelete_ne g p s) by congruence.
    destruct (oget g s); simpl; auto.
    apply oget_odelete_ne. congruence.
Qed.

Lemma updateGraphCache_delete_removes_node_witness :
  exists g',
    updateGraphCache vaultAfter DEFAULT_SETTINGS 1
      {| cachedGraph := Some graphBefore; lastCacheTime := 0 |} noteB Delete
      = {| cachedGraph := Some g'; lastCacheTime := 1 |} /\
    ohas g' (fpath noteB) = false /\
    (forall s, edgeOf g' s (fpath noteB) = None) /\
    (forall s, s <> fpath noteB -> ohas g' s = ohas graphBefore s) /\
    (forall s t, s <> fpath noteB -> t <> fpath noteB ->
                 edgeOf g' s t = edgeOf graphBefore s t).
Proof.
  apply (updateGraphCache_delete_removes_node vaultAfter DEFAULT_SETTINGS 1
           {| cachedGraph := Some graphBefore; lastCacheTime := 0 |}
           graphBefore noteB); reflexivity.
Defined.

(** What the pass for a document does to the map of that document depends
    on that map only. *)
Lemma setEdge_local g h src tgt info :
  oget g src = oget h src ->
  match setEdge g src tgt info, setEdge h src tgt info with
  | Ok g', Ok h' => oget g' src = oget h' src
  | TypeError, TypeError => True
  | _, _ => False
  end.
Proof.
  intros E. unfold setEdge. rewrite <- E.
  destruct (oget g src) as [m|]; auto. now rewrite !oget_oset_eq.
Qed.

Lemma addLinks_local files ty src captures g h :
  oget g src = oget h src ->
  oget (fst (addLinks files ty src captures g)) src
  = oget (fst (addLinks files ty src captures h)) src /\
  snd (addLinks files ty src captures g) = snd (addLinks files ty src captures h).
Proof.
  revert g h. induction captures as [|capture rest IH]; intros g h E; simpl; auto.
  destruct (isEmptyString (linkTextOf capture)); auto.
  destruct (findNoteByName files (linkTextOf capture)) as [linkedFile|]; auto.
  pose proof (setEdge_local g h src (fpath linkedFile) (linkInfo ty linkedFile) E) as Hs.
  destruct (setEdge g src (fpath linkedFile) (linkInfo ty linkedFile)) as [g'| |];
    destruct (setEdge h src (fpath linkedFile) (linkInfo ty linkedFile)) as [h'| |];
    try contradiction; simpl; auto.
Qed.

Lemma addTagEdges_local src matches g h :
  oget g src = oget h src ->
  oget (fst (addTagEdges src matches g)) src
  = oget (fst (addTagEdges src matches h)) src.
Proof.
  revert g h. induction matches as [|[k [otherFile common]] rest IH];
    intros g h E; simpl; auto.
  pose proof (setEdge_local g h src (fpath otherFile) (tagInfo otherFile common) E) as Hs.
  destruct (setEdge g src (fpath otherFile) (tagInfo otherFile common)) as [g'| |];
    destruct (setEdge h src (fpath otherFile) (tagInfo otherFile common)) as [h'| |];
    try contradiction; simpl; auto.
Qed.

Lemma processFile_local files settings allFiles g h file :
  oget g (fpath file) = oget h (fpath file) ->
  oget (processFile files settings allFiles g file) (fpath file)
  = oget (processFile files settings allFiles h file) (fpath file).
Proof.
  intros E. unfold processFile. destruct (negb (readable file)); auto.
  destruct (addLinks_local files DIRECT (fpath file) (wikiLinkMatches file) g h E)
    as [E1 T1].
  destruct (addLinks files DIRECT (fpath file) (wikiLinkMatches file) g)
    as [g1 threw1].
  destruct (addLinks files DIRECT (fpath file) (wikiLinkMatches file) h)
    as [h1 threw1']. simpl in *. subst threw1'.
  destruct threw1; auto.
  assert (H2 : oget (fst (if includeEmbeddedLinks settings
                          then addLinks files EMBEDDED (fpath file)
                                 (embeddedLinkMatches file) g1
                          else (g1, false))) (fpath file)
               = oget (fst (if includeEmbeddedLinks settings
                            then addLinks files EMBEDDED (fpath file)
                                   (embeddedLinkMatches file) h1
                            else (h1, false))) (fpath file) /\
               snd (if includeEmbeddedLinks settings
                    then addLinks files EMBEDDED (fpath file)
                           (embeddedLinkMatches file) g1
                    else (g1, false))
               = snd (if includeEmbeddedLinks settings
                      then addLinks files EMBEDDED (fpath file)
                             (embeddedLinkMatches file) h1
                      else (h1, false))).
  { destruct (includeEmbeddedLinks settings); simpl; auto.
    now apply addLinks_local. }
  destruct (if includeEmbeddedLinks settings
            then addLinks files EMBEDDED (fpath file) (embeddedLinkMatches file) g1
            else (g1, false)) as [g2 threw2].
  destruct (if includeEmbeddedLinks settings
            then addLinks files EMBEDDED (fpath file) (embeddedLinkMatches file) h1
            else (h1, false)) as [h2 threw2']. simpl in H2.
  destruct H2 as [E2 T2]. subst threw2'.
  destruct threw2; auto.
  destruct (andb _ _); auto. now apply addTagEdges_local.
Qed.

(** X6: when a cached graph exists and caching is enabled, a create gives
    the new document the adjacency map that the per-document pass builds from
    an empty one, whatever the cache held under that path, and changes the map
    of no other node; the cache time becomes the current time. *)
Theorem updateGraphCache_create_fresh_entry :
  forall (files : list TFile) (settings : Settings) (now : Z)
         (st : ServiceState) (g : EnhancedGraph) (changedFile : TFile),
    cacheGraphStructure settings = true ->
    cachedGraph st = Some g ->
    exists g',
      updateGraphCache files settings now st changedFile Create
        = {| cachedGraph := Some g'; lastCacheTime := now |} /\
      oget g' (fpath changedFile)
        = oget (processFile files settings files [(fpath changedFile, [])] changedFile)
            (fpath changedFile) /\
      (forall node, node <> fpath changedFile -> oget g' node = oget g node).
Proof.
  intros files settings now st g changedFile Hcache Hg.
  unfold updateGraphCache. rewrite Hcache, Hg. simpl.
  eexists. split; [reflexivity|]. split.
  - apply processFile_local. rewrite oget_oset_eq. simpl.
    now rewrite String.eqb_refl.
  - intros node Hnode. rewrite processFile_frame by auto.
    apply oget_oset_ne. congruence.
Qed.

Lemma updateGraphCache_create_fresh_entry_witness :
  exists g',
    updateGraphCache vaultAfter DEFAULT_SETTINGS 1
      {| cachedGraph := Some graphBefore; lastCacheTime := 0 |} noteA_unlinked Create
      = {| cachedGraph := Some g'; lastCacheTime := 1 |} /\
    oget g' (fpath noteA_unlinked)
      = oget (processFile vaultAfter DEFAULT_SETTINGS vaultAfter
                [(fpath noteA_unlinked, [])] noteA_unlinked) (fpath noteA_unlinked) /\
    (forall node, node <> fpath noteA_unlinked ->
                  oget g' node = oget graphBefore node).
Proof.
  apply (updateGraphCache_create_fresh_entry vaultAfter DEFAULT_SETTINGS 1
           {| cachedGraph := Some graphBefore; lastCacheTime := 0 |}
           graphBefore noteA_unlinked); reflexivity.
Defined.

(** X7: when a cached graph exists and caching is enabled, a modify only
    adds: every edge of the cached graph is still an edge afterwards, and
    every edge afterwards is an edge of the cached graph with the same payload
    or an edge that the pass extracts from the modified document. *)
Theorem updateGraphCache_modify_only_adds :
  forall (files : list TFile) (settings : Settings) (now : Z)
         (st : ServiceState) (g : EnhancedGraph) (changedFile : TFile),
    cacheGraphStructure settings = true ->
    cachedGraph st = Some g ->
    exists g',
      updateGraphCache files settings now st changedFile Modify
        = {| cachedGraph := Some g'; lastCacheTime := now |} /\
      (forall s t, hasEdge g s t -> hasEdge g' s t) /\
      (forall s t info,
         edgeOf g' s t = Some info ->
         edgeOf g s t = Some info \/
         (s = fpath changedFile /\ readable changedFile = true /\
          forwardOrigin files settings changedFile t info)).
Proof.
  intros files settings now st g changedFile Hcache Hg.
  unfold updateGraphCache. rewrite Hcache, Hg. simpl.
  eexists. split; [reflexivity|]. split.
  - intros s t H. now apply processFile_keeps_edges.
  - intros s t info H. apply processFile_edges in H. tauto.
Qed.

Lemma updateGraphCache_modify_only_adds_witness :
  exists g',
    updateGraphCache vaultAfter DEFAULT_SETTINGS 1
      {| cachedGraph := Some graphBefore; lastCacheTime := 0 |} noteA_unlinked Modify
      = {| cachedGraph := Some g'; lastCacheTime := 1 |} /\
    (forall s t, hasEdge graphBefore s t -> hasEdge g' s t) /\
    (forall s t info,
       edgeOf g' s t = Some info ->
       edgeOf graphBefore s t = Some info \/
       (s = fpath noteA_unlinked /\ readable noteA_unlinked = true /\
        forwardOrigin vaultAfter DEFAULT_SETTINGS noteA_unlinked t info)).
Proof.
  apply (updateGraphCache_modify_only_adds vaultAfter DEFAULT_SETTINGS 1
           {| cachedGraph := Some graphBefore; lastCacheTime := 0 |}
           graphBefore noteA_unlinked); reflexivity.
Defined.

(** ** Serving the graph from the cache *)

(** X8: with caching enabled, the graph that [getGraph] has returned is
    returned again, and the state left alone, by every later call made while
    less than 60000 ms have passed since the cache time, whatever the vault
    holds by then. *)
Theorem getGraph_serves_cache_within_window :
  forall (files files' : list TFile) (settings : Settings)
         (now builtAt now' builtAt' : Z) (st st1 : ServiceState) (g : EnhancedGraph),
    cacheGraphStructure settings = true ->
    getGraph files settings now builtAt st = Ok (g, st1) ->
    now' - lastCacheTime st1 < 60000 ->
    getGraph files' settings now' builtAt' st1 = Ok (g, st1).
Proof.
  intros files files' settings now builtAt now' builtAt' st st1 g Hcache Hfirst Hwin.
  assert (Hst1 : cachedGraph st1 = Some g).
  { unfold getGraph in Hfirst. rewrite Hcache in Hfirst. simpl in Hfirst.
    destruct (cachedGraph st) as [g0|] eqn:Eg.
    - destruct (now - lastCacheTime st <? 60000).
      + inversion Hfirst. now subst.
      + destruct (buildGraph files settings) as [g1| |]; simpl in Hfirst;
          inversion Hfirst. reflexivity.
    - destruct (buildGraph files settings) as [g1| |]; simpl in Hfirst;
        inversion Hfirst. reflexivity. }
  unfold getGraph. rewrite Hst1, Hcache. simpl.
  apply Z.ltb_lt in Hwin. now rewrite Hwin.
Qed.

Lemma getGraph_serves_cache_within_window_witness :
  getGraph vaultAfter DEFAULT_SETTINGS 2000 2001
    {| cachedGraph := Some graphBefore; lastCacheTime := 1000 |}
  = Ok (graphBefore, {| cachedGraph := Some graphBefore; lastCacheTime := 1000 |}).
Proof.
  apply (getGraph_serves_cache_within_window vaultBefore vaultAfter DEFAULT_SETTINGS
           1000 1000 2000 2001
           {| cachedGraph := None; lastCacheTime := 0 |}
           {| cachedGraph := Some graphBefore; lastCacheTime := 1000 |} graphBefore).
  - reflexivity.
  - reflexivity.
  - simpl. lia.
Defined.

(** X9: with caching enabled and a cached graph, an incremental update
    restarts the validity window: a [getGraph] made less than 60000 ms after
    the update returns the updated cached graph without rebuilding. *)
Theorem getGraph_after_updateGraphCache :
  forall (files files' : list TFile) (settings : Settings) (now now' builtAt : Z)
         (st : ServiceState) (g : EnhancedGraph) (changedFile : TFile)
         (changeType : ChangeType),
    cacheGraphStructure settings = true ->
    cachedGraph st = Some g ->
    now' - now < 60000 ->
    exists g',
      updateGraphCache files settings now st changedFile changeType
        = {| cachedGraph := Some g'; lastCacheTime := now |} /\
      getGraph files' settings now' builtAt
        (updateGraphCache files settings now st changedFile changeType)
        = Ok (g', updateGraphCache files settings now st changedFile changeType).
Proof.
  intros files files' settings now now' builtAt st g changedFile changeType
    Hcache Hg Hwin.
  assert (Hupd : exists g',
            updateGraphCache files settings now st changedFile changeType
            = {| cachedGraph := Some g'; lastCacheTime := now |}).
  { unfold updateGraphCache. rewrite Hcache, Hg. simpl.
    destruct changeType; eexists; reflexivity. }
  destruct Hupd as [g' Hupd]. exists g'. split; auto.
  rewrite Hupd. unfold getGraph. simpl. rewrite Hcache. simpl.
  apply Z.ltb_lt in Hwin. now rewrite Hwin.
Qed.

Lemma getGraph_after_updateGraphCache_witness :
  exists g',
    updateGraphCache vaultAfter DEFAULT_SETTINGS 70000
      {| cachedGraph := Some graphBefore; lastCacheTime := 1000 |}
      noteA_unlinked Modify
      = {| cachedGraph := Some g'; lastCacheTime := 70000 |} /\
    getGraph vaultAfter DEFAULT_SETTINGS 80000 80001
      (updateGraphCache vaultAfter DEFAULT_SETTINGS 70000
         {| cachedGraph := Some graphBefore; lastCacheTime := 1000 |}
         noteA_unlinked Modify)
      = Ok (g', updateGraphCache vaultAfter DEFAULT_SETTINGS 70000
                  {| cachedGraph := Some graphBefore; lastCacheTime := 1000 |}
                  noteA_unlinked Modify).
Proof.
  apply (getGraph_after_updateGraphCache vaultAfter vaultAfter DEFAULT_SETTINGS
           70000 80000 80001
           {| cachedGraph := Some graphBefore; lastCacheTime := 1000 |}
           graphBefore noteA_unlinked Modify).
  - reflexivity.
  - reflexivity.
  - lia.
Defined.

(** ** The name resolver *)

Lemma prefix_refl s : String.prefix s s = true.
Proof.
  induction s as [|c s IH]; simpl; auto.
  destruct (ascii_dec c c); [exact IH|congruence].
Qed.

Lemma includes_refl s : includes s s = true.
Proof.
  destruct s; simpl; auto.
  destruct (ascii_dec a a); [|congruence]. now rewrite prefix_refl.
Qed.

(** X10: [findNoteByName] returns a document of the vault whose lowercased
    basename contains the lowercased name; it returns a document with exactly
    that basename when there is one, otherwise one whose basename equals the
    name up to case when there is one; and it returns nothing only when no
    basename contains the name. *)
Theorem findNoteByName_priority :
  forall (files : list TFile) (name : string),
    match findNoteByName files name with
    | Some f =>
        In f files /\
        includes (toLowerCase (basename f)) (toLowerCase name) = true /\
        ((exists f', In f' files /\ basename f' = name) -> basename f = name) /\
        ((exists f', In f' files /\
                     toLowerCase (basename f') = toLowerCase name) ->
         toLowerCase (basename f) = toLowerCase name)
    | None =>
        forall f, In f files ->
                  includes (toLowerCase (basename f)) (toLowerCase name) = false
    end.
Proof.
  intros files name. unfold findNoteByName.
  destruct (find (fun f => String.eqb (basename f) name) files) as [f|] eqn:E1.
  - apply find_some in E1. destruct E1 as [Hin E]. apply String.eqb_eq in E.
    split; auto. split; [rewrite E; apply includes_refl|].
    split; auto. intros _. now rewrite E.
  - destruct (find (fun f => String.eqb (toLowerCase (basename f))
                                        (toLowerCase name)) files)
      as [f|] eqn:E2.
    + apply find_some in E2. destruct E2 as [Hin E]. apply String.eqb_eq in E.
      split; auto. split; [rewrite E; apply includes_refl|]. split; auto.
      intros [f' [Hf' Hb]]. apply (find_none _ _ E1) in Hf'.
      apply String.eqb_neq in Hf'. contradiction.
    + destruct (find (fun f => includes (toLowerCase (basename f))
                                        (toLowerCase name)) files)
        as [f|] eqn:E3.
      * apply find_some in E3. destruct E3 as [Hin E].
        split; auto. split; auto. split.
        -- intros [f' [Hf' Hb]]. apply (find_none _ _ E1) in Hf'.
           apply String.eqb_neq in Hf'. contradiction.
        -- intros [f' [Hf' Hb]]. apply (find_none _ _ E2) in Hf'.
           apply String.eqb_neq in Hf'. contradiction.
      * intros f Hin. now apply (find_none _ _ E3).
Qed.

(** ** Link texts *)

Lemma beforeChar_absent sep s : occurs sep s = false -> beforeChar sep s = s.
Proof.
  induction s as [|c s IH]; simpl; auto.
  destruct (Ascii.eqb c sep); [discriminate|]. intros H. now rewrite IH.
Qed.

Lemma beforeChar_append sep base rest :
  occurs sep base = false -> beforeChar sep (base ++ String sep rest) = base.
Proof.
  induction base as [|c base IH]; simpl.
  - now rewrite Ascii.eqb_refl.
  - destruct (Ascii.eqb c sep); [discriminate|]. intros H. now rewrite IH.
Qed.

Lemma beforeChar_other sep other base rest :
  occurs sep base = false -> Ascii.eqb other sep = false ->
  beforeChar sep (base ++ String other rest)
  = (base ++ String other (beforeChar sep rest))%string.
Proof.
  intros Hbase Hother. induction base as [|c base IH]; simpl in *.
  - now rewrite Hother.
  - destruct (Ascii.eqb c sep); [discriminate|]. now rewrite IH.
Qed.

(** X11: the part of a link after the first [#] (a heading) or after the
    first [|] (an alias) does not take part in the resolution: the link text
    is that of the part before it. *)
Theorem linkTextOf_ignores_heading_and_alias :
  forall (base rest : string),
    occurs "#" base = false ->
    occurs "|" base = false ->
    linkTextOf (base ++ String "#" rest) = trim base /\
    linkTextOf (base ++ String "|" rest) = trim base /\
    linkTextOf base = trim base.
Proof.
  intros base rest Hhash Hbar. unfold linkTextOf. split; [|split].
  - rewrite (beforeChar_append "#" base rest Hhash).
    now rewrite (beforeChar_absent "|" base Hbar).
  - rewrite (beforeChar_other "#" "|" base rest Hhash eq_refl).
    now rewrite (beforeChar_append "|" base _ Hbar).
  - rewrite (beforeChar_absent "#" base Hhash).
    now rewrite (beforeChar_absent "|" base Hbar).
Qed.

Lemma linkTextOf_ignores_heading_and_alias_witness :
  linkTextOf (" Note " ++ String "#" "Heading|Alias") = trim " Note " /\
  linkTextOf (" Note " ++ String "|" "Alias") = trim " Note " /\
  linkTextOf " Note " = trim " Note ".
Proof.
  apply (linkTextOf_ignores_heading_and_alias " Note " "Heading|Alias");
    reflexivity.
Defined.

(** ** The single-source search finds a shortest route *)

Lemma hasEdge_listed g u v : hasEdge g u v <-> In v (map fst (neighborsOf g u)).
Proof.
  unfold hasEdge. rewrite edgeOf_neighborsOf.
  change (map fst (neighborsOf g u)) with (okeys (neighborsOf g u)).
  rewrite <- ohas_In_keys. unfold ohas.
  destruct (oget (neighborsOf g u) v); split; congruence.
Qed.

Lemma existsb_eqb_In (x : string) (l : list string) :
  existsb (String.eqb x) l = true <-> In x l.
Proof. apply shas_In. Qed.

Lemma visitNeighbors_spec entries cur q v :
  (forall x, shas (snd (visitNeighbors entries cur q v)) x
             = orb (shas v x) (existsb (String.eqb x) (map fst entries))) /\
  exists added,
    fst (visitNeighbors entries cur q v) = q ++ added /\
    (forall n, In n added ->
       qdistance n = qdistance cur + 1 /\ In (qnode n) (map fst entries) /\
       shas v (qnode n) = false) /\
    (forall x, shas v x = false -> In x (map fst entries) ->
       exists n, In n added /\ qnode n = x).
Proof.
  revert q v. induction entries as [|[neighbor ci] rest IH]; intros q v; simpl.
  - split.
    + intros x. now rewrite orb_false_r.
    + exists []. rewrite app_nil_r. split; auto. split.
      * intros n [].
      * intros x _ [].
  - destruct (shas v neighbor) eqn:Ev.
    + destruct (IH q v) as [Hvis [added [Hq [Hnew Hall]]]]. split.
      * intros x. rewrite Hvis.
        destruct (String.eqb x neighbor) eqn:E; simpl; auto.
        apply String.eqb_eq in E. subst. rewrite Ev. reflexivity.
      * exists added. split; auto. split.
        -- intros n Hn. destruct (Hnew n Hn) as [H1 [H2 H3]]. auto.
        -- intros x Hx [Hin|Hin]; [subst; congruence|]. now apply Hall.
    + set (new := {| qnode := neighbor; qdistance := qdistance cur + 1;
                     qpath := qpath cur ++ [neighbor];
                     qconnectionTypes := qconnectionTypes cur ++ [ci] |}).
      destruct (IH (q ++ [new]) (sadd v neighbor)) as [Hvis [added [Hq [Hnew Hall]]]].
      split.
      * intros x. rewrite Hvis, shas_sadd.
        rewrite (String.eqb_sym x neighbor).
        destruct (String.eqb neighbor x), (shas v x); reflexivity.
      * exists (new :: added). split; [rewrite Hq, <- app_assoc; reflexivity|].
        split.
        -- intros n [Hn|Hn].
           ++ subst n. simpl. auto.
           ++ destruct (Hnew n Hn) as [H1 [H2 H3]]. split; auto. split; auto.
              rewrite shas_sadd in H3. apply orb_false_elim in H3. tauto.
        -- intros x Hx [Hin|Hin].
           ++ subst x. exists new. split; [now left|reflexivity].
           ++ destruct (shas (sadd v neighbor) x) eqn:E.
              ** rewrite shas_sadd, Hx, orb_false_r in E.
                 apply String.eqb_eq in E. subst x.
                 exists new. split; [now left|reflexivity].
              ** destruct (Hall x E Hin) as [n [Hn1 Hn2]].
                 exists n. split; [now right|auto].
Qed.

Section ShortestRoute.
Variable settings : Settings.
Variable g : EnhancedGraph.
Variables start end_ : string.

Lemma bfsInv_frontier queue visited k v :
  bfsInv g (maxPathLength settings) start end_ queue visited ->
  hops g start k v ->
  shas visited v = false ->
  Z.of_nat k <= maxPathLength settings ->
  exists e, In e queue /\ qdistance e < Z.of_nat k.
Proof.
  intros [Hq [_ [_ [Hstart Hvis]]]] Hhops.
  induction Hhops as [|k u v Hu IH Huv]; intros Hv Hk.
  - congruence.
  - destruct (shas visited u) eqn:Eu.
    + destruct (Hvis u Eu) as [[e [He Hn]]|[[_ Hclosed]|Hfar]].
      * exists e. split; auto.
        destruct (Hq e He) as [_ [Hmin _]]. rewrite Hn in Hmin.
        specialize (Hmin k Hu). lia.
      * rewrite (Hclosed v Huv) in Hv. discriminate.
      * specialize (Hfar k Hu). lia.
    + destruct (IH eq_refl) as [e [He Hd]]; [lia|].
      exists e. split; auto. lia.
Qed.

Lemma bfsInv_initial :
  bfsInv g (maxPathLength settings) start end_
    [ {| qnode := start; qdistance := 0; qpath := [start]; qconnectionTypes := [] |} ]
    [start].
Proof.
  assert (Hs : shas [start] start = true).
  { simpl. now rewrite String.eqb_refl. }
  split; [|split; [|split; [|split]]].
  - intros e [He|[]]. subst e. simpl. split; [|split; auto].
    + exists O. split; auto. constructor.
    + intros k _. lia.
  - exists 0. intros e [He|[]]. subst e. simpl. lia.
  - repeat constructor.
  - exact Hs.
  - intros u Hu. left. eexists. split; [now left|]. simpl.
    simpl in Hu. rewrite orb_false_r in Hu. apply String.eqb_eq in Hu. auto.
Qed.

Lemma bfsInv_skip cur queue visited :
  bfsInv g (maxPathLength settings) start end_ (cur :: queue) visited ->
  maxPathLength settings <= qdistance cur ->
  bfsInv g (maxPathLength settings) start end_ queue visited.
Proof.
  intros [Hq [[d Hd] [Hsorted [Hstart Hvis]]]] Hskip.
  split; [|split; [|split; [|split]]]; auto.
  - intros e He. apply Hq. now right.
  - exists d. intros e He. apply Hd. now right.
  - now inversion Hsorted.
  - intros u Hu. destruct (Hvis u Hu) as [[e [[He|He] Hn]]|H].
    + subst e. right. right. intros k Hk.
      destruct (Hq cur (or_introl eq_refl)) as [_ [Hmin _]].
      rewrite Hn in Hmin. specialize (Hmin k Hk). lia.
    + left. exists e. auto.
    + right. exact H.
Qed.

Lemma StronglySorted_app_le (d : Z) (q added : list QueueEntry) :
  StronglySorted (fun a b => qdistance a <= qdistance b) q ->
  (forall e, In e q -> qdistance e <= d) ->
  (forall n, In n added -> qdistance n = d) ->
  StronglySorted (fun a b => qdistance a <= qdistance b) (q ++ added).
Proof.
  intros Hs Hq Hadded. induction q as [|e q IH]; simpl.
  - induction added as [|n added IHa]; constructor.
    + apply IHa. intros n0 Hn0. apply Hadded. now right.
    + apply Forall_forall. intros x Hx.
      rewrite (Hadded n (or_introl eq_refl)), (Hadded x (or_intror Hx)). lia.
  - inversion Hs as [|? ? Hs' Hall]. subst. constructor.
    + apply IH; auto. intros e0 He0. apply Hq. now right.
    + apply Forall_forall. intros x Hx. apply in_app_or in Hx.
      destruct Hx as [Hx|Hx].
      * rewrite Forall_forall in Hall. now apply Hall.
      * rewrite (Hadded x Hx). apply Hq. now left.
Qed.

Lemma bfsInv_expand cur queue visited :
  bfsInv g (maxPathLength settings) start end_ (cur :: queue) visited ->
  qdistance cur < maxPathLength settings ->
  qnode cur <> end_ ->
  bfsInv g (maxPathLength settings) start end_
    (fst (visitNeighbors (neighborsOf g (qnode cur)) cur queue visited))
    (snd (visitNeighbors (neighborsOf g (qnode cur)) cur queue visited)).
Proof.
  intros Hinv Hbound Hend.
  pose proof Hinv as [Hq [[d Hd] [Hsorted [Hstart Hvis]]]].
  destruct (visitNeighbors_spec (neighborsOf g (qnode cur)) cur queue visited)
    as [Hv' [added [Hq' [Hnew Hall]]]].
  rewrite Hq'.
  set (visited' := snd (visitNeighbors (neighborsOf g (qnode cur)) cur queue visited))
    in *.
  assert (Hmono : forall x, shas visited x = true -> shas visited' x = true).
  { intros x Hx. rewrite Hv', Hx. reflexivity. }
  destruct (Hq cur (or_introl eq_refl)) as [[kc [Hkc Hhops]] [Hmin Hcur]].
  assert (Hhead : forall e, In e (cur :: queue) -> qdistance cur <= qdistance e).
  { inversion Hsorted as [|? ? _ Hall']. subst.
    intros e [He|He]; [subst; lia|]. rewrite Forall_forall in Hall'. auto. }
  split; [|split; [|split; [|split]]].
  - intros e He. apply in_app_or in He. destruct He as [He|He].
    + destruct (Hq e (or_intror He)) as [H1 [H2 H3]]. auto.
    + destruct (Hnew e He) as [H1 [H2 H3]].
      assert (Hedge : hasEdge g (qnode cur) (qnode e)) by now apply hasEdge_listed.
      split; [|split].
      * exists (S kc). split; [lia|]. now apply (hops_step g start kc (qnode cur)).
      * intros k Hk.
        destruct (Z_le_gt_dec (qdistance e) (Z.of_nat k)) as [Hle|Hgt]; auto.
        exfalso.
        destruct (bfsInv_frontier (cur :: queue) visited k (qnode e) Hinv Hk H3)
          as [e0 [He0 Hlt]]; [lia|].
        specialize (Hhead e0 He0). lia.
      * rewrite Hv'. apply orb_true_iff. right. now apply existsb_eqb_In.
  - exists (qdistance cur). intros e He. apply in_app_or in He.
    destruct He as [He|He].
    + pose proof (Hhead e (or_intror He)).
      pose proof (Hd e (or_intror He)). pose proof (Hd cur (or_introl eq_refl)). lia.
    + destruct (Hnew e He) as [H1 _]. lia.
  - apply (StronglySorted_app_le (qdistance cur + 1)).
    + now inversion Hsorted.
    + intros e He. pose proof (Hd e (or_intror He)).
      pose proof (Hd cur (or_introl eq_refl)).
      pose proof (Hhead e (or_intror He)). lia.
    + intros n Hn. now destruct (Hnew n Hn).
  - now apply Hmono.
  - intros u Hu. destruct (shas visited u) eqn:Eu.
    + destruct (Hvis u Eu) as [[e [[He|He] Hn]]|[[Hne Hclosed]|Hfar]].
      * subst e. right. left. split; [congruence|].
        intros v Hv. rewrite Hv'. apply orb_true_iff. right.
        apply existsb_eqb_In. apply hasEdge_listed. now rewrite Hn.
      * left. exists e. split; auto. apply in_or_app. now left.
      * right. left. split; auto.
      * right. right. exact Hfar.
    + rewrite Hv', Eu in Hu. simpl in Hu. apply existsb_eqb_In in Hu.
      destruct (Hall u Eu Hu) as [n [Hn1 Hn2]].
      left. exists n. split; auto. apply in_or_app. now right.
Qed.

Lemma bfsLoop_shortest fuel queue visited r :
  bfsInv g (maxPathLength settings) start end_ queue visited ->
  bfsLoop settings g fuel end_ queue visited = Ok r ->
  (distance r = -1 /\
   forall k, hops g start k end_ -> maxPathLength settings <= Z.of_nat k) \/
  (0 <= distance r < maxPathLength settings /\
   hops g start (Z.to_nat (distance r)) end_ /\
   forall k, hops g start k end_ -> distance r <= Z.of_nat k).
Proof.
  revert queue visited. induction fuel as [|fuel IH]; intros queue visited Hinv Hrun;
    simpl in Hrun; [discriminate|].
  destruct queue as [|cur queue'].
  - inversion Hrun. subst r. left. split; auto. intros k Hk.
    destruct (Z_le_gt_dec (maxPathLength settings) (Z.of_nat k)) as [Hle|Hgt]; auto.
    exfalso. destruct (shas visited end_) eqn:Ee.
    + destruct Hinv as [_ [_ [_ [_ Hvis]]]].
      destruct (Hvis end_ Ee) as [[e [[] _]]|[[Hne _]|Hfar]].
      * congruence.
      * specialize (Hfar k Hk). lia.
    + destruct (bfsInv_frontier [] visited k end_ Hinv Hk Ee) as [e [[] _]]. lia.
  - destruct (maxPathLength settings <=? qdistance cur) eqn:Eskip.
    + apply Z.leb_le in Eskip. apply (IH queue' visited); auto.
      now apply (bfsInv_skip cur).
    + apply Z.leb_gt in Eskip.
      destruct (String.eqb (qnode cur) end_) eqn:Eend.
      * apply String.eqb_eq in Eend. inversion Hrun. subst r. simpl. right.
        destruct Hinv as [Hq _].
        destruct (Hq cur (or_introl eq_refl)) as [[kc [Hkc Hhops]] [Hmin _]].
        rewrite Eend in *. split; [lia|]. split; auto.
        rewrite Hkc, Nat2Z.id. exact Hhops.
      * apply String.eqb_neq in Eend.
        pose proof (bfsInv_expand cur queue' visited Hinv Eskip Eend) as Hinv'.
        destruct (visitNeighbors (neighborsOf g (qnode cur)) cur queue' visited)
          as [queue'' visited']. simpl in Hinv'.
        now apply (IH queue'' visited').
Qed.

End ShortestRoute.

(** X12: the single-source search always returns, and what it returns is a
    shortest route: it reports the least number of hops from the start to the
    end node when that number is below the maximum path length, and -1
    exactly when no route with fewer hops than the maximum path length exists. *)
Theorem findShortestPathOriginal_shortest :
  forall (settings : Settings) (g : EnhancedGraph) (start end_ : string),
    exists r,
      findShortestPathOriginal settings g start end_ = Ok r /\
      ((distance r = -1 /\
        forall k, hops g start k end_ -> maxPathLength settings <= Z.of_nat k) \/
       (0 <= distance r < maxPathLength settings /\
        hops g start (Z.to_nat (distance r)) end_ /\
        forall k, hops g start k end_ -> distance r <= Z.of_nat k)).
Proof.
  intros settings g start end_.
  destruct (findShortestPathOriginal_total settings g start end_) as [r Hrun].
  exists r. split; auto.
  apply (bfsLoop_shortest settings g start end_ _ _ _ r
           (bfsInv_initial settings g start end_) Hrun).
Qed.

(** ** The bidirectional search returns a route *)

Lemma oget_NoDup_In {V : Type} (m : omap V) k v :
  NoDup (okeys m) -> In (k, v) m -> oget m k = Some v.
Proof.
  induction m as [|[k' v'] m IH]; simpl; intros Hnd Hin; [contradiction|].
  inversion Hnd as [|? ? Hnotin Hnd']. subst.
  destruct Hin as [Hin|Hin].
  - inversion Hin. subst. now rewrite String.eqb_refl.
  - destruct (String.eqb k' k) eqn:E.
    + apply String.eqb_eq in E. subst. exfalso. apply Hnotin.
      apply (in_map fst) in Hin. exact Hin.
    + now apply IH.
Qed.

Lemma incomingOf_entries node g acc e :
  In e (incomingOf node g acc) ->
  In e acc \/ exists targets, In (fst e, targets) g /\ ohas targets node = true.
Proof.
  revert acc. induction g as [|[source targets] rest IH]; intros acc H; simpl in *; auto.
  destruct (oget targets node) as [origInfo|] eqn:E.
  - destruct (IH _ H) as [H1|[t [H1 H2]]].
    + destruct e as [k v]. apply In_oset in H1. destruct H1 as [H1|H1]; auto.
      inversion H1. subst. right. exists targets. split; [now left|].
      unfold ohas. now rewrite E.
    + right. exists t. split; [now right|auto].
  - destruct (IH _ H) as [H1|[t [H1 H2]]]; auto.
    right. exists t. split; [now right|auto].
Qed.

Lemma incomingOf_hasEdge node g e :
  NoDup (okeys g) -> In e (incomingOf node g []) -> hasEdge g (fst e) node.
Proof.
  intros Hnd H. apply incomingOf_entries in H. destruct H as [[]|[targets [H1 H2]]].
  unfold hasEdge, edgeOf. rewrite (oget_NoDup_In g (fst e) targets Hnd H1).
  unfold ohas in H2. destruct (oget targets node); congruence.
Qed.

Lemma neighborsOf_hasEdge g node e :
  In e (neighborsOf g node) -> hasEdge g node (fst e).
Proof.
  intros H. apply hasEdge_listed. now apply in_map.
Qed.

Lemma meetingOk_sym mine other m : meetingOk mine other m -> meetingOk other mine m.
Proof.
  intros H x sd E. destruct (H x sd E) as [a [b [Ha [Hb Hs]]]].
  exists b, a. repeat split; auto. lia.
Qed.

Lemma tracedBy_nonneg edge root visited n info :
  tracedBy edge root visited -> oget visited n = Some info -> 0 <= vdistance info.
Proof.
  intros Ht H. destruct (Ht n info H) as [[_ H0]|[_ [_ [pinfo [_ [H1 H2]]]]]]; lia.
Qed.

Section BidirectionalRoute.
Variable settings : Settings.
Variable edge : string -> string -> Prop.
Variable root : string.

Lemma expandNeighbors_traced other node nodeInfo entries mine m :
  tracedBy edge root (visited mine) ->
  ohas (visited mine) root = true ->
  oget (visited mine) node = Some nodeInfo ->
  (forall e, In e entries -> edge node (fst e)) ->
  meetingOk (visited mine) other m ->
  tracedBy edge root
    (visited (fst (expandNeighbors other node (vdistance nodeInfo) entries mine m))) /\
  (forall n info, oget (visited mine) n = Some info ->
     oget (visited (fst (expandNeighbors other node (vdistance nodeInfo)
                           entries mine m))) n = Some info) /\
  meetingOk
    (visited (fst (expandNeighbors other node (vdistance nodeInfo) entries mine m)))
    other
    (snd (expandNeighbors other node (vdistance nodeInfo) entries mine m)).
Proof.
  revert mine m. induction entries as [|[neighbor ci] rest IH];
    intros mine m Htr Hroot Hnode Hedges Hmeet; simpl.
  - auto.
  - assert (Hrest : forall e, In e rest -> edge node (fst e)).
    { intros e He. apply Hedges. now right. }
    destruct (ohas (visited mine) neighbor) eqn:Ehas.
    + now apply IH.
    + assert (Hnone : oget (visited mine) neighbor = None).
      { unfold ohas in Ehas. destruct (oget (visited mine) neighbor); congruence. }
      set (info' := {| prev := node; vdistance := vdistance nodeInfo + 1;
                       vconnectionInfo := Some ci |}).
      set (mine1 := {| visited := oset (visited mine) neighbor info';
                       queue := queue mine ++ [neighbor] |}).
      assert (Hext : forall n info, oget (visited mine) n = Some info ->
                oget (visited mine1) n = Some info).
      { intros n info H. simpl. rewrite oget_oset.
        destruct (String.eqb neighbor n) eqn:E; auto.
        apply String.eqb_eq in E. subst. congruence. }
      assert (Hneq : neighbor <> root).
      { intros E. subst. congruence. }
      assert (Htr1 : tracedBy edge root (visited mine1)).
      { intros n info H. simpl in H. rewrite oget_oset in H.
        destruct (String.eqb neighbor n) eqn:E.
        - apply String.eqb_eq in E. subst n. inversion H. subst info.
          right. split; auto. split.
          + simpl. apply (Hedges (neighbor, ci)). now left.
          + exists nodeInfo. simpl. split; [now apply Hext|]. split; auto.
            now apply (tracedBy_nonneg edge root (visited mine) node).
        - destruct (Htr n info H) as [H0|[H0 [H1 [pinfo [H2 H3]]]]]; auto.
          right. split; auto. split; auto. exists pinfo. split; auto. }
      assert (Hmeet1 : meetingOk (visited mine1) other
                         (recordMeeting other neighbor (vdistance nodeInfo) m)).
      { intros x sd E. unfold recordMeeting in E.
        assert (Hold : m = Some (x, sd) ->
                  exists a b, oget (visited mine1) x = Some a /\
                              oget other x = Some b /\
                              sd = vdistance a + vdistance b).
        { intros E0. destruct (Hmeet x sd E0) as [a [b [Ha [Hb Hs]]]].
          exists a, b. split; auto. }
        destruct (oget other neighbor) as [otherInfo|] eqn:Eo; auto.
        destruct (ltBound (vdistance nodeInfo + 1 + vdistance otherInfo) m); auto.
        inversion E. subst. exists info', otherInfo. simpl.
        rewrite oget_oset_eq. auto. }
      destruct (IH mine1 (recordMeeting other neighbor (vdistance nodeInfo) m))
        as [H1 [H2 H3]]; auto.
      * simpl. rewrite ohas_oset, Hroot. apply orb_true_r.
Qed.

Lemma searchLevel_traced neighborsFor other levelSize mine m mine' m' :
  (forall node e, In e (neighborsFor node) -> edge node (fst e)) ->
  tracedBy edge root (visited mine) ->
  ohas (visited mine) root = true ->
  meetingOk (visited mine) other m ->
  searchLevel settings neighborsFor other levelSize mine m = Ok (mine', m') ->
  tracedBy edge root (visited mine') /\
  ohas (visited mine') root = true /\
  (forall n info, oget (visited mine) n = Some info ->
     oget (visited mine') n = Some info) /\
  meetingOk (visited mine') other m'.
Proof.
  intros Hedges. revert mine m.
  induction levelSize as [|n IH]; intros mine m Htr Hroot Hmeet Hrun; simpl in Hrun.
  - inversion Hrun. subst. auto.
  - destruct (queue mine) as [|node queue'] eqn:Eq; [discriminate|].
    destruct (oget (visited mine) node) as [nodeInfo|] eqn:Enode; [|discriminate].
    destruct (orb (maxPathLength settings <=? vdistance nodeInfo)
                  (geBound (vdistance nodeInfo) m)).
    + now apply (IH {| visited := visited mine; queue := queue' |} m).
    + pose proof (expandNeighbors_traced other node nodeInfo (neighborsFor node)
                    {| visited := visited mine; queue := queue' |} m
                    Htr Hroot Enode (Hedges node) Hmeet) as [H1 [H2 H3]].
      destruct (expandNeighbors other node (vdistance nodeInfo) (neighborsFor node)
                  {| visited := visited mine; queue := queue' |} m)
        as [mine2 m2]. simpl in *.
      assert (Hroot2 : ohas (visited mine2) root = true).
      { unfold ohas in *. destruct (oget (visited mine) root) as [ri|] eqn:Er;
          [|discriminate]. now rewrite (H2 root ri Er). }
      destruct (IH mine2 m2 H1 Hroot2 H3 Hrun) as [H4 [H5 [H6 H7]]].
      split; auto.
Qed.

End BidirectionalRoute.

Lemma meetingOk_extends mine other other' m :
  (forall n info, oget other n = Some info -> oget other' n = Some info) ->
  meetingOk mine other m -> meetingOk mine other' m.
Proof.
  intros Hext H x sd E. destruct (H x sd E) as [a [b [Ha [Hb Hs]]]].
  exists a, b. auto.
Qed.

Section BidirectionalLoop.
Variable settings : Settings.
Variable g : EnhancedGraph.
Variables start end_ : string.
Hypothesis g_keys : NoDup (okeys g).

(** What the outer loop of the bidirectional search keeps. *)
Lemma biLoop_traced fuel st st' :
  tracedBy (hasEdge g) start (visited (forward st)) ->
  tracedBy (fun p n => hasEdge g n p) end_ (visited (backward st)) ->
  ohas (visited (forward st)) start = true ->
  ohas (visited (backward st)) end_ = true ->
  meetingOk (visited (forward st)) (visited (backward st)) (meeting st) ->
  biLoop settings g fuel st = Ok st' ->
  tracedBy (hasEdge g) start (visited (forward st')) /\
  tracedBy (fun p n => hasEdge g n p) end_ (visited (backward st')) /\
  meetingOk (visited (forward st')) (visited (backward st')) (meeting st').
Proof.
  revert st. induction fuel as [|fuel IH]; intros st Hf Hb Hfr Hbr Hmeet Hrun;
    simpl in Hrun; [discriminate|].
  destruct (queue (forward st)) as [|fn fq] eqn:Efq;
    [inversion Hrun; subst; auto|].
  destruct (queue (backward st)) as [|bn bq] eqn:Ebq;
    [inversion Hrun; subst; auto|].
  assert (Hstep : forall st1,
            (if (length (fn :: fq) <=? length (bn :: bq))%nat
             then forwardLevel settings g st
             else backwardLevel settings g st) = Ok st1 ->
            tracedBy (hasEdge g) start (visited (forward st1)) /\
            tracedBy (fun p n => hasEdge g n p) end_ (visited (backward st1)) /\
            ohas (visited (forward st1)) start = true /\
            ohas (visited (backward st1)) end_ = true /\
            meetingOk (visited (forward st1)) (visited (backward st1)) (meeting st1)).
  { intros st1 Hlevel.
    destruct (length (fn :: fq) <=? length (bn :: bq))%nat.
    - unfold forwardLevel in Hlevel.
      destruct (searchLevel settings (neighborsOf g) (visited (backward st))
                  (length (queue (forward st))) (forward st) (meeting st))
        as [[mine' m']| |] eqn:Es; simpl in Hlevel; try discriminate.
      inversion Hlevel. subst st1. simpl.
      destruct (searchLevel_traced settings (hasEdge g) start (neighborsOf g)
                  _ _ _ _ _ _ (neighborsOf_hasEdge g) Hf Hfr Hmeet Es)
        as [H1 [H2 [H3 H4]]].
      auto.
    - unfold backwardLevel in Hlevel.
      destruct (searchLevel settings (fun node => incomingOf node g [])
                  (visited (forward st))
                  (length (queue (backward st))) (backward st) (meeting st))
        as [[mine' m']| |] eqn:Es; simpl in Hlevel; try discriminate.
      inversion Hlevel. subst st1. simpl.
      destruct (searchLevel_traced settings (fun p n => hasEdge g n p) end_
                  (fun node => incomingOf node g [])
                  _ _ _ _ _ _
                  (fun node e He => incomingOf_hasEdge node g e g_keys He)
                  Hb Hbr (meetingOk_sym _ _ _ Hmeet) Es)
        as [H1 [H2 [H3 H4]]].
      split; auto. split; auto. split; auto. split; auto.
      now apply meetingOk_sym. }
  destruct (if (length (fn :: fq) <=? length (bn :: bq))%nat
            then forwardLevel settings g st
            else backwardLevel settings g st) as [st1| |] eqn:Elevel;
    simpl in Hrun; try discriminate.
  destruct (Hstep st1 eq_refl) as [H1 [H2 [H3 [H4 H5]]]].
  destruct (shouldBreak st1).
  - inversion Hrun. subst. auto.
  - now apply (IH st1).
Qed.

Lemma last_app_cons (l1 : list string) (t : string) (l2 : list string) d :
  last (l1 ++ t :: l2) d = last (t :: l2) d.
Proof.
  induction l1 as [|a l1 IH]; auto.
  simpl app. rewrite <- IH. simpl. destruct (l1 ++ t :: l2) eqn:E; auto.
  destruct l1; discriminate.
Qed.

Lemma route_app l1 l2 m :
  route g l1 -> last l1 "" = m -> l1 <> [] -> route g (m :: l2) -> route g (l1 ++ l2).
Proof.
  intros H1. induction H1 as [n|a b rest Hab Hrest IH]; intros Hlast _ H2.
  - simpl in Hlast. subst. exact H2.
  - simpl. constructor; auto. apply IH; auto. discriminate.
Qed.

Lemma forwardHalf_route visited fuel : forall current info acc accC p c,
  tracedBy (hasEdge g) start visited ->
  oget visited current = Some info ->
  route g (current :: acc) ->
  forwardHalf fuel start visited current acc accC = Ok (p, c) ->
  route g (start :: p) /\
  Z.of_nat (length p) = vdistance info + Z.of_nat (length acc) /\
  last (start :: p) "" = last (current :: acc) "".
Proof.
  induction fuel as [|fuel IH]; intros current info acc accC p c Htr Hget Hroute Hrun;
    simpl in Hrun; [discriminate|].
  destruct (Htr current info Hget) as [[H0 H1]|[H0 [H1 [pinfo [H2 [H3 H4]]]]]].
  - subst current. rewrite String.eqb_refl in Hrun. inversion Hrun. subst.
    split; auto. split; auto. lia.
  - apply String.eqb_neq in H0. rewrite H0, Hget in Hrun.
    destruct (IH (prev info) pinfo (current :: acc) _ p c Htr H2
                (route_cons g _ _ _ H1 Hroute) Hrun) as [Hr [Hlen Hlast]].
    split; auto. split.
    + rewrite Hlen. simpl length. lia.
    + transitivity (last (prev info :: current :: acc) "");
        [exact Hlast|reflexivity].
Qed.

Lemma backwardHalf_route visited fuel : forall current info bp bc p c,
  tracedBy (fun p0 n => hasEdge g n p0) end_ visited ->
  oget visited current = Some info ->
  backwardHalf fuel end_ visited current bp bc = Ok (p, c) ->
  exists tail,
    route g (current :: tail) /\
    last (current :: tail) "" = end_ /\
    Z.of_nat (length tail) = vdistance info /\
    hd (prev info) tail = prev info /\
    p = bp ++ removelast tail.
Proof.
  induction fuel as [|fuel IH]; intros current info bp bc p c Htr Hget Hrun;
    simpl in Hrun; [discriminate|].
  destruct (Htr current info Hget) as [[H0 H1]|[H0 [H1 [pinfo [H2 [H3 H4]]]]]].
  - subst current. rewrite String.eqb_refl in Hrun. inversion Hrun. subst.
    exists []. simpl. rewrite app_nil_r. repeat split; auto. constructor.
  - apply String.eqb_neq in H0. rewrite H0, Hget in Hrun.
    destruct (String.eqb (prev info) end_) eqn:Eprev.
    + destruct (IH (prev info) pinfo bp bc p c Htr H2 Hrun)
        as [tail [Hr [Hlast [Hlen [_ Hp]]]]].
      apply String.eqb_eq in Eprev.
      destruct (Htr (prev info) pinfo H2) as [[_ H5]|[H5 _]]; [|contradiction].
      destruct tail; [|simpl in Hlen; lia].
      simpl in Hp. rewrite app_nil_r in Hp.
      exists [prev info]. split; [constructor; auto|].
      split; [simpl; auto|]. split; [simpl; lia|]. split; [reflexivity|].
      simpl. now rewrite app_nil_r.
    + destruct (IH (prev info) pinfo (bp ++ [prev info]) _ p c Htr H2 Hrun)
        as [tail [Hr [Hlast [Hlen [_ Hp]]]]].
      exists (prev info :: tail). split; [constructor; auto|].
      split; [exact Hlast|]. split; [simpl length; lia|]. split; [reflexivity|].
      destruct tail as [|t tail'].
      * simpl in Hlast. apply String.eqb_neq in Eprev. contradiction.
      * rewrite Hp, <- app_assoc. reflexivity.
Qed.

Lemma rootFrontier_traced edge root :
  tracedBy edge root (visited (rootFrontier root)).
Proof.
  intros n info. simpl. destruct (String.eqb root n) eqn:E; [|discriminate].
  intros H. inversion H. simpl. apply String.eqb_eq in E. auto.
Qed.

Lemma findShortestPathBidirectional_sound r :
  findShortestPathBidirectional settings g start end_ = Ok r ->
  r = noPath \/
  (0 <= distance r /\ route g (path r) /\
   hd "" (path r) = start /\ last (path r) "" = end_ /\
   Z.of_nat (length (path r)) = distance r + 1).
Proof.
  unfold findShortestPathBidirectional. intros Hrun.
  destruct (biLoop settings g (biFuel g) (initialBiState start end_))
    as [st| |] eqn:Eloop; cbn [rbind] in Hrun; try discriminate.
  destruct (biLoop_traced (biFuel g) (initialBiState start end_) st) as [Hf [Hb Hm]];
    auto.
  - apply rootFrontier_traced.
  - apply rootFrontier_traced.
  - unfold ohas. simpl. now rewrite String.eqb_refl.
  - unfold ohas. simpl. now rewrite String.eqb_refl.
  - intros x sd E. discriminate.
  - destruct (meeting st) as [[m sd]|] eqn:Emeet.
    + destruct (Hm m sd eq_refl) as [fi [bi [Hfi [Hbi Hsd]]]].
      destruct (forwardHalf (S (length (visited (forward st)))) start
                  (visited (forward st)) m [] []) as [[fp fc]| |] eqn:Efwd;
        cbn [rbind] in Hrun; try discriminate.
      destruct (backwardHalf (S (length (visited (backward st)))) end_
                  (visited (backward st)) m [] []) as [[bp bc]| |] eqn:Ebwd;
        cbn [rbind] in Hrun; try discriminate.
      cbn [fst snd] in Hrun. injection Hrun as Hr. subst r. simpl. right.
      destruct (forwardHalf_route _ _ m fi [] [] fp fc Hf Hfi (route_one g m) Efwd)
        as [Hfr [Hflen Hflast]].
      destruct (backwardHalf_route _ _ m bi [] [] bp bc Hb Hbi Ebwd)
        as [tail [Hbr [Hblast [Hblen [Hbhd Hbp]]]]].
      simpl in Hbp, Hflast. subst bp.
      pose proof (tracedBy_nonneg _ _ _ _ _ Hf Hfi) as Hfpos.
      pose proof (tracedBy_nonneg _ _ _ _ _ Hb Hbi) as Hbpos.
      split; [lia|].
      destruct tail as [|t tail'].
      * simpl in Hblast. revert Hflast. subst m. intros Hflast.
        unfold combinePaths. cbn [removelast app].
        rewrite String.eqb_refl, app_nil_r.
        split; auto. split; auto. split; auto.
        simpl length in *. lia.
      * assert (Htail : removelast (t :: tail') ++ [end_] = t :: tail').
        { rewrite <- Hblast.
          change (last (m :: t :: tail') "") with (last (t :: tail') "").
          symmetry. apply app_removelast_last. discriminate. }
        rewrite Htail. unfold combinePaths.
        assert (Hne : String.eqb t m = false).
        { apply String.eqb_neq. intros E. subst t. simpl in Hbhd.
          destruct (Hb m bi Hbi) as [[H0 H1]|[H0 [H1 [pinfo [H2 [H3 H4]]]]]].
          - simpl length in Hblen. lia.
          - rewrite <- Hbhd, Hbi in H2. inversion H2. subst pinfo. lia. }
        rewrite Hne.
        split; [|split; [|split]].
        -- apply (route_app (start :: fp) (t :: tail') m); auto. discriminate.
        -- reflexivity.
        -- change (last (m :: t :: tail') "") with (last (t :: tail') "") in Hblast.
           rewrite <- Hblast. apply last_app_cons.
        -- rewrite length_app. simpl length in *. lia.
    + inversion Hrun. now left.
Qed.

End BidirectionalLoop.

(** X13: on a graph with distinct keys the bidirectional search always
    returns, and unless it reports that there is no path, the path it returns
    is a route of the graph from the start to the end node made of exactly
    [distance] hops. *)
Theorem findShortestPathBidirectional_route :
  forall (settings : Settings) (g : EnhancedGraph) (start end_ : string),
    NoDup (okeys g) ->
    exists r,
      findShortestPathBidirectional settings g start end_ = Ok r /\
      (r = noPath \/
       (0 <= distance r /\ route g (path r) /\
        hd "" (path r) = start /\ last (path r) "" = end_ /\
        Z.of_nat (length (path r)) = distance r + 1)).
Proof.
  intros settings g start end_ Hnd.
  destruct (findShortestPathBidirectional_total settings g start end_) as [r Hrun].
  exists r. split; auto.
  now apply (findShortestPathBidirectional_sound settings g start end_ Hnd).
Qed.

Lemma findShortestPathBidirectional_route_witness :
  exists r,
    findShortestPathBidirectional DEFAULT_SETTINGS diamond "A" "C" = Ok r /\
    (r = noPath \/
     (0 <= distance r /\ route diamond (path r) /\
      hd "" (path r) = "A" /\ last (path r) "" = "C" /\
      Z.of_nat (length (path r)) = distance r + 1)).
Proof.
  apply (findShortestPathBidirectional_route DEFAULT_SETTINGS diamond "A" "C").
  repeat constructor; simpl; intuition discriminate.
Defined.

(** ** Whatever the strategy, the shortest path is a route *)

Lemma describes_route g nodes payloads : describes g nodes payloads -> route g nodes.
Proof.
  induction 1 as [n|a b rest c cs Hin _ IH]; constructor; auto.
  apply (neighborsOf_hasEdge g a (b, c) Hin).
Qed.

Lemma findShortestPathOriginal_sound settings g start end_ r :
  findShortestPathOriginal settings g start end_ = Ok r ->
  r = noPath \/
  (describes g (path r) (connectionTypes r) /\
   hd "" (path r) = start /\ last (path r) "" = end_ /\
   distance r = Z.of_nat (length (connectionTypes r))).
Proof.
  unfold findShortestPathOriginal. apply (bfsLoop_entryOk settings g start).
  constructor; [|constructor]. unfold entryOk. simpl.
  repeat split; auto. constructor.
Qed.

Lemma findShortestPathOriginal_route settings g start end_ r :
  findShortestPathOriginal settings g start end_ = Ok r ->
  r = noPath \/
  (0 <= distance r /\ route g (path r) /\
   hd "" (path r) = start /\ last (path r) "" = end_ /\
   Z.of_nat (length (path r)) = distance r + 1).
Proof.
  intros H. apply findShortestPathOriginal_sound in H.
  destruct H as [H|[H1 [H2 [H3 H4]]]]; auto. right.
  split; [lia|]. split; [now apply (describes_route g _ _ H1)|].
  split; auto. split; auto.
  apply describes_length in H1. lia.
Qed.

(** X14: on a graph with distinct keys [findShortestPath] always returns,
    whichever strategy it selects, and unless it reports that there is no
    path, the path it returns is a route of the graph from the start to the
    end node made of exactly [distance] hops. *)
Theorem findShortestPath_route :
  forall (settings : Settings) (g : EnhancedGraph) (start end_ : string),
    NoDup (okeys g) ->
    exists r,
      findShortestPath settings g start end_ = Ok r /\
      (r = noPath \/
       (0 <= distance r /\ route g (path r) /\
        hd "" (path r) = start /\ last (path r) "" = end_ /\
        Z.of_nat (length (path r)) = distance r + 1)).
Proof.
  intros settings g start end_ Hnd.
  destruct (findShortestPath_total settings g start end_) as [r Hrun].
  exists r. split; auto. unfold findShortestPath in Hrun.
  destruct (String.eqb start end_) eqn:Eq.
  - apply String.eqb_eq in Eq. inversion Hrun. subst. simpl. right.
    repeat split; try lia; auto. constructor.
  - destruct (orb (negb (ohas g start)) (negb (ohas g end_))).
    + inversion Hrun. now left.
    + destruct (orb (length g <? 500)%nat (preferOriginal settings)).
      * now apply (findShortestPathOriginal_route settings g start end_).
      * now apply (findShortestPathBidirectional_sound settings g start end_ Hnd).
Qed.

Lemma findShortestPath_route_witness :
  exists r,
    findShortestPath DEFAULT_SETTINGS largeDiamond "A" "C" = Ok r /\
    (r = noPath \/
     (0 <= distance r /\ route largeDiamond (path r) /\
      hd "" (path r) = "A" /\ last (path r) "" = "C" /\
      Z.of_nat (length (path r)) = distance r + 1)).
Proof.
  apply (findShortestPath_route DEFAULT_SETTINGS largeDiamond "A" "C").
  apply (NoDup_distinctb (okeys largeDiamond)). vm_compute. reflexivity.
Defined.

(** ** On graphs below the size threshold the shortest path is shortest *)

Lemma hops_source_has g s k t : hops g s (S k) t -> ohas g s = true.
Proof.
  remember (S k) as n eqn:En. intros H. revert k En.
  induction H as [|k' u v Hu IH Huv]; intros k En; [discriminate|].
  destruct k' as [|k''].
  - inversion Hu. subst. now apply (hasEdge_source_has g _ v).
  - now apply (IH k'').
Qed.

Lemma hops_target_has g s k t :
  closedGraph g -> hops g s (S k) t -> ohas g t = true.
Proof.
  intros Hclosed H. inversion H as [|k' u v Hu Huv]. subst.
  exact (Hclosed u t Huv).
Qed.

(** X15: on a graph in which every edge target has an entry, and which has
    fewer than 500 nodes or is searched with the preference 'original',
    [findShortestPath] returns a shortest path: the least number of hops from
    the start to the end node, or -1 exactly when no route with fewer hops than
    the maximum path length exists (the start node itself is at distance 0). *)
Theorem findShortestPath_small_graph_shortest :
  forall (settings : Settings) (g : EnhancedGraph) (start end_ : string),
    closedGraph g ->
    (length g < 500)%nat \/ algorithmPreference settings = PrefOriginal ->
    exists r,
      findShortestPath settings g start end_ = Ok r /\
      ((distance r = -1 /\
        forall k, hops g start k end_ -> maxPathLength settings <= Z.of_nat k) \/
       (0 <= distance r /\
        hops g start (Z.to_nat (distance r)) end_ /\
        forall k, hops g start k end_ -> distance r <= Z.of_nat k)).
Proof.
  intros settings g start end_ Hclosed Hsmall.
  unfold findShortestPath.
  destruct (String.eqb start end_) eqn:Eq.
  - apply String.eqb_eq in Eq. subst end_. eexists. split; [reflexivity|].
    right. simpl. split; [lia|]. split; [constructor|]. intros k _. lia.
  - apply String.eqb_neq in Eq.
    destruct (ohas g start) eqn:Es; simpl.
    + destruct (ohas g end_) eqn:Ee; simpl.
      * assert (Hstrategy : orb (length g <? 500)%nat (preferOriginal settings) = true).
        { destruct Hsmall as [H|H].
          - apply Nat.ltb_lt in H. now rewrite H.
          - unfold preferOriginal. rewrite H. apply orb_true_r. }
        rewrite Hstrategy.
        destruct (findShortestPathOriginal_total settings g start end_) as [r Hrun].
        exists r. split; auto.
        destruct (bfsLoop_shortest settings g start end_ _ _ _ r
                    (bfsInv_initial settings g start end_) Hrun)
          as [H|[H1 [H2 H3]]]; auto.
        right. split; [lia|]. auto.
      * eexists. split; [reflexivity|]. left. split; auto.
        intros k Hk. destruct k as [|k].
        -- inversion Hk. congruence.
        -- rewrite (hops_target_has g start k end_ Hclosed Hk) in Ee. discriminate.
    + eexists. split; [reflexivity|]. left. split; auto.
      intros k Hk. destruct k as [|k].
      * inversion Hk. congruence.
      * rewrite (hops_source_has g start k end_ Hk) in Es. discriminate.
Qed.

Lemma findShortestPath_small_graph_shortest_witness :
  exists r,
    findShortestPath DEFAULT_SETTINGS diamond "A" "C" = Ok r /\
    ((distance r = -1 /\
      forall k, hops diamond "A" k "C" -> maxPathLength DEFAULT_SETTINGS <= Z.of_nat k) \/
     (0 <= distance r /\
      hops diamond "A" (Z.to_nat (distance r)) "C" /\
      forall k, hops diamond "A" k "C" -> distance r <= Z.of_nat k)).
Proof.
  apply (findShortestPath_small_graph_shortest DEFAULT_SETTINGS diamond "A" "C").
  - apply closedGraphb_sound. reflexivity.
  - left. simpl. lia.
Defined.

(** ** The payloads of the single-source search *)

(** X16: the single-source search always returns, and unless it reports that
    there is no path, its path runs from the start to the end node, its
    connection types hold one payload per hop, each of them a payload that the
    graph lists for that hop in the forward direction, and its distance is the
    number of hops. *)
Theorem findShortestPathOriginal_describes :
  forall (settings : Settings) (g : EnhancedGraph) (start end_ : string),
    exists r,
      findShortestPathOriginal settings g start end_ = Ok r /\
      (r = noPath \/
       (describes g (path r) (connectionTypes r) /\
        hd "" (path r) = start /\ last (path r) "" = end_ /\
        length (path r) = S (length (connectionTypes r)) /\
        distance r = Z.of_nat (length (connectionTypes r)))).
Proof.
  intros settings g start end_.
  destruct (findShortestPathOriginal_total settings g start end_) as [r Hrun].
  exists r. split; auto.
  destruct (findShortestPathOriginal_sound settings g start end_ r Hrun)
    as [H|[H1 [H2 [H3 H4]]]]; auto.
  right. split; auto. split; auto. split; auto. split; auto.
  now apply (describes_length g).
Qed.

(** ** The shuffle *)

Lemma replaceAt_perm {A : Type} (l : list A) i a x :
  nth_error l i = Some a -> Permutation (x :: l) (a :: replaceAt i x l).
Proof.
  revert i. induction l as [|y rest IH]; intros i H.
  - destruct i; discriminate.
  - destruct i as [|i']; simpl in *.
    + inversion H. subst. apply perm_swap.
    + apply perm_trans with (y :: x :: rest); [apply perm_swap|].
      apply perm_trans with (y :: a :: replaceAt i' x rest); [|apply perm_swap].
      apply perm_skip. now apply IH.
Qed.

Lemma nth_error_replaceAt {A : Type} (l : list A) i j a b :
  nth_error l i = Some a -> nth_error l j = Some b ->
  nth_error (replaceAt i b l) j = Some b.
Proof.
  revert i j. induction l as [|y rest IH]; intros i j Hi Hj.
  - destruct i; discriminate.
  - destruct i as [|i'], j as [|j']; simpl in *; auto.
Qed.

Lemma swapAt_perm {A : Type} (i j : nat) (l : list A) : Permutation l (swapAt i j l).
Proof.
  unfold swapAt.
  destruct (nth_error l i) as [a|] eqn:Ei; [|apply Permutation_refl].
  destruct (nth_error l j) as [b|] eqn:Ej; [|apply Permutation_refl].
  apply Permutation_cons_inv with (a := b).
  apply perm_trans with (a :: replaceAt i b l).
  - now apply replaceAt_perm.
  - apply replaceAt_perm. now apply (nth_error_replaceAt l i j a b).
Qed.

Lemma shuffleFrom_perm {A : Type} (rnd : nat -> nat) (i k : nat) (l : list A) :
  Permutation l (fst (shuffleFrom rnd i k l)) /\
  snd (shuffleFrom rnd i k l) = (k + i)%nat.
Proof.
  revert k l. induction i as [|i IH]; intros k l; cbn [shuffleFrom].
  - simpl. split; [apply Permutation_refl|lia].
  - destruct (IH (S k) (swapAt (S i) (Nat.modulo (rnd k) (S (S i))) l)) as [H1 H2].
    split; [|lia].
    eapply perm_trans; [apply swapAt_perm|exact H1].
Qed.

(** X17: the shuffle returns a rearrangement of its argument, whatever the
    random source yields, and draws one random number for each element but
    one. *)
Theorem shuffleArray_permutation :
  forall (A : Type) (rnd : nat -> nat) (k : nat) (l : list A),
    Permutation l (fst (shuffleArray rnd k l)) /\
    snd (shuffleArray rnd k l) = (k + (length l - 1))%nat.
Proof.
  intros A rnd k l. unfold shuffleArray. apply shuffleFrom_perm.
Qed.

(** ** The graph searched for alternative paths *)

Lemma copyGraph_acc (g acc : EnhancedGraph) :
  NoDup (okeys (acc ++ g)) ->
  fold_left (fun a kv => oset a (fst kv) (snd kv)) g acc = acc ++ g.
Proof.
  revert acc. induction g as [|[k v] g IH]; intros acc Hnd; simpl.
  - now rewrite app_nil_r.
  - assert (Hnone : oget acc k = None).
    { destruct (oget acc k) as [v'|] eqn:E; auto. exfalso.
      apply oget_In in E. unfold okeys in Hnd. rewrite map_app in Hnd.
      apply NoDup_remove_2 in Hnd. apply Hnd. apply in_or_app. left.
      apply (in_map fst) in E. exact E. }
    rewrite (oset_absent acc k v Hnone).
    rewrite IH; rewrite <- app_assoc; auto.
Qed.

Lemma copyGraph_id (g : EnhancedGraph) :
  NoDup (okeys g) -> copyGraph g = g.
Proof.
  intros H. unfold copyGraph. now apply (copyGraph_acc g []).
Qed.

Lemma oget_odelete {V : Type} (m : omap V) k k' :
  oget (odelete m k) k' = if String.eqb k k' then None else oget m k'.
Proof.
  destruct (String.eqb k k') eqn:E.
  - apply String.eqb_eq in E. subst. apply oget_odelete_eq.
  - apply String.eqb_neq in E. now apply oget_odelete_ne.
Qed.

(** A hop of the shortest path that [createAltPathGraph] takes out. *)
Lemma dropEdgeAt_edgeOf p (mg : EnhancedGraph) i s t :
  edgeOf (dropEdgeAt p mg i) s t
  = if removedAt p i s t then None else edgeOf mg s t.
Proof.
  unfold dropEdgeAt, removedAt.
  destruct (andb (Nat.eqb (Nat.modulo i 2) 1) (Nat.ltb i (length p - 2))); auto.
  destruct (nth_error p i) as [node|]; auto.
  destruct (nth_error p (i + 1)) as [nextNode|]; auto.
  destruct (andb (String.eqb node s) (String.eqb nextNode t)) eqn:E.
  - apply andb_prop in E. destruct E as [E1 E2].
    apply String.eqb_eq in E1, E2. subst.
    unfold edgeOf. destruct (oget mg s) as [edges|] eqn:Eg.
    + destruct (ohas edges t) eqn:Eh.
      * rewrite oget_oset_eq. apply oget_odelete_eq.
      * rewrite Eg. unfold ohas in Eh. destruct (oget edges t); simpl; congruence.
    + now rewrite Eg.
  - destruct (oget mg node) as [edges|] eqn:Eg; auto.
    destruct (ohas edges nextNode); auto.
    unfold edgeOf. rewrite oget_oset.
    destruct (String.eqb node s) eqn:E1.
    + apply String.eqb_eq in E1. subst. rewrite Eg.
      simpl in E. rewrite oget_odelete, E. reflexivity.
    + reflexivity.
Qed.

Lemma fold_dropEdgeAt_edgeOf p is_ (mg : EnhancedGraph) s t :
  edgeOf (fold_left (dropEdgeAt p) is_ mg) s t
  = if existsb (fun i => removedAt p i s t) is_ then None else edgeOf mg s t.
Proof.
  revert mg. induction is_ as [|i is_ IH]; intros mg; simpl; auto.
  rewrite IH, dropEdgeAt_edgeOf.
  destruct (removedAt p i s t); simpl; auto.
  now destruct (existsb (fun i0 => removedAt p i0 s t) is_).
Qed.

Lemma dropEdgeAt_keys p (mg : EnhancedGraph) i :
  okeys (dropEdgeAt p mg i) = okeys mg.
Proof.
  unfold dropEdgeAt.
  destruct (andb _ _); auto.
  destruct (nth_error p i) as [node|]; auto.
  destruct (nth_error p (i + 1)) as [nextNode|]; auto.
  destruct (oget mg node) as [edges|] eqn:Eg; auto.
  destruct (ohas edges nextNode); auto.
  apply okeys_oset_present. unfold ohas. now rewrite Eg.
Qed.

Lemma fold_dropEdgeAt_keys p is_ (mg : EnhancedGraph) :
  okeys (fold_left (dropEdgeAt p) is_ mg) = okeys mg.
Proof.
  revert mg. induction is_ as [|i is_ IH]; intros mg; simpl; auto.
  now rewrite IH, dropEdgeAt_keys.
Qed.

Lemma createAltPathGraph_edgeOf (g : EnhancedGraph) p s t :
  NoDup (okeys g) ->
  edgeOf (createAltPathGraph g p) s t
  = if removedHop p s t then None else edgeOf g s t.
Proof.
  intros Hnd. unfold createAltPathGraph, removedHop.
  rewrite (copyGraph_id g Hnd).
  destruct (3 <? length p)%nat; simpl; auto.
  apply fold_dropEdgeAt_edgeOf.
Qed.

(** X18: on a graph with distinct keys, the graph searched for alternative
    paths has the nodes of the given graph and its edges with their payloads,
    except the hops of the shortest path that leave its nodes of odd index,
    the last two nodes apart, when the path has more than three nodes. *)
Theorem createAltPathGraph_removes_odd_hops :
  forall (g : EnhancedGraph) (shortestPath : list string),
    NoDup (okeys g) ->
    okeys (createAltPathGraph g shortestPath) = okeys g /\
    forall s t,
      edgeOf (createAltPathGraph g shortestPath) s t
      = if removedHop shortestPath s t then None else edgeOf g s t.
Proof.
  intros g p Hnd. split.
  - unfold createAltPathGraph. rewrite (copyGraph_id g Hnd).
    destruct (3 <? length p)%nat; auto. apply fold_dropEdgeAt_keys.
  - intros s t. now apply createAltPathGraph_edgeOf.
Qed.

Lemma createAltPathGraph_removes_odd_hops_witness :
  okeys (createAltPathGraph (chain 6)
           (map nodeName (seq 0 6))) = okeys (chain 6) /\
  forall s t,
    edgeOf (createAltPathGraph (chain 6)
              (map nodeName (seq 0 6))) s t
    = if removedHop (map nodeName (seq 0 6)) s t then None
      else edgeOf (chain 6) s t.
Proof.
  apply (createAltPathGraph_removes_odd_hops (chain 6) (map nodeName (seq 0 6))).
  apply NoDup_distinctb. vm_compute. reflexivity.
Defined.

(** ** What the depth-first search adds *)

Lemma list_eqb_eq (a b : list string) : list_eqb a b = true <-> a = b.
Proof.
  revert b. induction a as [|x a IH]; intros [|y b]; simpl; split; intros H;
    try discriminate; auto.
  - apply andb_prop in H. destruct H as [H1 H2].
    apply String.eqb_eq in H1. apply IH in H2. now subst.
  - inversion H. subst. rewrite String.eqb_refl. simpl. now apply IH.
Qed.

Lemma isDuplicatePath_spec paths newPath :
  isDuplicatePath paths newPath = true <-> In newPath (map path paths).
Proof.
  unfold isDuplicatePath. rewrite existsb_exists, in_map_iff. split.
  - intros [p [Hp E]]. apply list_eqb_eq in E. eauto.
  - intros [p [E Hp]]. exists p. split; auto. now apply list_eqb_eq.
Qed.

Lemma shas_sdelete (s : sset) (x y : string) :
  shas (sdelete s x) y = andb (negb (String.eqb x y)) (shas s y).
Proof.
  unfold shas, sdelete. induction s as [|z s IH]; simpl.
  - now rewrite andb_false_r.
  - destruct (String.eqb z x) eqn:Ezx; simpl.
    + apply String.eqb_eq in Ezx. subst z. rewrite IH.
      rewrite (String.eqb_sym y x).
      destruct (String.eqb x y); simpl; auto.
    + rewrite IH. destruct (String.eqb y z) eqn:Eyz; simpl; auto.
      apply String.eqb_eq in Eyz. subst z.
      rewrite String.eqb_sym in Ezx. now rewrite Ezx.
Qed.

Lemma NoDup_snoc {A : Type} (l : list A) (x : A) :
  NoDup l -> ~ In x l -> NoDup (l ++ [x]).
Proof.
  intros Hnd Hx. apply Permutation_NoDup with (l := x :: l).
  - apply Permutation_cons_append.
  - now constructor.
Qed.

Lemma describes_nonempty g nodes payloads : describes g nodes payloads -> nodes <> [].
Proof. intros H. inversion H; discriminate. Qed.

Section DepthFirst.
Variable rnd : nat -> nat.
Variable g : EnhancedGraph.
Variables start endNode : string.
Variables maxPaths maxLen : Z.

Lemma exploreNeighbors_post recurse entries currentPath cts st st' :
  (forall neighbor ci s s',
     In (neighbor, ci) entries ->
     (forall x, shas (dvisited s) x = shas (dvisited st) x) ->
     shas (dvisited s) neighbor = false ->
     recurse neighbor (currentPath ++ [neighbor]) (cts ++ [ci]) s = Ok s' ->
     dfsPost (alternativeOk g start endNode maxLen) neighbor s s') ->
  exploreNeighbors recurse entries currentPath cts st = Ok st' ->
  (forall x, shas (dvisited st') x = shas (dvisited st) x) /\
  (exists added, dpaths st' = dpaths st ++ added /\
                 Forall (alternativeOk g start endNode maxLen) added) /\
  (NoDup (map path (dpaths st)) -> NoDup (map path (dpaths st'))).
Proof.
  revert st. induction entries as [|[neighbor ci] rest IH]; intros st Hrec Hrun;
    simpl in Hrun.
  - inversion Hrun. subst. split; auto. split; auto.
    exists []. rewrite app_nil_r. auto.
  - destruct (shas (dvisited st) neighbor) eqn:Evis.
    + apply IH; auto. intros n c s s' Hin. apply Hrec. now right.
    + destruct (recurse neighbor (currentPath ++ [neighbor]) (cts ++ [ci]) st)
        as [st1| |] eqn:Erec; simpl in Hrun; try discriminate.
      destruct (Hrec neighbor ci st st1 (or_introl eq_refl) (fun x => eq_refl)
                  Evis Erec) as [Hsame [Hcur [[added1 [Hp1 Hgood1]] Hnd1]]].
      assert (Hvis1 : forall x, shas (dvisited st1) x = shas (dvisited st) x).
      { intros x. destruct (String.eqb x neighbor) eqn:E.
        - apply String.eqb_eq in E. subst x. rewrite Evis.
          destruct (shas (dvisited st1) neighbor); auto.
          specialize (Hcur eq_refl). congruence.
        - apply String.eqb_neq in E. now apply Hsame. }
      destruct (IH st1) as [Hvis2 [[added2 [Hp2 Hgood2]] Hnd2]]; auto.
      * intros n c s s' Hin Hs. apply Hrec; [now right|].
        intros x. now rewrite Hs.
      * split; [|split].
        -- intros x. now rewrite Hvis2.
        -- exists (added1 ++ added2). rewrite Hp2, Hp1, <- app_assoc.
           split; auto. apply Forall_app. auto.
        -- auto.
Qed.

Lemma findAlternativePaths_post fuel : forall cur currentPath cts st st',
  describes g currentPath cts ->
  hd "" currentPath = start ->
  last currentPath "" = cur ->
  NoDup currentPath ->
  (forall x, In x currentPath -> x <> cur -> shas (dvisited st) x = true) ->
  findAlternativePaths rnd fuel g cur endNode currentPath cts maxPaths maxLen st
    = Ok st' ->
  dfsPost (alternativeOk g start endNode maxLen) cur st st'.
Proof.
  induction fuel as [|fuel IH];
    intros cur currentPath cts st st' Hdesc Hhd Hlast Hnd Hvis Hrun;
    simpl in Hrun; [discriminate|].
  assert (Hsame : dfsPost (alternativeOk g start endNode maxLen) cur st st).
  { split; auto. split; auto. split; auto. exists []. rewrite app_nil_r. auto. }
  destruct (orb (maxPaths <=? Z.of_nat (length (dpaths st)))
                (maxLen <? Z.of_nat (length currentPath))) eqn:Estop.
  - inversion Hrun. now subst.
  - apply orb_false_elim in Estop. destruct Estop as [_ Elen].
    apply Z.ltb_ge in Elen.
    destruct (String.eqb cur endNode) eqn:Eend.
    + apply String.eqb_eq in Eend.
      destruct (isDuplicatePath (dpaths st) currentPath) eqn:Edup.
      * inversion Hrun. now subst.
      * inversion Hrun. subst st'. simpl.
        split; auto. split; auto. split.
        -- eexists. split; [reflexivity|]. constructor; [|constructor].
           unfold alternativeOk. simpl. rewrite Hlast. auto 10.
        -- intros Hnd0. simpl. rewrite map_app. simpl.
           apply NoDup_snoc; auto.
           intros Hin. apply isDuplicatePath_spec in Hin. congruence.
    + destruct (shuffleFrom_perm rnd (length (neighborsOf g cur) - 1) (ddraws st)
                  (neighborsOf g cur)) as [Hperm _].
      fold (shuffleArray rnd (ddraws st) (neighborsOf g cur)) in Hperm.
      simpl in Hrun.
      destruct (shuffleArray rnd (ddraws st) (neighborsOf g cur))
        as [shuffled draws] eqn:Eshuffle. simpl in Hrun, Hperm.
      set (st0 := {| dvisited := sadd (dvisited st) cur; dpaths := dpaths st;
                     ddraws := draws |}) in *.
      destruct (exploreNeighbors
                  (fun neighbor p c s =>
                     findAlternativePaths rnd fuel g neighbor endNode p c
                       maxPaths maxLen s)
                  shuffled currentPath cts st0) as [st2| |] eqn:Eloop;
        simpl in Hrun; try discriminate.
      inversion Hrun. subst st'. simpl.
      assert (Hin0 : forall x, In x currentPath -> shas (dvisited st0) x = true).
      { intros x Hx. simpl. rewrite shas_sadd.
        destruct (String.eqb cur x) eqn:E; auto.
        apply String.eqb_neq in E. simpl. apply Hvis; auto. }
      assert (Hrec : forall neighbor ci s s',
                In (neighbor, ci) shuffled ->
                (forall x, shas (dvisited s) x = shas (dvisited st0) x) ->
                shas (dvisited s) neighbor = false ->
                findAlternativePaths rnd fuel g neighbor endNode
                  (currentPath ++ [neighbor]) (cts ++ [ci]) maxPaths maxLen s = Ok s' ->
                dfsPost (alternativeOk g start endNode maxLen) neighbor s s').
      { intros neighbor ci s s' Hin Hs Hn Hrec.
        apply (IH neighbor (currentPath ++ [neighbor]) (cts ++ [ci]) s s'); auto.
        - apply describes_snoc; auto. rewrite Hlast.
          apply (Permutation_in _ (Permutation_sym Hperm)). exact Hin.
        - rewrite hd_snoc; auto. now apply (describes_nonempty g _ cts).
        - apply last_snoc.
        - apply NoDup_snoc; auto. intros Hx.
          apply Hin0 in Hx. rewrite <- Hs in Hx. congruence.
        - intros x Hx Hne. apply in_app_or in Hx. destruct Hx as [Hx|[Hx|[]]].
          + rewrite Hs. now apply Hin0.
          + congruence. }
      destruct (exploreNeighbors_post
                  (fun neighbor p c s =>
                     findAlternativePaths rnd fuel g neighbor endNode p c
                       maxPaths maxLen s)
                  shuffled currentPath cts st0 st2 Hrec Eloop)
        as [Hvis2 [Hadded Hnd2]].
      split; [|split; [|split]].
      * intros x Hx. simpl. rewrite shas_sdelete, Hvis2. simpl. rewrite shas_sadd.
        apply String.eqb_neq in Hx. rewrite String.eqb_sym in Hx.
        now rewrite Hx.
      * simpl. rewrite shas_sdelete, String.eqb_refl. simpl. discriminate.
      * exact Hadded.
      * exact Hnd2.
Qed.

End DepthFirst.

(** ** The results of [findAllPaths] *)

Lemma dropEdgeAt_incl p (mg : EnhancedGraph) i a :
  incl (neighborsOf (dropEdgeAt p mg i) a) (neighborsOf mg a).
Proof.
  unfold dropEdgeAt.
  destruct (andb _ _); [|apply incl_refl].
  destruct (nth_error p i) as [node|]; [|apply incl_refl].
  destruct (nth_error p (i + 1)) as [nextNode|]; [|apply incl_refl].
  destruct (oget mg node) as [edges|] eqn:Eg; [|apply incl_refl].
  destruct (ohas edges nextNode); [|apply incl_refl].
  unfold neighborsOf. rewrite oget_oset.
  destruct (String.eqb node a) eqn:E; [|apply incl_refl].
  apply String.eqb_eq in E. subst a. rewrite Eg.
  unfold odelete. apply incl_filter.
Qed.

Lemma createAltPathGraph_incl (g : EnhancedGraph) p a :
  NoDup (okeys g) ->
  incl (neighborsOf (createAltPathGraph g p) a) (neighborsOf g a).
Proof.
  intros Hnd. unfold createAltPathGraph. rewrite (copyGraph_id g Hnd).
  destruct (3 <? length p)%nat; [|apply incl_refl].
  generalize (seq 1 (length p - 2)). intros is_.
  assert (H : forall mg : EnhancedGraph,
            incl (neighborsOf mg a) (neighborsOf g a) ->
            incl (neighborsOf (fold_left (dropEdgeAt p) is_ mg) a) (neighborsOf g a)).
  { induction is_ as [|i is_ IH]; intros mg Hmg; simpl; auto.
    apply IH. eapply incl_tran; [apply dropEdgeAt_incl|exact Hmg]. }
  apply H. apply incl_refl.
Qed.

Lemma describes_incl g1 g2 nodes payloads :
  (forall a, incl (neighborsOf g1 a) (neighborsOf g2 a)) ->
  describes g1 nodes payloads -> describes g2 nodes payloads.
Proof.
  intros Hincl. induction 1 as [n|a b rest c cs Hin _ IH]; constructor; auto.
  now apply (Hincl a).
Qed.

Lemma alternativeOk_incl g1 g2 start end_ maxLen p :
  (forall a, incl (neighborsOf g1 a) (neighborsOf g2 a)) ->
  alternativeOk g1 start end_ maxLen p -> alternativeOk g2 start end_ maxLen p.
Proof.
  intros Hincl [H1 H2]. split; auto. now apply (describes_incl g1 g2).
Qed.

Lemma insertSorted_perm {A : Type} (before : A -> A -> bool) x (l : list A) :
  Permutation (x :: l) (insertSorted before x l).
Proof.
  induction l as [|y l IH]; simpl; auto.
  destruct (before x y); auto.
  apply perm_trans with (y :: x :: l); [apply perm_swap|]. now apply perm_skip.
Qed.

Lemma stableSort_perm {A : Type} (before : A -> A -> bool) (l : list A) :
  Permutation l (stableSort before l).
Proof.
  induction l as [|x l IH]; simpl; auto.
  apply perm_trans with (x :: stableSort before l).
  - now apply perm_skip.
  - apply insertSorted_perm.
Qed.

Lemma stableSort_head {A : Type} (before : A -> A -> bool) x (l : list A) :
  (forall y, In y l -> before x y = true) ->
  stableSort before (x :: l) = x :: stableSort before l.
Proof.
  intros H. simpl. fold (stableSort before l).
  destruct (stableSort before l) as [|y rest] eqn:E; auto.
  simpl. rewrite H; auto.
  apply (In_stableSort before y l). rewrite E. now left.
Qed.

(** The state in which [findAllPaths] leaves the depth-first search. *)
Lemma findAllPaths_dfs settings rnd g start end_ maxPaths shortest st :
  NoDup (okeys g) ->
  findAlternativePaths rnd (dfsFuel settings) (createAltPathGraph g (path shortest))
    start end_ [start] [] maxPaths (maxPathLength settings)
    {| dvisited := [start]; dpaths := [shortest]; ddraws := O |} = Ok st ->
  NoDup (map path (dpaths st)) /\
  exists added,
    dpaths st = shortest :: added /\
    Forall (alternativeOk g start end_ (maxPathLength settings)) added.
Proof.
  intros Hnd Hrun.
  apply (findAlternativePaths_post rnd _ start end_ maxPaths (maxPathLength settings))
    in Hrun.
  - destruct Hrun as [_ [_ [[added [Hp Hgood]] Hnodup]]]. simpl in *. split.
    + apply Hnodup. repeat constructor. intros [].
    + exists added. split; auto.
      apply Forall_forall. intros p Hin. rewrite Forall_forall in Hgood.
      apply (alternativeOk_incl (createAltPathGraph g (path shortest)) g); auto.
      intros a. now apply createAltPathGraph_incl.
  - constructor.
  - reflexivity.
  - reflexivity.
  - repeat constructor. intros [].
  - intros x [Hx|[]] Hne. congruence.
Qed.

(** X19: on a graph with distinct keys, the results of [findAllPaths] have
    pairwise different node sequences, and each of them other than the result
    of [findShortestPath] is a route of the graph from the start to the end
    node that visits no node twice and has at most [maxPathLength] nodes; its
    payloads describe it hop by hop and its distance is its number of hops. *)
Theorem findAllPaths_alternatives :
  forall (settings : Settings) (rnd : nat -> nat) (g : EnhancedGraph)
         (start end_ : string) (maxPaths : Z)
         (paths : list PathResult) (shortest : PathResult),
    NoDup (okeys g) ->
    findAllPaths settings rnd g start end_ maxPaths = Ok paths ->
    findShortestPath settings g start end_ = Ok shortest ->
    NoDup (map path paths) /\
    forall p, In p paths ->
      p = shortest \/ alternativeOk g start end_ (maxPathLength settings) p.
Proof.
  intros settings rnd g start end_ maxPaths paths shortest Hnd Hrun Hshort.
  unfold findAllPaths in Hrun. rewrite Hshort in Hrun. cbn [rbind] in Hrun.
  destruct (distance shortest =? -1).
  - inversion Hrun. subst. split; [constructor|]. intros p [].
  - destruct (maxPaths <=? 1).
    + inversion Hrun. subst. split.
      * repeat constructor. intros [].
      * intros p [Hp|[]]. now left.
    + destruct (findAlternativePaths rnd (dfsFuel settings)
                  (createAltPathGraph g (path shortest)) start end_ [start] []
                  maxPaths (maxPathLength settings)
                  {| dvisited := [start]; dpaths := [shortest]; ddraws := O |})
        as [st| |] eqn:Edfs; cbn [rbind] in Hrun; try discriminate.
      inversion Hrun. subst paths.
      destruct (findAllPaths_dfs settings rnd g start end_ maxPaths shortest st
                  Hnd Edfs) as [Hnodup [added [Hp Hgood]]].
      split.
      * apply (Permutation_NoDup (l := map path (dpaths st))); auto.
        apply Permutation_map. apply stableSort_perm.
      * intros p Hin. apply In_stableSort in Hin. rewrite Hp in Hin.
        destruct Hin as [Hin|Hin]; [now left|right].
        rewrite Forall_forall in Hgood. auto.
Qed.

Lemma findAllPaths_alternatives_witness :
  NoDup (map path [routeABD; routeACED]) /\
  forall p, In p [routeABD; routeACED] ->
    p = routeABD \/
    alternativeOk twoRoutes "A" "D" (maxPathLength DEFAULT_SETTINGS) p.
Proof.
  apply (findAllPaths_alternatives DEFAULT_SETTINGS (fun _ => O) twoRoutes
           "A" "D" 5 [routeABD; routeACED] routeABD).
  - apply NoDup_distinctb. vm_compute. reflexivity.
  - vm_compute. reflexivity.
  - vm_compute. reflexivity.
Defined.

Lemma hops_front g a b k t : hasEdge g a b -> hops g b k t -> hops g a (S k) t.
Proof.
  intros Hab H. induction H as [|k u v Hu IH Huv].
  - apply (hops_step g a O a b); [constructor|exact Hab].
  - apply (hops_step g a (S k) u v); auto.
Qed.

Lemma describes_hops g nodes payloads :
  describes g nodes payloads ->
  hops g (hd "" nodes) (length payloads) (last nodes "").
Proof.
  induction 1 as [n|a b rest c cs Hin _ IH].
  - constructor.
  - simpl length. apply (hops_front g a b); [|exact IH].
    apply (neighborsOf_hasEdge g a (b, c) Hin).
Qed.

(** X20: on a graph with distinct keys that has fewer than 500 nodes or is
    searched with the preference 'original', the first result of
    [findAllPaths] is the result of [findShortestPath] whenever that one
    reports a path. *)
Theorem findAllPaths_head_is_shortest :
  forall (settings : Settings) (rnd : nat -> nat) (g : EnhancedGraph)
         (start end_ : string) (maxPaths : Z)
         (paths : list PathResult) (shortest : PathResult),
    NoDup (okeys g) ->
    (length g < 500)%nat \/ algorithmPreference settings = PrefOriginal ->
    findAllPaths settings rnd g start end_ maxPaths = Ok paths ->
    findShortestPath settings g start end_ = Ok shortest ->
    distance shortest <> -1 ->
    exists others, paths = shortest :: others.
Proof.
  intros settings rnd g start end_ maxPaths paths shortest Hnd Hsmall Hrun Hshort Hfound.
  assert (Hmin : forall p, alternativeOk g start end_ (maxPathLength settings) p ->
            (length (path shortest) <= length (path p))%nat).
  { intros p [Hdesc [Hhd [Hlast _]]].
    pose proof (describes_hops g _ _ Hdesc) as Hhops.
    rewrite Hhd, Hlast in Hhops.
    pose proof (describes_length g _ _ Hdesc) as Hlen.
    unfold findShortestPath in Hshort.
    destruct (String.eqb start end_).
    - inversion Hshort. subst. simpl. lia.
    - destruct (orb (negb (ohas g start)) (negb (ohas g end_))).
      + inversion Hshort. subst. simpl in Hfound. congruence.
      + assert (Hstrategy : orb (length g <? 500)%nat (preferOriginal settings) = true).
        { destruct Hsmall as [H|H].
          - apply Nat.ltb_lt in H. now rewrite H.
          - unfold preferOriginal. rewrite H. apply orb_true_r. }
        rewrite Hstrategy in Hshort.
        destruct (bfsLoop_shortest settings g start end_ _ _ _ shortest
                    (bfsInv_initial settings g start end_) Hshort)
          as [[H _]|[_ [_ Hleast]]]; [congruence|].
        specialize (Hleast _ Hhops).
        destruct (findShortestPathOriginal_route settings g start end_ shortest Hshort)
          as [H|[_ [_ [_ [_ H]]]]]; [subst; simpl in Hfound; congruence|].
        lia. }
  unfold findAllPaths in Hrun. rewrite Hshort in Hrun. cbn [rbind] in Hrun.
  destruct (distance shortest =? -1) eqn:E; [apply Z.eqb_eq in E; congruence|].
  destruct (maxPaths <=? 1).
  - inversion Hrun. eauto.
  - destruct (findAlternativePaths rnd (dfsFuel settings)
                (createAltPathGraph g (path shortest)) start end_ [start] []
                maxPaths (maxPathLength settings)
                {| dvisited := [start]; dpaths := [shortest]; ddraws := O |})
      as [st| |] eqn:Edfs; cbn [rbind] in Hrun; try discriminate.
    inversion Hrun. subst paths.
    destruct (findAllPaths_dfs settings rnd g start end_ maxPaths shortest st
                Hnd Edfs) as [_ [added [Hp Hgood]]].
    rewrite Hp. exists (stableSort (byPathLength) added).
    apply stableSort_head. intros y Hy. unfold byPathLength.
    apply Nat.leb_le. apply Hmin. rewrite Forall_forall in Hgood. auto.
Qed.

Lemma findAllPaths_head_is_shortest_witness :
  exists others, [routeABD; routeACED] = routeABD :: others.
Proof.
  apply (findAllPaths_head_is_shortest DEFAULT_SETTINGS (fun _ => O) twoRoutes
           "A" "D" 5 [routeABD; routeACED] routeABD).
  - apply NoDup_distinctb. vm_compute. reflexivity.
  - left. simpl. lia.
  - vm_compute. reflexivity.
  - vm_compute. reflexivity.
  - simpl. lia.
Defined.

(** ** Degree centrality *)

Lemma fold_left_pair {A B C : Type} (f : A -> C -> A) (h : B -> C -> B)
  (l : list C) (a : A) (b : B) :
  fold_left (fun ab c => (f (fst ab) c, h (snd ab) c)) l (a, b)
  = (fold_left f l a, fold_left h l b).
Proof.
  revert a b. induction l as [|c l IH]; intros a b; simpl; auto.
Qed.

Lemma countAt_oset m k k' v :
  countAt (oset m k v) k' = if String.eqb k k' then v else countAt m k'.
Proof.
  unfold countAt. rewrite oget_oset. now destruct (String.eqb k k').
Qed.

Lemma countIncoming_keys_spec (ks : list string) (ind : omap Z) k :
  countAt (fold_left (fun i n => oset i n (countAt i n + 1)) ks ind) k
  = countAt ind k + Z.of_nat (count_occ string_dec ks k) /\
  ohas (fold_left (fun i n => oset i n (countAt i n + 1)) ks ind) k
  = orb (ohas ind k) (existsb (String.eqb k) ks).
Proof.
  revert ind. induction ks as [|n ks IH]; intros ind; simpl.
  - split; [lia|now rewrite orb_false_r].
  - destruct (IH (oset ind n (countAt ind n + 1))) as [H1 H2].
    rewrite H1, H2, countAt_oset, ohas_oset. rewrite (String.eqb_sym k n).
    destruct (string_dec n k) as [E|E].
    + subst. rewrite String.eqb_refl. split; [lia|].
      simpl. now rewrite orb_true_r.
    + apply String.eqb_neq in E. rewrite E. split; [lia|].
      simpl. reflexivity.
Qed.

Lemma count_occ_allTargets (g : EnhancedGraph) s (m : omap ConnectionInfo) k :
  count_occ string_dec (allTargets ((s, m) :: g)) k
  = (count_occ string_dec (okeys m) k + count_occ string_dec (allTargets g) k)%nat.
Proof.
  unfold allTargets. simpl. apply count_occ_app.
Qed.

Lemma inDegree_spec (g : EnhancedGraph) (ind : omap Z) k :
  countAt (fold_left (fun i entry => countIncoming i (snd entry)) g ind) k
  = countAt ind k + Z.of_nat (count_occ string_dec (allTargets g) k) /\
  (ohas ind k = true ->
   ohas (fold_left (fun i entry => countIncoming i (snd entry)) g ind) k = true).
Proof.
  revert ind. induction g as [|[s m] g IH]; intros ind.
  - simpl. split; [lia|auto].
  - cbn [fold_left snd]. destruct (IH (countIncoming ind m)) as [H1 H2].
    destruct (countIncoming_keys_spec (okeys m) ind k) as [H3 H4].
    fold (countIncoming ind m) in H3, H4.
    rewrite H1, H3, count_occ_allTargets. split; [lia|].
    intros Hk. apply H2. rewrite H4, Hk. reflexivity.
Qed.

Lemma oget_fold_oset_by {V : Type} (f : string -> V) (ks : list string)
  (m : omap V) k :
  oget (fold_left (fun t n => oset t n (f n)) ks m) k
  = if existsb (String.eqb k) ks then Some (f k) else oget m k.
Proof.
  revert m. induction ks as [|n ks IH]; intros m; simpl; auto.
  rewrite IH. destruct (existsb (String.eqb k) ks) eqn:E.
  - now rewrite orb_true_r.
  - rewrite orb_false_r, oget_oset, (String.eqb_sym k n).
    destruct (String.eqb n k) eqn:En; auto.
    apply String.eqb_eq in En. now subst.
Qed.

Lemma outDegree_spec (g : EnhancedGraph) (out : omap Z) k m :
  NoDup (okeys g) -> In (k, m) g ->
  oget (fold_left (fun o entry => oset o (fst entry) (Z.of_nat (length (snd entry))))
          g out) k = Some (Z.of_nat (length m)).
Proof.
  revert out. induction g as [|[s m'] g IH]; intros out Hnd Hin; [contradiction|].
  simpl in *. inversion Hnd as [|? ? Hnotin Hnd']. subst.
  destruct Hin as [Hin|Hin].
  - inversion Hin. subst.
    assert (Hkeep : forall (l : EnhancedGraph) (o : omap Z),
              ~ In k (okeys l) ->
              oget (fold_left (fun o0 entry =>
                      oset o0 (fst entry) (Z.of_nat (length (snd entry)))) l o) k
              = oget o k).
    { induction l as [|[s' m''] l IHl]; intros o Hk; simpl; auto.
      rewrite IHl.
      - apply oget_oset_ne. intros E. apply Hk. simpl. now left.
      - intros H. apply Hk. simpl. now right. }
    rewrite Hkeep by auto. apply oget_oset_eq.
  - now apply IH.
Qed.

(** X21: on a graph with distinct keys, the degree centrality gives every
    node of the graph its number of outgoing edges as out-degree, the number
    of adjacency entries that name it as in-degree, and their sum as total
    degree. *)
Theorem calculateDegreeCentrality_degrees :
  forall (g : EnhancedGraph) (node : string),
    NoDup (okeys g) ->
    In node (okeys g) ->
    oget (outDegree (calculateDegreeCentrality g)) node
      = Some (Z.of_nat (length (neighborsOf g node))) /\
    oget (inDegree (calculateDegreeCentrality g)) node
      = Some (Z.of_nat (count_occ string_dec (allTargets g) node)) /\
    oget (totalDegree (calculateDegreeCentrality g)) node
      = Some (Z.of_nat (count_occ string_dec (allTargets g) node)
              + Z.of_nat (length (neighborsOf g node))).
Proof.
  intros g node Hnd Hin. unfold calculateDegreeCentrality.
  rewrite (fold_left_pair (fun i n => oset i n 0) (fun o n => oset o n 0)).
  rewrite (fold_left_pair (fun i (entry : string * omap ConnectionInfo) =>
                             countIncoming i (snd entry))
             (fun o (entry : string * omap ConnectionInfo) =>
                oset o (fst entry) (Z.of_nat (length (snd entry))))).
  cbn [fst snd inDegree outDegree totalDegree].
  set (ind0 := fold_left (fun i n => oset i n 0) (okeys g) []).
  set (out0 := fold_left (fun o n => oset o n 0) (okeys g) []).
  assert (Hm : exists m, In (node, m) g).
  { unfold okeys in Hin. apply in_map_iff in Hin.
    destruct Hin as [[k m] [E H]]. simpl in E. subst. eauto. }
  destruct Hm as [m Hm].
  assert (Hnb : neighborsOf g node = m).
  { unfold neighborsOf. now rewrite (oget_NoDup_In g node m Hnd Hm). }
  assert (Hout : oget (fold_left
                         (fun o (entry : string * omap ConnectionInfo) =>
                            oset o (fst entry) (Z.of_nat (length (snd entry))))
                         g out0) node = Some (Z.of_nat (length m))).
  { now apply outDegree_spec. }
  assert (Hin0 : oget ind0 node = Some 0).
  { unfold ind0. rewrite (oget_fold_oset_by (fun _ => 0)).
    apply existsb_eqb_In in Hin. now rewrite Hin. }
  destruct (inDegree_spec g ind0 node) as [Hcount Hhas].
  assert (Hind : oget (fold_left
                         (fun i (entry : string * omap ConnectionInfo) =>
                            countIncoming i (snd entry)) g ind0) node
                 = Some (Z.of_nat (count_occ string_dec (allTargets g) node))).
  { unfold countAt in Hcount. rewrite Hin0 in Hcount.
    unfold ohas in Hhas. rewrite Hin0 in Hhas. specialize (Hhas eq_refl).
    destruct (oget (fold_left
                      (fun i (entry : string * omap ConnectionInfo) =>
                         countIncoming i (snd entry)) g ind0) node);
      [|discriminate].
    f_equal. lia. }
  rewrite Hnb. split; auto. split; auto.
  rewrite (oget_fold_oset_by
             (fun n => countAt (fold_left
                         (fun i (entry : string * omap ConnectionInfo) =>
                            countIncoming i (snd entry)) g ind0) n
                       + countAt (fold_left
                           (fun o (entry : string * omap ConnectionInfo) =>
                              oset o (fst entry) (Z.of_nat (length (snd entry))))
                           g out0) n)).
  apply existsb_eqb_In in Hin. rewrite Hin.
  unfold countAt. now rewrite Hind, Hout.
Qed.

Lemma calculateDegreeCentrality_degrees_witness :
  oget (outDegree (calculateDegreeCentrality diamond)) "B1" = Some 1 /\
  oget (inDegree (calculateDegreeCentrality diamond)) "B1" = Some 1 /\
  oget (totalDegree (calculateDegreeCentrality diamond)) "B1" = Some (1 + 1).
Proof.
  apply (calculateDegreeCentrality_degrees diamond "B1").
  - apply NoDup_distinctb. reflexivity.
  - simpl. tauto.
Defined.

Lemma sumZ_oset_increment (m : omap Z) k :
  sumZ (ovalues (oset m k (countAt m k + 1))) = sumZ (ovalues m) + 1.
Proof.
  unfold countAt. induction m as [|[k' v] m IH]; simpl.
  - lia.
  - destruct (String.eqb k' k) eqn:E; simpl.
    + lia.
    + unfold ovalues in *. simpl. lia.
Qed.

Lemma sumZ_countIncoming (ks : list string) (ind : omap Z) :
  sumZ (ovalues (fold_left (fun i n => oset i n (countAt i n + 1)) ks ind))
  = sumZ (ovalues ind) + Z.of_nat (length ks).
Proof.
  revert ind. induction ks as [|n ks IH]; intros ind; simpl fold_left.
  - simpl. lia.
  - rewrite IH, sumZ_oset_increment. simpl length. lia.
Qed.

Lemma sumZ_oset (m : omap Z) k v :
  sumZ (ovalues (oset m k v)) = sumZ (ovalues m) - countAt m k + v.
Proof.
  unfold countAt. induction m as [|[k' v'] m IH]; simpl; [lia|].
  destruct (String.eqb k' k) eqn:E; simpl; [lia|].
  unfold ovalues in *. simpl. lia.
Qed.

Lemma countAt_zeros (ks : list string) k :
  countAt (fold_left (fun i n => oset i n 0) ks []) k = 0.
Proof.
  unfold countAt. rewrite (oget_fold_oset_by (fun _ => 0)).
  now destruct (existsb (String.eqb k) ks).
Qed.

Lemma allzero_oset (m : omap Z) n :
  (forall v, In v (ovalues m) -> v = 0) ->
  forall v, In v (ovalues (oset m n 0)) -> v = 0.
Proof.
  intros Hall v Hv. unfold ovalues in Hv. apply in_map_iff in Hv.
  destruct Hv as [[k v'] [E Hin]]. simpl in E. subst v'.
  apply In_oset in Hin. destruct Hin as [Hin|Hin].
  - now inversion Hin.
  - apply Hall. apply (in_map snd) in Hin. exact Hin.
Qed.

Lemma allzero_initial (ks : list string) (m : omap Z) :
  (forall v, In v (ovalues m) -> v = 0) ->
  forall v, In v (ovalues (fold_left (fun i n => oset i n 0) ks m)) -> v = 0.
Proof.
  revert m. induction ks as [|n ks IH]; intros m Hall; simpl; auto.
  apply IH. now apply allzero_oset.
Qed.

Lemma sumZ_allzero (l : list Z) : (forall v, In v l -> v = 0) -> sumZ l = 0.
Proof.
  induction l as [|v l IH]; intros H; simpl; auto.
  rewrite (H v (or_introl eq_refl)), IH; auto.
  intros v' Hv'. apply H. now right.
Qed.

Lemma sumZ_inDegree (g : EnhancedGraph) (ind : omap Z) :
  sumZ (ovalues (fold_left (fun i (entry : string * omap ConnectionInfo) =>
                              countIncoming i (snd entry)) g ind))
  = sumZ (ovalues ind) + Z.of_nat (length (allTargets g)).
Proof.
  revert ind. induction g as [|[s m] g IH]; intros ind.
  - simpl. lia.
  - cbn [fold_left snd]. rewrite IH. unfold countIncoming.
    rewrite sumZ_countIncoming. unfold allTargets. simpl.
    rewrite length_app. lia.
Qed.

Lemma sumZ_outDegree (g : EnhancedGraph) (out : omap Z) :
  NoDup (okeys g) ->
  (forall k, In k (okeys g) -> countAt out k = 0) ->
  sumZ (ovalues (fold_left (fun o (entry : string * omap ConnectionInfo) =>
                              oset o (fst entry) (Z.of_nat (length (snd entry))))
                   g out))
  = sumZ (ovalues out) + Z.of_nat (length (allTargets g)).
Proof.
  revert out. induction g as [|[s m] g IH]; intros out Hnd Hzero.
  - simpl. lia.
  - cbn [fold_left fst snd]. inversion Hnd as [|? ? Hnotin Hnd']. subst.
    rewrite IH; auto.
    + rewrite sumZ_oset, (Hzero s (or_introl eq_refl)).
      unfold allTargets. simpl. rewrite length_app.
      unfold okeys. rewrite length_map. lia.
    + intros k Hk. rewrite countAt_oset.
      destruct (String.eqb s k) eqn:E.
      * apply String.eqb_eq in E. subst. contradiction.
      * apply Hzero. now right.
Qed.

(** X22: on a graph with distinct keys, the in-degrees that the degree
    centrality reports add up to the number of adjacency entries of the graph,
    and so do the out-degrees. *)
Theorem calculateDegreeCentrality_handshake :
  forall (g : EnhancedGraph),
    NoDup (okeys g) ->
    sumZ (ovalues (inDegree (calculateDegreeCentrality g)))
      = Z.of_nat (length (allTargets g)) /\
    sumZ (ovalues (outDegree (calculateDegreeCentrality g)))
      = Z.of_nat (length (allTargets g)).
Proof.
  intros g Hnd. unfold calculateDegreeCentrality.
  rewrite (fold_left_pair (fun i n => oset i n 0) (fun o n => oset o n 0)).
  rewrite (fold_left_pair (fun i (entry : string * omap ConnectionInfo) =>
                             countIncoming i (snd entry))
             (fun o (entry : string * omap ConnectionInfo) =>
                oset o (fst entry) (Z.of_nat (length (snd entry))))).
  cbn [fst snd inDegree outDegree].
  assert (Hzero : sumZ (ovalues (fold_left (fun i n => oset i n 0) (okeys g) [])) = 0).
  { apply sumZ_allzero. apply allzero_initial. intros v []. }
  split.
  - rewrite sumZ_inDegree, Hzero. lia.
  - rewrite sumZ_outDegree; auto.
    + rewrite Hzero. lia.
    + intros k _. apply countAt_zeros.
Qed.

Lemma calculateDegreeCentrality_handshake_witness :
  sumZ (ovalues (inDegree (calculateDegreeCentrality diamond)))
    = Z.of_nat (length (allTargets diamond)) /\
  sumZ (ovalues (outDegree (calculateDegreeCentrality diamond)))
    = Z.of_nat (length (allTargets diamond)).
Proof.
  apply (calculateDegreeCentrality_handshake diamond).
  apply NoDup_distinctb. reflexivity.
Defined.

(** ** Every metric covers every node *)

Lemma okeys_oset_In {V : Type} (m : omap V) k v :
  In k (okeys m) -> okeys (oset m k v) = okeys m.
Proof.
  intros H. apply okeys_oset_present. now apply ohas_In_keys.
Qed.

Lemma okeys_fold_present {V : Type} (F : omap V -> string -> V) ks (m : omap V) :
  (forall k, In k ks -> In k (okeys m)) ->
  okeys (fold_left (fun a k => oset a k (F a k)) ks m) = okeys m.
Proof.
  revert m. induction ks as [|k ks IH]; intros m H; simpl; auto.
  assert (Hk : okeys (oset m k (F m k)) = okeys m).
  { apply okeys_oset_In. apply H. now left. }
  rewrite IH; auto. intros k' Hk'. rewrite Hk. apply H. now right.
Qed.

Lemma okeys_fold_fresh_acc {V : Type} (F : omap V -> string -> V) ks (acc : omap V) :
  NoDup (okeys acc ++ ks) ->
  okeys (fold_left (fun a k => oset a k (F a k)) ks acc) = okeys acc ++ ks.
Proof.
  revert acc. induction ks as [|k ks IH]; intros acc Hnd; simpl.
  - now rewrite app_nil_r.
  - assert (Hnone : oget acc k = None).
    { destruct (oget acc k) as [v|] eqn:E; auto. exfalso.
      apply NoDup_remove_2 in Hnd. apply Hnd. apply in_or_app. left.
      apply oget_In in E. apply (in_map fst) in E. exact E. }
    rewrite (oset_absent acc k (F acc k) Hnone).
    rewrite IH.
    + unfold okeys. rewrite map_app, <- app_assoc. reflexivity.
    + unfold okeys. rewrite map_app, <- app_assoc. exact Hnd.
Qed.

Lemma okeys_fold_fresh {V : Type} (F : omap V -> string -> V) ks :
  NoDup ks -> okeys (fold_left (fun a k => oset a k (F a k)) ks []) = ks.
Proof.
  intros H. now apply (okeys_fold_fresh_acc F ks []).
Qed.

Section Coverage.
Variable g : EnhancedGraph.
Hypothesis g_keys : NoDup (okeys g).
Hypothesis g_closed : closedGraph g.

Lemma targets_are_nodes s m t :
  In (s, m) g -> In t (okeys m) -> In t (okeys g).
Proof.
  intros Hin Ht. apply ohas_In_keys. apply (g_closed s t).
  unfold hasEdge, edgeOf. rewrite (oget_NoDup_In g s m g_keys Hin).
  apply ohas_In_keys in Ht. unfold ohas in Ht.
  destruct (oget m t); congruence.
Qed.

Lemma savePrevious_keys pr prev :
  okeys pr = okeys g -> okeys prev = okeys g ->
  okeys (fst (savePrevious g pr prev)) = okeys g /\
  okeys (snd (savePrevious g pr prev)) = okeys g.
Proof.
  unfold savePrevious, nodes. intros Hpr Hprev.
  assert (H : forall ks pp,
            (forall k, In k ks -> In k (okeys g)) ->
            okeys (fst pp) = okeys g -> okeys (snd pp) = okeys g ->
            okeys (fst (fold_left
                          (fun pp0 node =>
                             (oset (fst pp0) node 0%float,
                              oset (snd pp0) node (numberAt (fst pp0) node)))
                          ks pp)) = okeys g /\
            okeys (snd (fold_left
                          (fun pp0 node =>
                             (oset (fst pp0) node 0%float,
                              oset (snd pp0) node (numberAt (fst pp0) node)))
                          ks pp)) = okeys g).
  { induction ks as [|k ks IH]; intros pp Hks H1 H2; simpl; auto.
    apply IH.
    - intros k' Hk'. apply Hks. now right.
    - simpl. rewrite okeys_oset_In; auto. rewrite H1. apply Hks. now left.
    - simpl. rewrite okeys_oset_In; auto. rewrite H2. apply Hks. now left. }
  apply H; auto.
Qed.

Lemma distribute_keys d prev pr entry :
  In entry g -> okeys pr = okeys g ->
  okeys (distribute g d prev pr entry) = okeys g.
Proof.
  intros Hin Hpr. destruct entry as [node edges]. unfold distribute.
  destruct edges as [|e edges'].
  - unfold addTo.
    rewrite (okeys_fold_present
               (fun a k => (numberAt a k
                            + d * (numberAt prev node / nodeCount g))%float)); auto.
    intros k Hk. now rewrite Hpr.
  - unfold addTo.
    rewrite (okeys_fold_present
               (fun a k => (numberAt a k
                            + d * (numberAt prev node
                                   / numberOfNat (length (e :: edges'))))%float));
      auto.
    intros k Hk. rewrite Hpr. now apply (targets_are_nodes node (e :: edges')).
Qed.

Lemma fold_distribute_keys d prev entries pr :
  incl entries g -> okeys pr = okeys g ->
  okeys (fold_left (distribute g d prev) entries pr) = okeys g.
Proof.
  revert pr. induction entries as [|entry entries IH]; intros pr Hincl Hpr; simpl; auto.
  apply IH.
  - intros e He. apply Hincl. now right.
  - apply distribute_keys; auto. apply Hincl. now left.
Qed.

Lemma addBase_keys d pr : okeys pr = okeys g -> okeys (addBase g d pr) = okeys g.
Proof.
  intros Hpr. unfold addBase, addTo, nodes.
  rewrite (okeys_fold_present
             (fun a k => (numberAt a k + (1 - d) / nodeCount g)%float)); auto.
  intros k Hk. now rewrite Hpr.
Qed.

Lemma iteratePageRank_keys d tol n : forall pr prev,
  okeys pr = okeys g -> okeys prev = okeys g ->
  okeys (iteratePageRank g d tol n pr prev) = okeys g.
Proof.
  induction n as [|n IH]; intros pr prev Hpr Hprev; simpl; auto.
  destruct (savePrevious_keys pr prev Hpr Hprev) as [H1 H2].
  destruct (savePrevious g pr prev) as [pr0 prev0]. simpl in H1, H2.
  assert (H3 : okeys (addBase g d (fold_left (distribute g d prev0) g pr0)) = okeys g).
  { apply addBase_keys. apply fold_distribute_keys; auto. apply incl_refl. }
  destruct (PrimFloat.ltb _ tol); auto.
Qed.

Lemma normalize_keys pr : okeys pr = okeys g -> okeys (normalize g pr) = okeys g.
Proof.
  intros Hpr. unfold normalize, nodes.
  destruct (PrimFloat.ltb 0 (mathMax (ovalues pr))); auto.
  rewrite (okeys_fold_present
             (fun a k => (numberAt a k / mathMax (ovalues pr))%float)); auto.
  intros k Hk. now rewrite Hpr.
Qed.

Lemma calculatePageRankWith_keys d tol n :
  okeys (calculatePageRankWith g d tol n) = okeys g.
Proof.
  unfold calculatePageRankWith.
  assert (H : okeys (fold_left (fun pr node => oset pr node (1 / nodeCount g)%float)
                       (nodes g) []) = okeys g).
  { apply (okeys_fold_fresh (fun _ _ => (1 / nodeCount g)%float)). exact g_keys. }
  apply normalize_keys. now apply iteratePageRank_keys.
Qed.

Lemma degree_keys :
  okeys (inDegree (calculateDegreeCentrality g)) = okeys g /\
  okeys (outDegree (calculateDegreeCentrality g)) = okeys g /\
  okeys (totalDegree (calculateDegreeCentrality g)) = okeys g.
Proof.
  unfold calculateDegreeCentrality.
  rewrite (fold_left_pair (fun i n => oset i n 0) (fun o n => oset o n 0)).
  rewrite (fold_left_pair (fun i (entry : string * omap ConnectionInfo) =>
                             countIncoming i (snd entry))
             (fun o (entry : string * omap ConnectionInfo) =>
                oset o (fst entry) (Z.of_nat (length (snd entry))))).
  cbn [fst snd inDegree outDegree totalDegree].
  assert (H0 : okeys (fold_left (fun i n => oset i n 0) (okeys g) []) = okeys g).
  { apply (okeys_fold_fresh (fun _ _ => 0)). exact g_keys. }
  split; [|split].
  - assert (H : forall entries (ind : omap Z),
              incl entries g -> okeys ind = okeys g ->
              okeys (fold_left (fun i (entry : string * omap ConnectionInfo) =>
                                  countIncoming i (snd entry)) entries ind)
              = okeys g).
    { induction entries as [|[s m] entries IH]; intros ind Hincl Hind; simpl; auto.
      apply IH.
      - intros e He. apply Hincl. now right.
      - unfold countIncoming.
        rewrite (okeys_fold_present (fun a k => countAt a k + 1)); auto.
        intros k Hk. rewrite Hind.
        apply (targets_are_nodes s m); auto. apply Hincl. now left. }
    apply H; auto. apply incl_refl.
  - assert (H : forall entries (out : omap Z),
              incl entries g -> okeys out = okeys g ->
              okeys (fold_left (fun o (entry : string * omap ConnectionInfo) =>
                                  oset o (fst entry) (Z.of_nat (length (snd entry))))
                       entries out) = okeys g).
    { induction entries as [|[s m] entries IH]; intros out Hincl Hout; simpl; auto.
      apply IH.
      - intros e He. apply Hincl. now right.
      - rewrite okeys_oset_In; auto. rewrite Hout.
        apply (in_map fst g (s, m)). apply Hincl. now left. }
    apply H; auto. apply incl_refl.
  - match goal with
    | |- okeys (fold_left (fun tot node => oset tot node (@?F node)) _ _) = _ =>
        apply (okeys_fold_fresh (fun _ node => F node)); exact g_keys
    end.
Qed.

Lemma resetNext_keys next :
  next = [] \/ okeys next = okeys g -> okeys (resetNext g next) = okeys g.
Proof.
  unfold resetNext, nodes. intros [H|H].
  - subst. apply (okeys_fold_fresh (fun _ _ => 0%float)). exact g_keys.
  - rewrite (okeys_fold_present (fun _ _ => 0%float)); auto.
    intros k Hk. now rewrite H.
Qed.

Lemma fold_spread_keys centrality entries next :
  incl entries g -> okeys next = okeys g ->
  okeys (fold_left (spread centrality) entries next) = okeys g.
Proof.
  revert next. induction entries as [|[s m] entries IH]; intros next Hincl Hnext;
    simpl; auto.
  apply IH.
  - intros e He. apply Hincl. now right.
  - unfold spread. cbn [fst snd].
    rewrite (okeys_fold_present
               (fun a k => (numberOrZero a k + numberAt centrality s)%float)); auto.
    intros k Hk. rewrite Hnext.
    apply (targets_are_nodes s m); auto. apply Hincl. now left.
Qed.

Lemma iterateEigenvector_keys tol n : forall centrality next,
  okeys centrality = okeys g ->
  next = [] \/ okeys next = okeys g ->
  okeys (iterateEigenvector g tol n centrality next) = okeys g.
Proof.
  induction n as [|n IH]; intros centrality next Hc Hn; simpl; auto.
  set (next1 := fold_left (spread centrality) g (resetNext g next)).
  assert (H1 : okeys next1 = okeys g).
  { apply fold_spread_keys; [apply incl_refl|]. now apply resetNext_keys. }
  destruct (PrimFloat.ltb (l2norm next1) 1e-10); auto.
  assert (H2 : okeys (divideBy g (l2norm next1) next1) = okeys g).
  { unfold divideBy, nodes.
    rewrite (okeys_fold_present (fun a k => (numberAt a k / l2norm next1)%float));
      auto.
    intros k Hk. now rewrite H1. }
  destruct (PrimFloat.ltb _ tol); auto.
Qed.

Lemma calculateBridgingCoefficient_keys :
  okeys (calculateBridgingCoefficient g) = okeys g.
Proof.
  unfold calculateBridgingCoefficient.
  assert (H : okeys (fold_left (fun bc node => oset bc node (bridgingOf g node))
                       (okeys g) []) = okeys g).
  { apply (okeys_fold_fresh (fun _ node => bridgingOf g node)). exact g_keys. }
  destruct (PrimFloat.ltb 0 _); auto.
  match goal with
  | |- okeys (fold_left (fun bc node => oset bc node (numberAt bc node / ?mx)%float)
                _ ?m) = _ =>
      rewrite (okeys_fold_present (fun a k => (numberAt a k / mx)%float)); auto
  end.
  intros k Hk. now rewrite H.
Qed.

End Coverage.

(** X23: on a graph with distinct keys in which every edge target has an
    entry, each of the hub metrics (PageRank, in-degree, out-degree, total
    degree, eigenvector centrality, bridging coefficient) has exactly one
    entry for every node of the graph, in the order of the graph. *)
Theorem hub_metrics_cover_every_node :
  forall (g : EnhancedGraph),
    NoDup (okeys g) ->
    closedGraph g ->
    okeys (calculatePageRank g) = okeys g /\
    okeys (inDegree (calculateDegreeCentrality g)) = okeys g /\
    okeys (outDegree (calculateDegreeCentrality g)) = okeys g /\
    okeys (totalDegree (calculateDegreeCentrality g)) = okeys g /\
    okeys (calculateEigenvectorCentrality g) = okeys g /\
    okeys (calculateBridgingCoefficient g) = okeys g.
Proof.
  intros g Hnd Hclosed.
  destruct (degree_keys g Hnd Hclosed) as [H1 [H2 H3]].
  split; [now apply calculatePageRankWith_keys|].
  split; auto. split; auto. split; auto. split.
  - unfold calculateEigenvectorCentrality, calculateEigenvectorCentralityWith.
    apply iterateEigenvector_keys; auto.
    apply (okeys_fold_fresh (fun _ _ => (1 / nodeCount g)%float)). exact Hnd.
  - now apply calculateBridgingCoefficient_keys.
Qed.

Lemma hub_metrics_cover_every_node_witness :
  okeys (calculatePageRank diamond) = okeys diamond /\
  okeys (inDegree (calculateDegreeCentrality diamond)) = okeys diamond /\
  okeys (outDegree (calculateDegreeCentrality diamond)) = okeys diamond /\
  okeys (totalDegree (calculateDegreeCentrality diamond)) = okeys diamond /\
  okeys (calculateEigenvectorCentrality diamond) = okeys diamond /\
  okeys (calculateBridgingCoefficient diamond) = okeys diamond.
Proof.
  apply (hub_metrics_cover_every_node diamond).
  - apply NoDup_distinctb. reflexivity.
  - apply closedGraphb_sound. reflexivity.
Defined.

(** ** Bridging coefficient of a node with at most one neighbor *)

Lemma zero_div_positive (x : float) :
  PrimFloat.ltb 0 x = true -> (0 / x)%float = 0%float.
Proof.
  intros H. apply Prim2SF_inj. rewrite div_spec.
  rewrite ltb_spec in H.
  change (Prim2SF 0) with (S754_zero false) in *.
  destruct (Prim2SF x) as [s|s| |s m e]; simpl in H; try discriminate.
  - destruct s; [discriminate|reflexivity].
  - destruct s; [discriminate|reflexivity].
Qed.

Lemma oget_fold_divide (maxValue : float) (ks : list string) (bc : omap float) node :
  (0 / maxValue)%float = 0%float ->
  oget bc node = Some 0%float ->
  oget (fold_left (fun b n => oset b n (numberAt b n / maxValue)%float) ks bc) node
  = Some 0%float.
Proof.
  intros Hdiv. revert bc. induction ks as [|k ks IH]; intros bc H; simpl; auto.
  apply IH. rewrite oget_oset. destruct (String.eqb k node) eqn:E; auto.
  apply String.eqb_eq in E. subst k. unfold numberAt. rewrite H. now rewrite Hdiv.
Qed.

(** X24: the bridging coefficient of a node of the graph that has at most one
    neighbor is exactly 0, before and after the normalization. *)
Theorem calculateBridgingCoefficient_few_neighbors :
  forall (g : EnhancedGraph) (node : string),
    In node (okeys g) ->
    (length (getNeighbors g node) <= 1)%nat ->
    oget (calculateBridgingCoefficient g) node = Some 0%float.
Proof.
  intros g node Hin Hfew. unfold calculateBridgingCoefficient.
  assert (Hraw : oget (fold_left (fun bc n => oset bc n (bridgingOf g n)) (okeys g) [])
                   node = Some 0%float).
  { rewrite (oget_fold_oset_by (fun n => bridgingOf g n)).
    apply existsb_eqb_In in Hin. rewrite Hin.
    unfold bridgingOf. apply Nat.leb_le in Hfew. now rewrite Hfew. }
  destruct (PrimFloat.ltb 0 _) eqn:Emax; auto.
  apply oget_fold_divide; auto. now apply zero_div_positive.
Qed.

Lemma calculateBridgingCoefficient_few_neighbors_witness :
  oget (calculateBridgingCoefficient diamond) "C" = Some 0%float.
Proof.
  apply (calculateBridgingCoefficient_few_neighbors diamond "C").
  - simpl. tauto.
  - vm_compute. lia.
Defined.

(** ** Eigenvector centrality of a graph without edges *)

Lemma allzero_values_oset (m : omap float) n :
  (forall v, In v (ovalues m) -> v = 0%float) ->
  forall v, In v (ovalues (oset m n 0%float)) -> v = 0%float.
Proof.
  intros Hall v Hv. unfold ovalues in Hv. apply in_map_iff in Hv.
  destruct Hv as [[k v'] [E Hin]]. simpl in E. subst v'.
  apply In_oset in Hin. destruct Hin as [Hin|Hin].
  - now inversion Hin.
  - apply Hall. apply (in_map snd) in Hin. exact Hin.
Qed.

Lemma resetNext_zero g (next : omap float) :
  (forall v, In v (ovalues next) -> v = 0%float) ->
  forall v, In v (ovalues (resetNext g next)) -> v = 0%float.
Proof.
  unfold resetNext. generalize (nodes g). intros ks. revert next.
  induction ks as [|k ks IH]; intros next Hall; simpl; auto.
  apply IH. now apply allzero_values_oset.
Qed.

Lemma fold_spread_edgeless centrality (entries : EnhancedGraph) next :
  (forall entry, In entry entries -> snd entry = []) ->
  fold_left (spread centrality) entries next = next.
Proof.
  revert next. induction entries as [|[s m] entries IH]; intros next H; simpl; auto.
  assert (Hm : m = []) by (apply (H (s, m)); now left). subst m.
  unfold spread at 2. simpl. apply IH. intros e He. apply H. now right.
Qed.

Lemma l2norm_zero (next : omap float) :
  (forall v, In v (ovalues next) -> v = 0%float) -> l2norm next = 0%float.
Proof.
  unfold l2norm. intros H.
  assert (Hsum : fold_left (fun norm value => (norm + value * value)%float)
                   (ovalues next) 0%float = 0%float).
  { induction (ovalues next) as [|v l IH]; simpl; auto.
    rewrite (H v (or_introl eq_refl)).
    change (0 + 0 * 0)%float with 0%float.
    apply IH. intros v' Hv'. apply H. now right. }
  rewrite Hsum. reflexivity.
Qed.

Lemma iterateEigenvector_stops g tol n centrality next :
  l2norm (fold_left (spread centrality) g (resetNext g next)) = 0%float ->
  iterateEigenvector g tol (S n) centrality next = centrality.
Proof.
  intros H. cbn [iterateEigenvector]. rewrite H.
  change (PrimFloat.ltb 0 1e-10) with true. reflexivity.
Qed.

(** X25: on a graph without any edge the power iteration stops in its first
    round, because the norm is below the threshold, and every node keeps its
    initial eigenvector centrality, one over the number of nodes. *)
Theorem calculateEigenvectorCentrality_edgeless :
  forall (g : EnhancedGraph) (node : string),
    (forall entry, In entry g -> snd entry = []) ->
    In node (okeys g) ->
    oget (calculateEigenvectorCentrality g) node = Some (1 / nodeCount g)%float.
Proof.
  intros g node Hedgeless Hin.
  unfold calculateEigenvectorCentrality, calculateEigenvectorCentralityWith.
  rewrite (iterateEigenvector_stops g 0.0001%float 49).
  - unfold nodes. rewrite (oget_fold_oset_by (fun _ => (1 / nodeCount g)%float)).
    apply existsb_eqb_In in Hin. now rewrite Hin.
  - rewrite (fold_spread_edgeless _ g _ Hedgeless).
    apply l2norm_zero. apply resetNext_zero. intros v [].
Qed.

Lemma calculateEigenvectorCentrality_edgeless_witness :
  oget (calculateEigenvectorCentrality (isolatedNodes 0 4)) (nodeName 2)
    = Some (1 / nodeCount (isolatedNodes 0 4))%float.
Proof.
  apply (calculateEigenvectorCentrality_edgeless (isolatedNodes 0 4) (nodeName 2)).
  - intros entry Hin. unfold isolatedNodes in Hin. apply in_map_iff in Hin.
    destruct Hin as [i [E _]]. now subst.
  - vm_compute. tauto.
Defined.

(** ** The graph does not depend on the batching *)

Lemma processFile_settings files s1 s2 allFiles g file :
  includeEmbeddedLinks s1 = includeEmbeddedLinks s2 ->
  includeTagsInAnalysis s1 = includeTagsInAnalysis s2 ->
  processFile files s1 allFiles g file = processFile files s2 allFiles g file.
Proof.
  intros H1 H2. unfold processFile. now rewrite H1, H2.
Qed.

Lemma fold_processFile_settings files s1 s2 allFiles batch g :
  includeEmbeddedLinks s1 = includeEmbeddedLinks s2 ->
  includeTagsInAnalysis s1 = includeTagsInAnalysis s2 ->
  fold_left (processFile files s1 allFiles) batch g
  = fold_left (processFile files s2 allFiles) batch g.
Proof.
  intros H1 H2. revert g. induction batch as [|file rest IH]; intros g; simpl; auto.
  now rewrite IH, (processFile_settings files s1 s2 allFiles g file H1 H2).
Qed.

(** X26: the graph that [buildGraph] returns depends on the settings only
    through [includeBacklinks], [includeEmbeddedLinks] and
    [includeTagsInAnalysis]: the size of the batches in which the documents
    are processed ([parallelProcessing]) has no influence on it. *)
Theorem buildGraph_independent_of_batching :
  forall (files : list TFile) (s1 s2 : Settings),
    includeBacklinks s1 = includeBacklinks s2 ->
    includeEmbeddedLinks s1 = includeEmbeddedLinks s2 ->
    includeTagsInAnalysis s1 = includeTagsInAnalysis s2 ->
    buildGraph files s1 = buildGraph files s2.
Proof.
  intros files s1 s2 H1 H2 H3. unfold buildGraph.
  rewrite !buildForward_sequential.
  rewrite (fold_processFile_settings files s1 s2 files files _ H2 H3).
  now rewrite H1.
Qed.

Lemma buildGraph_independent_of_batching_witness :
  buildGraph vaultABCD DEFAULT_SETTINGS = buildGraph vaultABCD sequentialSettings.
Proof.
  apply (buildGraph_independent_of_batching vaultABCD DEFAULT_SETTINGS
           sequentialSettings); reflexivity.
Defined.

(** ** The backlink pass on a symmetric graph *)

Lemma backlinkTargets_noop files source targets (g : EnhancedGraph) :
  (forall t, In t (okeys targets) -> hasEdge g t source) ->
  backlinkTargets files source targets g = Ok g.
Proof.
  induction targets as [|[target info] rest IH]; intros H; simpl; auto.
  assert (Ht : hasEdge g target source) by (apply H; now left).
  unfold hasEdge, edgeOf in Ht.
  destruct (oget g target) as [tm|]; [|congruence].
  unfold ohas. destruct (oget tm source); [|congruence].
  apply IH. intros t Hin. apply H. now right.
Qed.

Lemma backlinkSources_noop files pending (g : EnhancedGraph) :
  (forall u v, hasEdge g u v -> hasEdge g v u) ->
  backlinkSources files pending g = Ok g.
Proof.
  intros Hsym. induction pending as [|source rest IH]; simpl; auto.
  rewrite backlinkTargets_noop; auto.
  intros t Ht. apply Hsym. apply hasEdge_listed. exact Ht.
Qed.

(** X27: the backlink pass changes nothing in a graph in which every edge
    already has an edge in the opposite direction; in particular it leaves the
    graph that [buildGraph] returns with backlinks as it is. *)
Theorem processBacklinks_idempotent :
  forall (files : list TFile) (settings : Settings),
    (forall g : EnhancedGraph,
       (forall u v, hasEdge g u v -> hasEdge g v u) ->
       processBacklinks files g = Ok g) /\
    (includeBacklinks settings = true ->
     exists g, buildGraph files settings = Ok g /\ processBacklinks files g = Ok g).
Proof.
  intros files settings. split.
  - intros g Hsym. unfold processBacklinks. now apply backlinkSources_noop.
  - intros Hback. unfold buildGraph. rewrite Hback.
    destruct (processBacklinks_spec files (buildForward files settings))
      as [g [Hrun [_ [_ [_ [_ Hsym]]]]]].
    + apply buildForward_closed.
    + apply buildForward_resolvable.
    + exists g. split; auto. unfold processBacklinks.
      now apply backlinkSources_noop.
Qed.

(** ** Create followed by delete *)

Lemma odelete_oset {V : Type} (m : omap V) k v :
  odelete (oset m k v) k = odelete m k.
Proof.
  unfold odelete. induction m as [|[k' v'] m IH]; simpl.
  - now rewrite String.eqb_refl.
  - destruct (String.eqb k' k) eqn:E; simpl; rewrite E; simpl; auto.
    now rewrite IH.
Qed.

Lemma odelete_setEdge g src tgt info g' :
  setEdge g src tgt info = Ok g' -> odelete g' src = odelete g src.
Proof.
  unfold setEdge. destruct (oget g src); [|discriminate].
  intros H. inversion H. apply odelete_oset.
Qed.

Lemma odelete_addLinks files ty src captures g :
  odelete (fst (addLinks files ty src captures g)) src = odelete g src.
Proof.
  revert g. induction captures as [|capture rest IH]; intros g; simpl; auto.
  destruct (isEmptyString (linkTextOf capture)); auto.
  destruct (findNoteByName files (linkTextOf capture)) as [linkedFile|]; auto.
  destruct (setEdge g src (fpath linkedFile) (linkInfo ty linkedFile))
    as [g'| |] eqn:E; simpl; auto.
  rewrite IH. exact (odelete_setEdge g src _ _ g' E).
Qed.

Lemma odelete_addTagEdges src matches g :
  odelete (fst (addTagEdges src matches g)) src = odelete g src.
Proof.
  revert g. induction matches as [|[k [otherFile common]] rest IH]; intros g;
    simpl; auto.
  destruct (setEdge g src (fpath otherFile) (tagInfo otherFile common))
    as [g'| |] eqn:E; simpl; auto.
  rewrite IH. exact (odelete_setEdge g src _ _ g' E).
Qed.

Lemma odelete_processFile files settings allFiles g file :
  odelete (processFile files settings allFiles g file) (fpath file)
  = odelete g (fpath file).
Proof.
  apply (processFile_stages files settings allFiles g file
           (fun g0 => odelete g0 (fpath file) = odelete g (fpath file))); auto.
  - intros ty captures g0 H. now rewrite odelete_addLinks.
  - intros g0 H. now rewrite odelete_addTagEdges.
Qed.

Lemma odelete_absent {V : Type} (m : omap V) k :
  ohas m k = false -> odelete m k = m.
Proof.
  unfold ohas, odelete. induction m as [|[k' v'] m IH]; simpl; auto.
  destruct (String.eqb k' k) eqn:E; simpl; [discriminate|].
  intros H. now rewrite IH.
Qed.

(** X28: when caching is enabled and the cached graph neither has a node for
    a document nor an edge towards it, creating the document and then deleting
    it gives back exactly the cached graph. *)
Theorem updateGraphCache_create_then_delete :
  forall (files files' : list TFile) (settings : Settings) (now now' : Z)
         (st : ServiceState) (g : EnhancedGraph) (changedFile : TFile),
    cacheGraphStructure settings = true ->
    cachedGraph st = Some g ->
    ohas g (fpath changedFile) = false ->
    (forall entry, In entry g -> ohas (snd entry) (fpath changedFile) = false) ->
    updateGraphCache files' settings now'
      (updateGraphCache files settings now st changedFile Create)
      changedFile Delete
    = {| cachedGraph := Some g; lastCacheTime := now' |}.
Proof.
  intros files files' settings now now' st g changedFile Hcache Hg Hnode Hedges.
  unfold updateGraphCache. rewrite Hcache, Hg. simpl. f_equal. f_equal.
  rewrite odelete_processFile, odelete_oset, (odelete_absent g _ Hnode).
  clear Hg Hnode. induction g as [|[k edges] g IH]; simpl; auto.
  rewrite IH.
  - rewrite (odelete_absent edges (fpath changedFile)); auto.
    apply (Hedges (k, edges)). now left.
  - intros entry Hin. apply Hedges. now right.
Qed.

Lemma updateGraphCache_create_then_delete_witness :
  updateGraphCache vaultBefore DEFAULT_SETTINGS 2
    (updateGraphCache vaultWithX DEFAULT_SETTINGS 1
       {| cachedGraph := Some graphBefore; lastCacheTime := 0 |} noteX Create)
    noteX Delete
  = {| cachedGraph := Some graphBefore; lastCacheTime := 2 |}.
Proof.
  apply (updateGraphCache_create_then_delete vaultWithX vaultBefore DEFAULT_SETTINGS
           1 2 {| cachedGraph := Some graphBefore; lastCacheTime := 0 |}
           graphBefore noteX).
  - reflexivity.
  - reflexivity.
  - reflexivity.
  - intros entry [H|[H|[]]]; subst; reflexivity.
Defined.

(** ** Cancellation truncates the clustering scores *)

Lemma firstn_plus {A : Type} (n m : nat) (l : list A) :
  firstn (n + m) l = firstn n l ++ firstn m (skipn n l).
Proof.
  revert l. induction n as [|n IH]; intros l; simpl; auto.
  destruct l as [|x l]; simpl.
  - now rewrite firstn_nil.
  - now rewrite IH.
Qed.

Lemma clusteringBatches_prefix fuel g cancel : forall batchNo rest res,
  (length rest <= fuel)%nat ->
  exists k,
    (forall b, (b < k)%nat -> cancel (batchNo + b)%nat = false) /\
    ((3 * k < length rest)%nat -> cancel (batchNo + k)%nat = true) /\
    clusteringBatches fuel g cancel batchNo rest res
    = fold_left (fun r node => oset r node (clusteringOf g node))
        (firstn (3 * k) rest) res.
Proof.
  induction fuel as [|fuel IH]; intros batchNo rest res Hfuel.
  - exists O. destruct rest; [|simpl in Hfuel; lia].
    split; [intros b Hb; lia|]. split; [simpl; lia|reflexivity].
  - destruct rest as [|n rest'].
    + exists O. split; [intros b Hb; lia|]. split; [simpl; lia|reflexivity].
    + cbn [clusteringBatches]. destruct (cancel batchNo) eqn:Ecancel.
      * exists O. split; [intros b Hb; lia|].
        split; [intros _; now rewrite Nat.add_0_r|reflexivity].
      * destruct (IH (S batchNo) (skipn CLUSTERING_BATCH_SIZE (n :: rest'))
                    (fold_left (fun r node => oset r node (clusteringOf g node))
                       (firstn CLUSTERING_BATCH_SIZE (n :: rest')) res))
          as [k [Hrun [Hstop Hres]]].
        { rewrite length_skipn. unfold CLUSTERING_BATCH_SIZE. simpl in *. lia. }
        exists (S k). split; [|split].
        -- intros b Hb. destruct b as [|b].
           ++ now rewrite Nat.add_0_r.
           ++ replace (batchNo + S b)%nat with (S batchNo + b)%nat by lia.
              apply Hrun. lia.
        -- intros Hlen. replace (batchNo + S k)%nat with (S batchNo + k)%nat by lia.
           apply Hstop. rewrite length_skipn. unfold CLUSTERING_BATCH_SIZE. lia.
        -- rewrite Hres. unfold CLUSTERING_BATCH_SIZE.
           replace (3 * S k)%nat with (3 + 3 * k)%nat by lia.
           rewrite (firstn_plus 3 (3 * k) (n :: rest')).
           now rewrite fold_left_app.
Qed.

(** X29: the clustering coefficients returned are those of the batches of
    three path nodes that started before the first cancellation: with [k] the
    number of the first batch at whose head the flag was set (or the number of
    batches, when it never was), the result holds the scores of the first
    [3 * k] path nodes and nothing else. *)
Theorem calculateClusteringCoefficient_prefix :
  forall (g : EnhancedGraph) (cancelAnalysisFlag : nat -> bool)
         (pathNodes : list string),
    exists k,
      (forall b, (b < k)%nat -> cancelAnalysisFlag b = false) /\
      ((3 * k < length pathNodes)%nat -> cancelAnalysisFlag k = true) /\
      calculateClusteringCoefficient g cancelAnalysisFlag pathNodes
      = fold_left (fun r node => oset r node (clusteringOf g node))
          (firstn (3 * k) pathNodes) [].
Proof.
  intros g cancel pathNodes. unfold calculateClusteringCoefficient.
  destruct (clusteringBatches_prefix (length pathNodes) g cancel O pathNodes [])
    as [k [H1 [H2 H3]]]; auto.
  exists k. auto.
Qed.

(** ** The order in which the documents are processed *)

Lemma oset_oset_same {V : Type} (m : omap V) k v1 v2 :
  oset (oset m k v1) k v2 = oset m k v2.
Proof.
  induction m as [|[k' v'] m IH]; simpl.
  - now rewrite String.eqb_refl.
  - destruct (String.eqb k' k) eqn:E; simpl; rewrite E; auto. now rewrite IH.
Qed.

Lemma oset_same {V : Type} (m : omap V) k v :
  oget m k = Some v -> oset m k v = m.
Proof.
  induction m as [|[k' v'] m IH]; simpl; [discriminate|].
  destruct (String.eqb k' k) eqn:E.
  - intros H. inversion H. reflexivity.
  - intros H. now rewrite IH.
Qed.

Lemma oset_comm {V : Type} (m : omap V) k1 k2 v1 v2 :
  k1 <> k2 -> ohas m k1 = true -> ohas m k2 = true ->
  oset (oset m k1 v1) k2 v2 = oset (oset m k2 v2) k1 v1.
Proof.
  intros Hne. unfold ohas. induction m as [|[k' v'] m IH]; simpl; [discriminate|].
  destruct (String.eqb k' k1) eqn:E1, (String.eqb k' k2) eqn:E2; simpl;
    rewrite ?E1, ?E2; auto.
  - apply String.eqb_eq in E1, E2. congruence.
  - intros H1 H2. f_equal. now apply IH.
Qed.

(** The pass for a document rewrites the entry of that document in place,
    when there is one, and nothing else. *)
Lemma processFile_as_oset files settings allFiles (g : EnhancedGraph) file :
  match oget g (fpath file) with
  | Some _ =>
      exists m', oget (processFile files settings allFiles g file) (fpath file)
                 = Some m' /\
                 processFile files settings allFiles g file
                 = oset g (fpath file) m'
  | None => processFile files settings allFiles g file = g
  end.
Proof.
  destruct (oget g (fpath file)) as [m|] eqn:Eg.
  - apply (processFile_stages files settings allFiles g file
             (fun g0 => exists m', oget g0 (fpath file) = Some m' /\
                                   g0 = oset g (fpath file) m')).
    + exists m. split; auto. symmetry. now apply oset_same.
    + intros ty captures. induction captures as [|capture rest IH];
        intros g0 [m0 [H1 H2]]; simpl; [eauto|].
      destruct (isEmptyString (linkTextOf capture)); [now apply IH; eauto|].
      destruct (findNoteByName files (linkTextOf capture)) as [linkedFile|];
        [|now apply IH; eauto].
      unfold setEdge. rewrite H1. apply IH.
      eexists. split; [apply oget_oset_eq|].
      rewrite H2 at 1. apply oset_oset_same.
    + intros g0. generalize (firstn MAX_TAG_MATCHES (sortedTagMatches file allFiles)).
      intros matches. revert g0.
      induction matches as [|[k [otherFile common]] rest IH];
        intros g0 [m0 [H1 H2]]; simpl; [eauto|].
      unfold setEdge. rewrite H1. apply IH.
      eexists. split; [apply oget_oset_eq|].
      rewrite H2 at 1. apply oset_oset_same.
  - apply (processFile_stages files settings allFiles g file (fun g0 => g0 = g)); auto.
    + intros ty captures g0 H. subst g0.
      induction captures as [|capture rest IH]; simpl; auto.
      destruct (isEmptyString (linkTextOf capture)); auto.
      destruct (findNoteByName files (linkTextOf capture)); auto.
      unfold setEdge. now rewrite Eg.
    + intros g0 H. subst g0.
      destruct (firstn MAX_TAG_MATCHES (sortedTagMatches file allFiles))
        as [|[k [otherFile common]] rest]; simpl; auto.
      unfold setEdge. now rewrite Eg.
Qed.

Lemma processFile_commute files settings allFiles (g : EnhancedGraph) a b :
  fpath a <> fpath b ->
  processFile files settings allFiles (processFile files settings allFiles g a) b
  = processFile files settings allFiles (processFile files settings allFiles g b) a.
Proof.
  intros Hne.
  pose proof (processFile_as_oset files settings allFiles g a) as Ha.
  pose proof (processFile_as_oset files settings allFiles g b) as Hb.
  pose proof (processFile_as_oset files settings allFiles
                (processFile files settings allFiles g a) b) as Hab.
  pose proof (processFile_as_oset files settings allFiles
                (processFile files settings allFiles g b) a) as Hba.
  rewrite (processFile_frame files settings allFiles g a (fpath b)) in Hab
    by congruence.
  rewrite (processFile_frame files settings allFiles g b (fpath a)) in Hba
    by congruence.
  assert (Lb : oget (processFile files settings allFiles
                       (processFile files settings allFiles g a) b) (fpath b)
               = oget (processFile files settings allFiles g b) (fpath b)).
  { apply processFile_local. apply processFile_frame. congruence. }
  assert (La : oget (processFile files settings allFiles
                       (processFile files settings allFiles g b) a) (fpath a)
               = oget (processFile files settings allFiles g a) (fpath a)).
  { apply processFile_local. apply processFile_frame. congruence. }
  destruct (oget g (fpath a)) as [ma|] eqn:Ea;
    destruct (oget g (fpath b)) as [mb|] eqn:Eb.
  - destruct Ha as [ma' [Ha1 Ha2]]. destruct Hb as [mb' [Hb1 Hb2]].
    destruct Hab as [mb2 [Hab1 Hab2]]. destruct Hba as [ma2 [Hba1 Hba2]].
    assert (mb2 = mb') by congruence. assert (ma2 = ma') by congruence.
    subst mb2 ma2. rewrite Hab2, Hba2, Ha2, Hb2.
    apply oset_comm; auto; unfold ohas; [now rewrite Ea|now rewrite Eb].
  - destruct Hba as [ma2 [Hba1 Hba2]]. now rewrite Hab, Hb.
  - destruct Hab as [mb2 [Hab1 Hab2]]. now rewrite Hba, Ha.
  - now rewrite Hab, Hba, Ha, Hb.
Qed.

Lemma fold_processFile_perm files settings allFiles l1 l2 :
  Permutation l1 l2 ->
  NoDup (map fpath l1) ->
  forall g : EnhancedGraph,
    fold_left (processFile files settings allFiles) l1 g
    = fold_left (processFile files settings allFiles) l2 g.
Proof.
  induction 1 as [|x l l' Hperm IH|x y l|l l' l'' H1 IH1 H2 IH2]; intros Hnd g;
    simpl; auto.
  - apply IH. now inversion Hnd.
  - rewrite processFile_commute; auto.
    inversion Hnd as [|? ? Hnotin _]. subst. intros E. apply Hnotin.
    simpl. now left.
  - rewrite IH1; auto. apply IH2.
    apply (Permutation_NoDup (l := map fpath l)); auto.
    now apply Permutation_map.
Qed.

(** X30: in a vault whose documents have distinct paths, the graph after the
    per-document passes does not depend on the order in which the documents
    are processed: running the passes in any order gives the graph that
    [buildGraph] builds before it adds the backlinks. *)
Theorem processFile_order_independent :
  forall (files : list TFile) (settings : Settings) (order : list TFile),
    NoDup (map fpath files) ->
    Permutation files order ->
    fold_left (processFile files settings files) order (initGraph files)
    = buildForward files settings.
Proof.
  intros files settings order Hnd Hperm.
  rewrite buildForward_sequential. symmetry.
  now apply fold_processFile_perm.
Qed.

Lemma processFile_order_independent_witness :
  fold_left (processFile vaultABC DEFAULT_SETTINGS vaultABC) (rev vaultABC)
    (initGraph vaultABC)
  = buildForward vaultABC DEFAULT_SETTINGS.
Proof.
  apply (processFile_order_independent vaultABC DEFAULT_SETTINGS (rev vaultABC)).
  - apply NoDup_distinctb. reflexivity.
  - apply Permutation_rev.
Defined.
